(** * TwoFourTree: the debug operations (validator and layout engine)

    A shallow embedding of [src/debug_operations.ipp]: the structural
    validator [validateRelationships], the label printer [getString] and the
    two-pass text renderer [getStringAll], for the instantiation of the key
    type at [int].

    Nodes are owned through [unique_ptr], so the ownership structure is a
    tree and is modelled by an inductive type; every node carries its own
    address ([this_]) so that the non-owning [parent_] back-reference and the
    address-keyed offset map of the renderer can be modelled by address
    comparison.  Accesses that have no defined behaviour in C++ (an array
    index outside the array, the dereference of an empty [unique_ptr] or of
    a [parent_] that points to no node) end a run with a [Fault]. *)

From stdpp Require Import gmap strings list.
From Stdlib Require Import ZArith Lia DecimalString.

Local Open Scope Z_scope.

(** ** Outcomes of fallible code *)

Inductive fault : Type :=
| OutOfBounds        (* index outside a std::array *)
| NullDeref          (* operator-> on an empty unique_ptr, or find() == end() dereferenced *)
| DanglingPointer    (* a parent_ address that is not a node of the heap *)
| AssertionFailed    (* assert(...) evaluated to false *)
| Unspecified        (* behaviour that code outside the sources decides *)
| OutOfFuel.         (* the bound of a loop of the model was exceeded *)

Inductive outcome (A : Type) : Type :=
| Done (a : A)
| Fault (f : fault).
Arguments Done {A} a.
Arguments Fault {A} f.

Definition obind {A B} (m : outcome A) (k : A -> outcome B) : outcome B :=
  match m with
  | Done a => k a
  | Fault f => Fault f
  end.

Definition is_done {A} (o : outcome A) : bool :=
  match o with Done _ => true | Fault _ => false end.

(** ** The node *)

Definition addr := Z.

(** Modelled from the spec: the class declaration (header) is not among the
    sources; the spec fixes the capacities: "ordered keys (≤3), child
    ownership slots (≤4)". *)
Definition kMaxNumKeys : Z := 3.
Definition kMaxNumChildren : Z := 4.

(** [keys_] and [children_] are the two fixed-size arrays of the node (the
    list is the whole array, also the slots at and above [num_keys_]);
    [num_keys_] is an [int]; [None] is [nullptr]. *)
#[local] Unset Elimination Schemes.
Inductive Node : Type := mkNode {
  this_ : addr;
  parent_ : option addr;
  num_keys_ : Z;
  keys_ : list Z;
  children_ : list (option Node)
}.
#[local] Set Elimination Schemes.

(** [a[i]] on a std::array: defined only inside the array. *)
Definition index {A} (a : list A) (i : Z) : outcome A :=
  if 0 <=? i then
    match a !! Z.to_nat i with
    | Some x => Done x
    | None => Fault OutOfBounds
    end
  else Fault OutOfBounds.

(** All nodes of a tree, a node before its descendants. *)
Fixpoint nodes (n : Node) : list Node :=
  n :: concat (map (fun c => match c with Some m => nodes m | None => [] end)
                   (children_ n)).

Definition size (n : Node) : nat := length (nodes n).

(** The nodes that exist are the nodes of one tree, the heap.  A pointer to
    a node that is not owned through the path taken, such as [parent_], is
    dereferenced by looking its address up there. *)
Definition deref (heap : Node) (a : addr) : outcome Node :=
  match find (fun n => bool_decide (this_ n = a)) (nodes heap) with
  | Some n => Done n
  | None => Fault DanglingPointer
  end.

(** Modelled from the spec: [isLeaf] is declared in the header, which is not
    among the sources.  "If a leaf, it owns zero children." *)
Definition isLeaf (n : Node) : bool :=
  forallb (fun c => match c with None => true | Some _ => false end) (children_ n).

(** ** Labels: [Node::getString] *)

(** [ss << k] for an [int] key. *)
Definition show_key (k : Z) : string := NilZero.string_of_int (Z.to_int k).

(** [for (int i = lo; i < hi; i++)] visits these indices. *)
Definition range (lo hi : Z) : list Z := seqZ lo (hi - lo).

(** Lines 312-314: the keys between the first and the last. *)
Fixpoint getString_middle (keys : list Z) (idxs : list Z) (ss : string) : outcome string :=
  match idxs with
  | [] => Done ss
  | i :: idxs' =>
      obind (index keys i) (fun k =>
      getString_middle keys idxs' (ss +:+ ", " +:+ show_key k))
  end.

(** Lines 304-320. *)
Definition getString (n : Node) : outcome string :=
  if num_keys_ n =? 0 then Done "[]"
  else
    obind (index (keys_ n) 0) (fun k0 =>
    obind (getString_middle (keys_ n) (range 1 (num_keys_ n - 1)) ("[" +:+ show_key k0)) (fun ss =>
    if 1 <? num_keys_ n then
      obind (index (keys_ n) (num_keys_ n - 1)) (fun kl =>
      Done (ss +:+ ", " +:+ show_key kl +:+ "]"))
    else Done (ss +:+ "]"))).

(** The newline character, as a string. *)
Definition nl : string := String (Ascii.ascii_of_nat 10) "".

(** [s.length()] as a number. *)
Definition strlen (s : string) : Z := Z.of_nat (String.length s).

(** ** State with faults

    The loops of the source mutate local variables and containers; the model
    threads them through a state-and-fault monad.  The state survives a
    fault, so what a run did before it went wrong stays observable. *)

Definition ST (S A : Type) : Type := S -> S * outcome A.

Definition ret {S A} (a : A) : ST S A := fun s => (s, Done a).

Definition bind {S A B} (m : ST S A) (k : A -> ST S B) : ST S B :=
  fun s => match m s with
           | (s', Done a) => k a s'
           | (s', Fault f) => (s', Fault f)
           end.

Definition lift {S A} (o : outcome A) : ST S A := fun s => (s, o).

Definition modify {S} (f : S -> S) : ST S unit := fun s => (f s, Done tt).

Notation "x <- m ;; k" := (bind m (fun x => k))
  (at level 100, m at next level, right associativity).
Notation "m ;;; k" := (bind m (fun _ => k))
  (at level 100, right associativity).

(** [for (int i = lo; i < hi; i++) acc = body(i, acc)], over the indices of
    [range lo hi]. *)
Fixpoint for_each {S A} (idxs : list Z) (body : Z -> A -> ST S A) (acc : A) : ST S A :=
  match idxs with
  | [] => ret acc
  | i :: idxs' => acc' <- body i acc ;; for_each idxs' body acc'
  end.

(** ** The validator: [Node::validateRelationships] *)

(** What the validator writes to [std::cout], one constructor per output
    statement, with the data the statement prints; a null pointer is printed
    as "nullptr". *)
Inductive report : Type :=
| WrongParent (node : string)
| ParentShouldBe
| ParentIs
| Pointer (label : string)
| KeysOutOfOrder (left_key right_key : Z)
| LeftChildTooBig (child_key key : Z)
| RightChildTooSmall (child_key key : Z)
| ChildCountMismatch (node : string) (num_keys num_children : Z)
| ChildListed (child : string).

(** The variables of [validateRelationships]: the result [rc], the output
    written so far, the deque [allNodes] of (expected parent, node) pairs;
    [reads] records each access [n->keys_[i]] that the function itself makes
    in its conditions, in order, before it is made (a message reads the same
    elements again; the reads of [getString] are its own). *)
Record vstate : Type := mkV {
  rc : bool;
  cout : list report;
  allNodes : list (option Node * Node);
  reads : list (Node * Z)
}.

Definition set_rc_false : ST vstate unit :=
  modify (fun s => mkV false (cout s) (allNodes s) (reads s)).

Definition print (r : report) : ST vstate unit :=
  modify (fun s => mkV (rc s) (cout s ++ [r]) (allNodes s) (reads s)).

Definition push_back (p : option Node * Node) : ST vstate unit :=
  modify (fun s => mkV (rc s) (cout s) (allNodes s ++ [p]) (reads s)).

Definition read_key (n : Node) (i : Z) : ST vstate Z :=
  modify (fun s => mkV (rc s) (cout s) (allNodes s) (reads s ++ [(n, i)])) ;;;
  lift (index (keys_ n) i).

Definition read_child (n : Node) (i : Z) : ST vstate (option Node) :=
  lift (index (children_ n) i).

Definition when (b : bool) (m : ST vstate unit) : ST vstate unit :=
  if b then m else ret tt.

(** Lines 45-59: the parent back-reference against the expected parent.
    The message prints the label of the node (line 48), "parent should be: "
    (line 49) and the label of the expected parent (lines 50-53), "instead it
    is: " (line 54) and the label of the node that the stored [parent_]
    points to (lines 55-58): that pointer is dereferenced in the heap. *)
Definition check_parent (heap : Node) (check : option Node * Node) : ST vstate unit :=
  when (negb (bool_decide (this_ <$> check.1 = parent_ check.2)))
    (set_rc_false ;;;
     me <- lift (getString check.2) ;;
     print (WrongParent me) ;;;
     print ParentShouldBe ;;;
     expected <- match check.1 with
                 | None => ret "nullptr"
                 | Some p => lift (getString p)
                 end ;;
     print (Pointer expected) ;;;
     print ParentIs ;;;
     stored <- match parent_ check.2 with
               | None => ret "nullptr"
               | Some pa => q <- lift (deref heap pa) ;; lift (getString q)
               end ;;
     print (Pointer stored)).

(** Lines 61-68: adjacent keys.  The message prints the two keys and then
    [*this] through an [operator<<] that is not among the sources; the
    constructor keeps the two keys. *)
Definition check_sorted (node : Node) : ST vstate unit :=
  for_each (range 1 (num_keys_ node)) (fun i _ =>
    a <- read_key node (i - 1) ;;
    b <- read_key node i ;;
    when (a >? b) (set_rc_false ;;; print (KeysOutOfOrder a b))) tt.

(** Lines 75-88: the first [num_keys_] children; returns [num_children]. *)
Definition check_left_children (node : Node) : ST vstate Z :=
  for_each (range 0 (num_keys_ node)) (fun i num_children =>
    c <- read_child node i ;;
    match c with
    | Some child =>
        ck <- read_key child (num_keys_ child - 1) ;;
        k <- read_key node i ;;
        when (ck >? k) (set_rc_false ;;; print (LeftChildTooBig ck k)) ;;;
        push_back (Some node, child) ;;;
        ret (num_children + 1)
    | None => ret num_children
    end) 0.

(** Lines 89-99: the last child. *)
Definition check_last_child (node : Node) (num_children : Z) : ST vstate Z :=
  c <- read_child node (num_keys_ node) ;;
  match c with
  | Some child =>
      ck <- read_key child 0 ;;
      k <- read_key node (num_keys_ node - 1) ;;
      when (ck <? k) (set_rc_false ;;; print (RightChildTooSmall ck k)) ;;;
      push_back (Some node, child) ;;;
      ret (num_children + 1)
  | None => ret num_children
  end.

(** Lines 101-110: the number of children; the message lists the labels of
    [children_[0] .. children_[num_children-1]]. *)
Definition check_count (node : Node) (num_children : Z) : ST vstate unit :=
  when (negb (isLeaf node) && negb (num_children =? num_keys_ node + 1))
    (me <- lift (getString node) ;;
     print (ChildCountMismatch me (num_keys_ node) num_children) ;;;
     for_each (range 0 num_children) (fun i _ =>
       c <- read_child node i ;;
       match c with
       | Some child => l <- lift (getString child) ;; print (ChildListed l)
       | None => lift (Fault NullDeref)
       end) tt ;;;
     set_rc_false).

(** Lines 41-110: the body of the [while] loop, after the pop. *)
Definition validate_node (heap : Node) (check : option Node * Node) : ST vstate unit :=
  let node := check.2 in
  check_parent heap check ;;;
  check_sorted node ;;;
  num_children <- check_left_children node ;;
  num_children <- check_last_child node num_children ;;
  check_count node num_children.

(** Lines 40-111: the loop runs until the deque is empty; [fuel] bounds the
    number of its iterations. *)
Fixpoint validate_loop (heap : Node) (fuel : nat) : ST vstate unit :=
  fun s =>
    match allNodes s with
    | [] => (s, Done tt)
    | check :: rest =>
        match fuel with
        | O => (s, Fault OutOfFuel)
        | S fuel' =>
            (validate_node heap check ;;; validate_loop heap fuel')
              (mkV (rc s) (cout s) rest (reads s))
        end
    end.

(** Lines 32-113, for a node of the heap.  One iteration per node suffices
    ([validate_never_out_of_fuel] below): [size] is the number of nodes. *)
Definition validateRelationships (heap this : Node) : vstate * outcome bool :=
  (validate_loop heap (size this) ;;; fun s => (s, Done (rc s)))
    (mkV true [] [(None, this)] []).

(** Lines 23-26: [TwoFourTree::validate], for a tree whose [root_] is the
    given node; the tree is the heap. *)
Definition validate (root_ : Node) : outcome bool :=
  (validateRelationships root_ root_).2.

(** ** Building trees *)

(** A node with the given keys in its first slots and the given children. *)
Definition node (a : addr) (p : option addr) (ks : list Z) (cs : list (option Node)) : Node :=
  mkNode a p (Z.of_nat (length ks))
         (take (Z.to_nat kMaxNumKeys) (ks ++ [0; 0; 0]))
         (take (Z.to_nat kMaxNumChildren) (cs ++ [None; None; None; None])).

Definition leaf (a : addr) (p : option addr) (ks : list Z) : Node := node a p ks [].

(** ** The layout engine: [Node::getStringAll] *)

(** Conversions between the integer types of the source, for [int] and
    [unsigned int] of 32 bits and [size_t] of 64 bits. *)
Definition to_int (z : Z) : Z := (z + 2 ^ 31) mod 2 ^ 32 - 2 ^ 31.
Definition to_unsigned (z : Z) : Z := z mod 2 ^ 32.
Definition to_size_t (z : Z) : Z := z mod 2 ^ 64.

Record location : Type := mkLoc { begin_ : Z; end_ : Z }.

(** An element of the deque [nodes_to_be_printed]: the address of the local
    sentinel node [end_of_level], or of a node of the tree. *)
Inductive qitem : Type :=
| end_of_level
| ptr (n : Node).

(** What is written to the string stream: text, or text under a
    [std::setw(width)] with [std::right]. *)
Inductive chunk : Type :=
| Text (s : string)
| Field (width : Z) (s : string).

Fixpoint spaces (n : nat) : string :=
  match n with
  | O => ""
  | S n' => " " +:+ spaces n'
  end.

Definition chunk_str (c : chunk) : string :=
  match c with
  | Text s => s
  | Field w s => spaces (Z.to_nat (w - strlen s)) +:+ s
  end.

(** [ss.str()] *)
Definition str (ss : list chunk) : string :=
  fold_right (fun c acc => chunk_str c +:+ acc) "" ss.

Record rstate : Type := mkR {
  offsets : gmap addr location;
  nodes_to_be_printed : list qitem;
  current_offset : Z;
  ss : list chunk;
  cout_r : list string
}.

Definition set_offsets (f : gmap addr location -> gmap addr location) : ST rstate unit :=
  modify (fun s => mkR (f (offsets s)) (nodes_to_be_printed s) (current_offset s) (ss s) (cout_r s)).
Definition set_queue (f : list qitem -> list qitem) : ST rstate unit :=
  modify (fun s => mkR (offsets s) (f (nodes_to_be_printed s)) (current_offset s) (ss s) (cout_r s)).
Definition set_current_offset (z : Z) : ST rstate unit :=
  modify (fun s => mkR (offsets s) (nodes_to_be_printed s) z (ss s) (cout_r s)).
Definition put (c : chunk) : ST rstate unit :=
  modify (fun s => mkR (offsets s) (nodes_to_be_printed s) (current_offset s) (ss s ++ [c]) (cout_r s)).
Definition print_cout (m : string) : ST rstate unit :=
  modify (fun s => mkR (offsets s) (nodes_to_be_printed s) (current_offset s) (ss s) (cout_r s ++ [m])).
Definition gets {S A} (f : S -> A) : ST S A := fun s => (s, Done (f s)).

(** [offsets.emplace(node, l)]: no effect when the key is present. *)
Definition emplace (a : addr) (l : location) (m : gmap addr location) : gmap addr location :=
  match m !! a with
  | Some _ => m
  | None => <[a := l]> m
  end.

Section Heap.

(** The nodes that exist: the whole tree that the rendered node belongs to.
    A [parent_] address is dereferenced by looking it up here. *)
Variable heap : Node.

(** Modelled from the spec: [getMyChildIdx] is defined in the header, which
    is not among the sources.  It is the position of the node among its
    parent's children ("the leaf is its parent's first child", "it is its
    parent's last child"); what it does for a node that its parent does not
    own is not specified. *)
Definition getMyChildIdx (n : Node) : outcome Z :=
  match parent_ n with
  | None => Fault NullDeref
  | Some pa =>
      obind (deref heap pa) (fun p =>
      match list_find (fun c => bool_decide (this_ <$> c = Some (this_ n))) (children_ p) with
      | Some (i, _) => Done (Z.of_nat i)
      | None => Fault Unspecified
      end)
  end.

(** Lines 157-174.  The recursion follows [parent_]; [fuel] bounds its depth. *)
Fixpoint SetBeginLocation (fuel : nat) (node : Node) (begin : Z) : ST rstate unit :=
  match fuel with
  | O => lift (Fault OutOfFuel)
  | S fuel' =>
      offs <- gets offsets ;;
      match offs !! this_ node with
      | None => print_cout ("logic error" +:+ nl)
      | Some l =>
          set_offsets (insert (this_ node) (mkLoc begin (end_ l))) ;;;
          match parent_ node with
          | Some pa =>
              myidx <- lift (getMyChildIdx node) ;;
              if myidx =? 0 then
                p <- lift (deref heap pa) ;;
                SetBeginLocation fuel' p begin
              else ret tt
          | None => ret tt
          end
      end
  end.

(** Lines 176-196. *)
Fixpoint SetEndLocation (fuel : nat) (node : Node) (end' : Z) : ST rstate unit :=
  match fuel with
  | O => lift (Fault OutOfFuel)
  | S fuel' =>
      offs <- gets offsets ;;
      match offs !! this_ node with
      | None => print_cout ("logic error" +:+ nl)
      | Some l =>
          set_offsets (insert (this_ node) (mkLoc (begin_ l) end')) ;;;
          match parent_ node with
          | Some pa =>
              myidx <- lift (getMyChildIdx node) ;;
              p <- lift (deref heap pa) ;;
              if myidx =? num_keys_ p then
                let whitespace_width := end' - begin_ l in
                me <- lift (getString node) ;;
                let trailing_whitespace_width :=
                  to_size_t (to_size_t (Z.quot whitespace_width 2) - (strlen me + 1) / 2) in
                SetEndLocation fuel' p
                  (to_int (to_size_t (to_size_t end' - trailing_whitespace_width)))
              else ret tt
          | None => ret tt
          end
      end
  end.

(** Lines 237-241 and 292-295: the children of a node join the deque. *)
Definition push_children (node : Node) : ST rstate unit :=
  for_each (range 0 kMaxNumChildren) (fun i _ =>
    c <- lift (index (children_ node) i) ;;
    match c with
    | Some child => set_queue (fun q => q ++ [ptr child])
    | None => ret tt
    end) tt.

(** Lines 220-235: pass 1 at one node. *)
Definition measure_node (node : Node) : ST rstate unit :=
  if isLeaf node then
    start_offset <- gets current_offset ;;
    me <- lift (getString node) ;;
    set_current_offset (to_int (to_size_t (to_size_t start_offset + strlen me + 1))) ;;;
    current <- gets current_offset ;;
    set_offsets (emplace (this_ node) (mkLoc start_offset current)) ;;;
    SetBeginLocation (size heap) node start_offset ;;;
    SetEndLocation (size heap) node current
  else
    set_offsets (emplace (this_ node) (mkLoc 0 0)).

(** Lines 204-243: pass 1. *)
Fixpoint measure_loop (fuel : nat) : ST rstate unit :=
  fun s =>
    match nodes_to_be_printed s with
    | [] => (s, Done tt)
    | front :: rest =>
        match fuel with
        | O => (s, Fault OutOfFuel)
        | S fuel' =>
            (set_queue (fun _ => rest) ;;;
             match front with
             | end_of_level =>
                 set_queue (fun q => q ++ [end_of_level]) ;;;
                 set_current_offset 0 ;;;
                 q <- gets nodes_to_be_printed ;;
                 match q with
                 | end_of_level :: _ => ret tt
                 | _ => measure_loop fuel'
                 end
             | ptr node =>
                 measure_node node ;;;
                 push_children node ;;;
                 measure_loop fuel'
             end) s
        end
    end.

(** Lines 271-290: pass 2 at one node.  [current_offset] is advanced by
    [printed_length] and never read again; the sum is taken modulo 2^32. *)
Definition print_node (node : Node) : ST rstate unit :=
  printed_length <-
  (if isLeaf node then
     me <- lift (getString node) ;;
     put (Text me) ;;; put (Text " ") ;;;
     ret (to_int (to_size_t (strlen me + 1)))
   else
     me <- lift (getString node) ;;
     let str := me +:+ " " in
     let strlen := strlen str in
     offs <- gets offsets ;;
     match offs !! this_ node with
     | None => lift (Fault NullDeref)
     | Some l =>
         let given_length := to_unsigned (end_ l - begin_ l) in
         if given_length >? strlen then
           put (Field (to_int (given_length / 2 + strlen / 2)) str) ;;;
           put (Field (to_int (to_size_t (given_length / 2 - strlen / 2))) " ") ;;;
           ret (to_int given_length)
         else lift (Fault AssertionFailed)
     end) ;;
  current <- gets current_offset ;;
  set_current_offset (to_int (current + printed_length)).

(** Lines 258-297: pass 2. *)
Fixpoint print_loop (fuel : nat) : ST rstate unit :=
  fun s =>
    match nodes_to_be_printed s with
    | [] => (s, Done tt)
    | front :: rest =>
        match fuel with
        | O => (s, Fault OutOfFuel)
        | S fuel' =>
            (set_queue (fun _ => rest) ;;;
             match front with
             | end_of_level =>
                 put (Text nl) ;;;
                 set_queue (fun q => q ++ [end_of_level]) ;;;
                 q <- gets nodes_to_be_printed ;;
                 match q with
                 | end_of_level :: _ => ret tt
                 | _ => print_loop fuel'
                 end
             | ptr node =>
                 print_node node ;;;
                 push_children node ;;;
                 print_loop fuel'
             end) s
        end
    end.

(** Lines 198-243.  Every iteration pops a node or the sentinel;
    [2 * size this] iterations suffice. *)
Definition pass1 (this : Node) : ST rstate unit :=
  set_queue (fun q => q ++ [ptr this]) ;;;
  set_queue (fun q => q ++ [end_of_level]) ;;;
  measure_loop (2 * size this).

(** Lines 250-300. *)
Definition pass2 (this : Node) : ST rstate unit :=
  set_queue (fun _ => []) ;;;
  set_queue (fun q => q ++ [ptr this]) ;;;
  set_queue (fun q => q ++ [end_of_level]) ;;;
  set_current_offset 0 ;;;
  print_loop (2 * size this) ;;;
  put (Text nl).

Definition render (this : Node) : ST rstate unit :=
  pass1 this ;;; pass2 this.

(** Lines 137-302: the text, and the state in which the run ended. *)
Definition getStringAll (this : Node) : rstate * outcome string :=
  (render this ;;; s <- gets ss ;; ret (str s)) (mkR ∅ [] 0 [] []).

End Heap.

(** Lines 119-125: [TwoFourTree::getString]; the tree is rendered from its
    root. *)
Definition tree_getString (root_ : option Node) : outcome string :=
  match root_ with
  | Some r => (getStringAll r r).2
  | None => Done ""
  end.

(** ** The printing operations

    [std::cout] is the list of the strings written to it, in order. *)

(** Lines 132-135: [Node::printAll].  The text is written once
    [getStringAll] has returned it; what [getStringAll] wrote to [std::cout]
    itself ("logic error") comes before it. *)
Definition printAll (heap this : Node) : ST (list string) unit :=
  fun cout =>
    match getStringAll heap this with
    | (s, Done text) => (cout ++ cout_r s ++ [text], Done tt)
    | (s, Fault f) => (cout ++ cout_r s, Fault f)
    end.

(** Lines 127-130: [TwoFourTree::print]; [root_] is dereferenced without a
    test. *)
Definition tree_print (root_ : option Node) : ST (list string) unit :=
  match root_ with
  | Some r => printAll r r
  | None => lift (Fault NullDeref)
  end.

(** Lines 23-26: [TwoFourTree::validate] on a tree with or without a root;
    [root_] is dereferenced without a test. *)
Definition tree_validate (root_ : option Node) : outcome bool :=
  match root_ with
  | Some r => validate r
  | None => Fault NullDeref
  end.

(** Lines 322-326: [Node::print]. *)
Definition Node_print (this : Node) : ST (list string) unit :=
  me <- lift (getString this) ;;
  modify (fun cout => cout ++ [me; nl]).

(** Lines 359-361: [while (node->parent_) node = node->parent_;].  [fuel]
    bounds the number of steps. *)
Fixpoint climb (heap : Node) (fuel : nat) (node : Node) : outcome Node :=
  match parent_ node with
  | None => Done node
  | Some pa =>
      match fuel with
      | O => Fault OutOfFuel
      | S fuel' => obind (deref heap pa) (climb heap fuel')
      end
  end.

(** Lines 355-363: [Node::tryPrintAllFromParent].  A chain of parents inside
    the heap that ends has fewer steps than the heap has nodes. *)
Definition tryPrintAllFromParent (heap this : Node) (verbosity : Z) : ST (list string) unit :=
  if verbosity <? 1 then ret tt
  else
    node <- lift (climb heap (size heap) this) ;;
    printAll heap node.

(** ** The iterator's debug text *)

(** Modelled from the spec: the class declaration of the iterator is not
    among the sources; it is a "cursor (node reference + in-node slot
    index)".  The source compares [node_] with [nullptr] and [idx_] with
    [num_keys_] and with [-1]. *)
Record const_iterator : Type := mkIt {
  node_ : option Node;
  idx_ : Z
}.

(** Lines 333-350: [const_iterator::getString]. *)
Definition it_getString (it : const_iterator) : outcome string :=
  let ss := "it: " in
  match node_ it with
  | None => Done (ss +:+ "nullptr, idx = " +:+ show_key (idx_ it))
  | Some n =>
      if idx_ it =? num_keys_ n then
        obind (getString n) (fun me =>
        Done (ss +:+ "after end iterator (node:" +:+ me +:+ "), idx = " +:+ show_key (idx_ it)))
      else if idx_ it =? -1 then
        obind (getString n) (fun me =>
        Done (ss +:+ "before beginning iterator (node:" +:+ me +:+ "), idx = "
                 +:+ show_key (idx_ it)))
      else
        obind (getString n) (fun me =>
        Done (ss +:+ "n:" +:+ me +:+ " idx_:" +:+ show_key (idx_ it)))
  end.

(** Lines 328-331: [const_iterator::print]. *)
Definition it_print (it : const_iterator) : ST (list string) unit :=
  me <- lift (it_getString it) ;;
  modify (fun cout => cout ++ [me; nl]).

(** * Properties *)

(** ** Labels *)

(** The label as the specification words it: the keys in stored order,
    separated by a comma and a space, in square brackets. *)
Definition label_spec (n : Node) : string :=
  "[" +:+ String.concat ", " (show_key <$> take (Z.to_nat (num_keys_ n)) (keys_ n)) +:+ "]".

(** The keys of a node hold its count: the count is not negative and does
    not exceed the array. *)
Definition label_ok (n : Node) : Prop :=
  0 <= num_keys_ n <= Z.of_nat (length (keys_ n)).

Definition key_at (keys : list Z) (i : Z) : Z := default 0 (keys !! Z.to_nat i).

Lemma append_assoc (a b c : string) : (a +:+ b) +:+ c = a +:+ (b +:+ c).
Proof.
  induction a as [|x a IH]; [reflexivity|].
  change (String x ((a +:+ b) +:+ c) = String x (a +:+ (b +:+ c))).
  by rewrite IH.
Qed.

Lemma append_nil_r (a : string) : a +:+ "" = a.
Proof.
  induction a as [|x a IH]; [reflexivity|].
  change (String x (a +:+ "") = String x a).
  by rewrite IH.
Qed.

Lemma index_in_range {A} (a : list A) (i : Z) :
  0 <= i < Z.of_nat (length a) -> exists x, index a i = Done x /\ a !! Z.to_nat i = Some x.
Proof.
  intros Hi. unfold index.
  destruct (Z.leb_spec 0 i); [|lia].
  destruct (lookup_lt_is_Some_2 a (Z.to_nat i)) as [x Hx]; [lia|].
  rewrite Hx. eauto.
Qed.

Lemma index_key (keys : list Z) (i : Z) :
  0 <= i < Z.of_nat (length keys) -> index keys i = Done (key_at keys i).
Proof.
  intros Hi. destruct (index_in_range keys i Hi) as (x & -> & Hx).
  unfold key_at. by rewrite Hx.
Qed.

Definition tail_str (l : list string) : string :=
  fold_right (fun s acc => ", " +:+ s +:+ acc) "" l.

Lemma foldr_tail_app (l : list string) (init rest : string) :
  fold_right (fun s acc => ", " +:+ s +:+ acc) init l +:+ rest
  = fold_right (fun s acc => ", " +:+ s +:+ acc) (init +:+ rest) l.
Proof.
  induction l as [|x l IH]; [reflexivity|].
  cbn [fold_right]. by rewrite !append_assoc, IH.
Qed.

Lemma concat_tail_str (x : string) (l : list string) :
  String.concat ", " (x :: l) = x +:+ tail_str l.
Proof.
  revert x. induction l as [|y l IH]; intros x.
  - simpl. by rewrite append_nil_r.
  - change (String.concat ", " (x :: y :: l)) with (x +:+ ", " +:+ String.concat ", " (y :: l)).
    rewrite IH. reflexivity.
Qed.

Lemma getString_middle_spec (keys : list Z) (idxs : list Z) (ss : string) :
  Forall (fun i => 0 <= i < Z.of_nat (length keys)) idxs ->
  getString_middle keys idxs ss
  = Done (ss +:+ tail_str ((fun i => show_key (key_at keys i)) <$> idxs)).
Proof.
  revert ss. induction idxs as [|i idxs IH]; intros ss Hall.
  - simpl. by rewrite append_nil_r.
  - inversion Hall as [|? ? Hi Hrest]; subst.
    simpl. rewrite (index_key keys i Hi). simpl.
    rewrite IH by assumption. f_equal.
    by rewrite !append_assoc.
Qed.

Lemma take_keys (keys : list Z) (m : Z) :
  0 <= m <= Z.of_nat (length keys) ->
  take (Z.to_nat m) keys = key_at keys <$> seqZ 0 m.
Proof.
  intros Hm. apply list_eq. intros i.
  rewrite list_lookup_fmap.
  destruct (decide (Z.of_nat i < m)) as [Hlt|Hge].
  - rewrite lookup_take_lt by lia.
    rewrite lookup_seqZ_lt by lia. simpl.
    unfold key_at. rewrite Z.add_0_l, Nat2Z.id.
    destruct (lookup_lt_is_Some_2 keys i) as [x Hx]; [lia|]. by rewrite Hx.
  - rewrite lookup_take_ge by lia.
    by rewrite lookup_seqZ_ge by lia.
Qed.

Lemma getString_label (n : Node) : label_ok n -> getString n = Done (label_spec n).
Proof.
  unfold label_ok, getString, label_spec. intros Hn.
  destruct (Z.eqb_spec (num_keys_ n) 0) as [H0|H0].
  - rewrite H0. reflexivity.
  - rewrite (index_key (keys_ n) 0) by lia. simpl.
    rewrite getString_middle_spec
      by (unfold range; apply Forall_seqZ; intros; lia).
    simpl.
    rewrite (take_keys (keys_ n) (num_keys_ n)) by lia.
    rewrite (seqZ_cons 0) by lia. rewrite fmap_cons, fmap_cons, concat_tail_str.
    destruct (Z.ltb_spec 1 (num_keys_ n)) as [H1|H1].
    + rewrite (index_key (keys_ n) (num_keys_ n - 1)) by lia. simpl. f_equal.
      replace (Z.pred (num_keys_ n)) with ((num_keys_ n - 1 - 1) + 1) by lia.
      rewrite seqZ_app by lia.
      rewrite (seqZ_cons _ 1) by lia. rewrite (seqZ_nil _ (Z.pred 1)) by lia.
      rewrite !fmap_app. unfold range, tail_str.
      rewrite fold_right_app. simpl.
      replace (Z.succ 0 + (num_keys_ n - 1 - 1)) with (num_keys_ n - 1) by lia.
      rewrite <- list_fmap_compose.
      change (Z.succ 0) with 1.
      rewrite !append_assoc, !foldr_tail_app, !append_assoc.
      reflexivity.
    + replace (num_keys_ n) with 1 by lia.
      unfold range. rewrite !seqZ_nil by lia.
      cbn [fmap list_fmap tail_str fold_right].
      by rewrite !append_assoc.
Qed.

(** C6.  The label of a node is its keys in stored order, separated by ", ",
    in square brackets; the label of a node with no key is "[]". *)
Theorem getString_format (n : Node) :
  label_ok n ->
  getString n = Done (label_spec n) /\
  (num_keys_ n = 0 -> getString n = Done "[]").
Proof.
  intros Hn. split.
  - by apply getString_label.
  - intros H0. unfold getString. by rewrite H0.
Qed.

Lemma getString_format_witness :
  getString (mkNode 100 None 3 [10; 20; 30] [None; None; None; None])
  = Done "[10, 20, 30]"
  /\ (3 = 0 -> getString (mkNode 100 None 3 [10; 20; 30] [None; None; None; None]) = Done "[]").
Proof.
  apply (getString_format (mkNode 100 None 3 [10; 20; 30] [None; None; None; None])).
  unfold label_ok. cbn. lia.
Defined.

(** ** The validator: what one visit checks *)

Definition key (n : Node) (i : Z) : Z := key_at (keys_ n) i.

(** [children_[i]] when it holds a node. *)
Definition child (n : Node) (i : Z) : option Node :=
  mjoin (children_ n !! Z.to_nat i).

(** The pairs (expected parent, node) that the walk reaches from a pair: the
    children in the slots [0 .. num_keys_] are the ones that join the deque. *)
Fixpoint walk (p : option Node) (n : Node) : list (option Node * Node) :=
  (p, n) ::
  (fix go (k : nat) (cs : list (option Node)) {struct cs} : list (option Node * Node) :=
     match cs, k with
     | c :: cs', S k' =>
         match c with
         | Some m => walk (Some n) m
         | None => []
         end ++ go k' cs'
     | _, _ => []
     end) (Z.to_nat (num_keys_ n + 1)) (children_ n).

(** The nodes in the slots [0 .. num_keys_], in slot order. *)
Definition checked_children (n : Node) : list Node :=
  omap id (take (Z.to_nat (num_keys_ n + 1)) (children_ n)).

Definition pushes (n : Node) : list (option Node * Node) :=
  pair (Some n) <$> checked_children n.

Definition walk_all (q : list (option Node * Node)) : list (option Node * Node) :=
  concat ((fun c => walk c.1 c.2) <$> q).

Lemma walk_unfold (p : option Node) (n : Node) :
  walk p n = (p, n) :: walk_all (pushes n).
Proof.
  destruct n as [a pa nk ks cs]. unfold pushes, checked_children, walk_all.
  cbn [walk num_keys_ children_]. f_equal.
  generalize (mkNode a pa nk ks cs). intros n0.
  generalize (Z.to_nat (nk + 1)). intros k. revert k.
  induction cs as [|c cs IH]; intros [|k]; try reflexivity.
  cbn [take omap]. destruct c as [m|]; cbn [id fmap list_fmap concat fst snd].
  - by rewrite IH.
  - by rewrite IH.
Qed.

Definition parent_ok (check : option Node * Node) : bool :=
  bool_decide (this_ <$> check.1 = parent_ check.2).

Definition sorted_ok (n : Node) : bool :=
  forallb (fun i => negb (key n (i - 1) >? key n i)) (range 1 (num_keys_ n)).

Definition left_ok (n : Node) (i : Z) : bool :=
  match child n i with
  | Some c => negb (key c (num_keys_ c - 1) >? key n i)
  | None => true
  end.

Definition lefts_ok (n : Node) : bool := forallb (left_ok n) (range 0 (num_keys_ n)).

Definition last_ok (n : Node) : bool :=
  match child n (num_keys_ n) with
  | Some c => negb (key c 0 <? key n (num_keys_ n - 1))
  | None => true
  end.

Definition count_ok (n : Node) : bool :=
  isLeaf n || (Z.of_nat (length (checked_children n)) =? num_keys_ n + 1).

(** No message is printed for the pair. *)
Definition node_ok (check : option Node * Node) : bool :=
  parent_ok check && sorted_ok check.2 && lefts_ok check.2 && last_ok check.2
  && count_ok check.2.

(** ** The validator: trees on which every access is defined

    A sufficient condition, local to each visited node: the count fits the
    two arrays, every child in a checked slot holds a key, a node with no key
    has no child in slot 0, the children in the checked slots come first
    (the count message dereferences [children_[0 .. num_children-1]]), and
    a stored [parent_] that differs from the expected parent is null or the
    address of a node of the tree whose label is defined (the message of the
    parent check dereferences it). *)

Definition label_okb (n : Node) : bool :=
  (0 <=? num_keys_ n) && (num_keys_ n <=? Z.of_nat (length (keys_ n))).

Fixpoint packed (cs : list (option Node)) : bool :=
  match cs with
  | [] => true
  | Some _ :: cs' => packed cs'
  | None :: cs' => forallb (fun c => bool_decide (c = None)) cs'
  end.

Definition safe_node (n : Node) : bool :=
  label_okb n
  && (num_keys_ n <? Z.of_nat (length (children_ n)))
  && forallb (fun c => (1 <=? num_keys_ c) && label_okb c) (checked_children n)
  && match child n (num_keys_ n) with
     | Some _ => 1 <=? num_keys_ n
     | None => true
     end
  && packed (take (Z.to_nat (num_keys_ n + 1)) (children_ n)).

(** The stored [parent_] can be printed: it is null, or it points to a node
    of the heap whose label is defined. *)
Definition stored_okb (heap n : Node) : bool :=
  match parent_ n with
  | None => true
  | Some pa =>
      match deref heap pa with
      | Done q => label_okb q
      | Fault _ => false
      end
  end.

Definition safe_pair (heap : Node) (check : option Node * Node) : bool :=
  safe_node check.2
  && match check.1 with
     | Some p => label_okb p
     | None => true
     end
  && (parent_ok check || stored_okb heap check.2).

Definition safe (t : Node) : Prop := forallb (safe_pair t) (walk None t) = true.

(** ** Reasoning about runs *)

Lemma bind_done {S A B} (m : ST S A) (k : A -> ST S B) (s s' : S) (a : A) :
  m s = (s', Done a) -> bind m k s = k a s'.
Proof. intros H. unfold bind. by rewrite H. Qed.

Lemma bind_inv {S A B} (m : ST S A) (k : A -> ST S B) (s s' : S) (b : B) :
  bind m k s = (s', Done b) -> exists a s1, m s = (s1, Done a) /\ k a s1 = (s', Done b).
Proof.
  unfold bind. destruct (m s) as [s1 [a|f]]; [|discriminate]. intros H. by exists a, s1.
Qed.

(** A step of the validator that ends normally: [rc] is lowered exactly when
    the check [b] fails, [pushed] joins the deque, and a message is printed
    exactly when the check fails. *)
Definition advances (b : bool) (pushed : list (option Node * Node)) (s s' : vstate) : Prop :=
  rc s' = rc s && b /\
  allNodes s' = allNodes s ++ pushed /\
  exists msgs, cout s' = cout s ++ msgs /\ (msgs = [] <-> b = true).

Lemma advances_refl (s : vstate) : advances true [] s s.
Proof.
  repeat split.
  - by rewrite andb_true_r.
  - by rewrite app_nil_r.
  - exists []. by rewrite app_nil_r.
Qed.

Lemma advances_trans (b1 b2 : bool) (p1 p2 : list (option Node * Node)) (s1 s2 s3 : vstate) :
  advances b1 p1 s1 s2 -> advances b2 p2 s2 s3 -> advances (b1 && b2) (p1 ++ p2) s1 s3.
Proof.
  intros (Hrc1 & Hq1 & m1 & Hc1 & Hm1) (Hrc2 & Hq2 & m2 & Hc2 & Hm2).
  repeat split.
  - by rewrite Hrc2, Hrc1, andb_assoc.
  - by rewrite Hq2, Hq1, app_assoc.
  - exists (m1 ++ m2). split.
    + by rewrite Hc2, Hc1, app_assoc.
    + rewrite andb_true_iff, <- Hm1, <- Hm2. split.
      * intros H. by apply app_eq_nil in H.
      * intros [-> ->]. reflexivity.
Qed.

Lemma advances_eq (b b' : bool) (p p' : list (option Node * Node)) (s s' : vstate) :
  advances b p s s' -> b = b' -> p = p' -> advances b' p' s s'.
Proof. by intros H <- <-. Qed.

Lemma for_each_advances {A} (idxs : list Z) (body : Z -> A -> ST vstate A)
    (f : Z -> bool) (g : Z -> list (option Node * Node)) (h : Z -> A -> A) :
  (forall i acc s, i ∈ idxs ->
     exists s', body i acc s = (s', Done (h i acc)) /\ advances (f i) (g i) s s') ->
  forall acc s,
    exists s', for_each idxs body acc s = (s', Done (foldl (fun a i => h i a) acc idxs))
               /\ advances (forallb f idxs) (concat (g <$> idxs)) s s'.
Proof.
  induction idxs as [|i idxs IH]; intros Hbody acc s.
  - exists s. split; [reflexivity | apply advances_refl].
  - destruct (Hbody i acc s) as (s1 & Hrun & Hadv); [by left|].
    destruct (IH (fun j a t Hj => Hbody j a t (list_elem_of_further _ _ _ Hj)) (h i acc) s1)
      as (s2 & Hrun2 & Hadv2).
    exists s2. split.
    + cbn [for_each]. rewrite (bind_done _ _ _ _ _ Hrun). exact Hrun2.
    + cbn [forallb fmap list_fmap concat]. by eapply advances_trans.
Qed.

(** The message of a failed check: [rc = false] and one line of output. *)
Lemma complain_advances (b : bool) (r : report) (s : vstate) :
  exists s', when b (set_rc_false ;;; print r) s = (s', Done tt)
             /\ advances (negb b) [] s s'.
Proof.
  destruct b; cbn.
  - eexists. split; [reflexivity|]. repeat split; cbn.
    + by rewrite andb_false_r.
    + by rewrite app_nil_r.
    + exists [r]. split; [reflexivity|]. split; discriminate.
  - exists s. split; [reflexivity | apply advances_refl].
Qed.

Lemma read_key_run (n : Node) (i : Z) (s : vstate) :
  0 <= i < Z.of_nat (length (keys_ n)) ->
  read_key n i s = (mkV (rc s) (cout s) (allNodes s) (reads s ++ [(n, i)]), Done (key n i)).
Proof. intros Hi. unfold read_key, bind, modify, lift. by rewrite index_key. Qed.

Lemma push_back_advances (p : option Node * Node) (s : vstate) :
  exists s', push_back p s = (s', Done tt) /\ advances true [p] s s'.
Proof.
  eexists. split; [reflexivity|]. repeat split; cbn.
  - by rewrite andb_true_r.
  - exists []. by rewrite app_nil_r.
Qed.

(** *** The five checks of a visit *)

Lemma label_okb_spec (n : Node) : label_okb n = true <-> label_ok n.
Proof. unfold label_okb, label_ok. rewrite andb_true_iff. lia. Qed.

Lemma check_parent_spec (heap : Node) (check : option Node * Node) (s : vstate) :
  label_ok check.2 ->
  (forall p, check.1 = Some p -> label_ok p) ->
  parent_ok check || stored_okb heap check.2 = true ->
  exists s', check_parent heap check s = (s', Done tt)
             /\ advances (parent_ok check) [] s s'.
Proof.
  intros Hme Hp Hst. unfold check_parent. unfold parent_ok in *.
  destruct (bool_decide (this_ <$> check.1 = parent_ check.2)); cbn [negb when].
  - exists s. split; [reflexivity | apply advances_refl].
  - cbn [orb] in Hst. unfold stored_okb in Hst.
    assert (exists stored,
              forall s1 : vstate,
                match parent_ check.2 with
                | None => ret "nullptr"
                | Some pa => q <- lift (deref heap pa) ;; lift (getString q)
                end s1 = (s1, Done stored)) as [stored Hstored].
    { destruct (parent_ check.2) as [pa|]; [|by exists "nullptr"].
      destruct (deref heap pa) as [q|f]; [|discriminate].
      apply label_okb_spec in Hst. exists (label_spec q). intros s1.
      unfold bind, lift. by rewrite (getString_label q Hst). }
    assert (exists expected,
              forall s1 : vstate,
                match check.1 with
                | None => ret "nullptr"
                | Some p => lift (getString p)
                end s1 = (s1, Done expected)) as [expected Hexpected].
    { destruct check.1 as [p|]; [|by exists "nullptr"].
      exists (label_spec p). intros s1. unfold lift.
      by rewrite (getString_label p (Hp p eq_refl)). }
    unfold bind at 1, set_rc_false at 1, modify at 1.
    unfold bind at 1, lift at 1. rewrite (getString_label check.2 Hme).
    unfold bind at 1, print at 1, modify at 1.
    unfold bind at 1, print at 1, modify at 1.
    unfold bind at 1. rewrite Hexpected.
    unfold bind at 1, print at 1, modify at 1.
    unfold bind at 1, print at 1, modify at 1.
    unfold bind at 1. rewrite Hstored.
    unfold print, modify. cbn [rc cout allNodes reads].
    eexists. split; [reflexivity|]. repeat split; cbn.
    + by rewrite andb_false_r.
    + by rewrite app_nil_r.
    + eexists. split; [by rewrite <- !app_assoc|]. split; discriminate.
Qed.

Lemma check_sorted_spec (n : Node) (s : vstate) :
  label_ok n ->
  exists s', check_sorted n s = (s', Done tt) /\ advances (sorted_ok n) [] s s'.
Proof.
  intros Hn. unfold check_sorted, sorted_ok.
  destruct (for_each_advances (range 1 (num_keys_ n))
    (fun i (_ : unit) =>
       a <- read_key n (i - 1) ;;
       b <- read_key n i ;;
       when (a >? b) (set_rc_false ;;; print (KeysOutOfOrder a b)))
    (fun i => negb (key n (i - 1) >? key n i)) (fun _ => []) (fun _ a => a)) with (acc := tt) (s := s)
    as (s' & Hrun & Hadv).
  - intros i [] s0 Hi. unfold range in Hi. apply elem_of_seqZ in Hi.
    unfold label_ok in Hn.
    rewrite (bind_done _ _ _ _ _ (read_key_run n (i - 1) s0 ltac:(lia))).
    rewrite (bind_done _ _ _ _ _ (read_key_run n i _ ltac:(lia))).
    destruct (complain_advances (key n (i - 1) >? key n i)
                (KeysOutOfOrder (key n (i - 1)) (key n i))
                (mkV (rc s0) (cout s0) (allNodes s0) ((reads s0 ++ [(n, i - 1)]) ++ [(n, i)])))
      as (s1 & Hrun & Hadv).
    exists s1. split; [exact Hrun | exact Hadv].
  - exists s'. split.
    + rewrite Hrun. f_equal. f_equal. by destruct (foldl _ _ _).
    + eapply advances_eq; [exact Hadv | reflexivity |].
      generalize (range 1 (num_keys_ n)). intros l. induction l; [reflexivity | assumption].
Qed.

(** The slots of a node, one by one. *)
Definition slot_pushes (n : Node) (i : Z) : list (option Node * Node) :=
  match child n i with
  | Some c => [(Some n, c)]
  | None => []
  end.

Lemma omap_take_slots {A} (cs : list (option A)) (k : nat) :
  (k <= length cs)%nat ->
  omap id (take k cs)
  = concat ((fun i => match mjoin (cs !! i) with Some c => [c] | None => [] end) <$> seq 0 k).
Proof.
  induction k as [|k IH]; intros Hk; [reflexivity|].
  destruct (lookup_lt_is_Some_2 cs k) as [c Hc]; [lia|].
  rewrite (take_S_r _ _ _ Hc), omap_app, IH by lia.
  rewrite seq_S, fmap_app, concat_app. f_equal.
  cbn [fmap list_fmap concat plus]. rewrite Hc. by destruct c.
Qed.

Lemma seqZ_seq (k : nat) : seqZ 0 (Z.of_nat k) = Z.of_nat <$> seq 0 k.
Proof.
  unfold seqZ. rewrite Nat2Z.id. apply list_fmap_ext. intros; lia.
Qed.

Lemma pushes_slots (n : Node) :
  0 <= num_keys_ n < Z.of_nat (length (children_ n)) ->
  pushes n = concat (slot_pushes n <$> range 0 (num_keys_ n + 1)).
Proof.
  intros Hn. unfold pushes, checked_children, range.
  rewrite omap_take_slots by lia.
  replace (num_keys_ n + 1 - 0) with (Z.of_nat (Z.to_nat (num_keys_ n + 1))) by lia.
  rewrite seqZ_seq. generalize (seq 0 (Z.to_nat (num_keys_ n + 1))). intros l.
  induction l as [|i l IH]; [reflexivity|].
  cbn [fmap list_fmap concat]. rewrite fmap_app, IH. f_equal.
  unfold slot_pushes, child. rewrite Nat2Z.id. by destruct (mjoin _).
Qed.

Lemma range_snoc (hi : Z) : 0 <= hi -> range 0 (hi + 1) = range 0 hi ++ [hi].
Proof.
  intros H. unfold range. rewrite !Z.sub_0_r, seqZ_app by lia.
  rewrite (seqZ_cons _ 1) by lia. rewrite (seqZ_nil _ (Z.pred 1)) by lia.
  by rewrite Z.add_0_l.
Qed.

Lemma child_checked (n : Node) (i : Z) (c : Node) :
  0 <= i <= num_keys_ n -> child n i = Some c -> c ∈ checked_children n.
Proof.
  intros Hi Hc. unfold child in Hc. unfold checked_children.
  destruct (children_ n !! Z.to_nat i) as [[c'|]|] eqn:E; try discriminate.
  cbn in Hc. injection Hc as ->.
  apply list_elem_of_omap. exists (Some c). split; [|reflexivity].
  apply list_elem_of_lookup. exists (Z.to_nat i).
  rewrite lookup_take_lt by lia. exact E.
Qed.

Record safe_facts (n : Node) : Prop := {
  sf_label : label_ok n;
  sf_slots : num_keys_ n < Z.of_nat (length (children_ n));
  sf_child : forall c, c ∈ checked_children n -> 1 <= num_keys_ c /\ label_ok c;
  sf_last : forall c, child n (num_keys_ n) = Some c -> 1 <= num_keys_ n;
  sf_packed : packed (take (Z.to_nat (num_keys_ n + 1)) (children_ n)) = true
}.


Lemma safe_node_facts (n : Node) : safe_node n = true -> safe_facts n.
Proof.
  unfold safe_node. rewrite !andb_true_iff. intros ((((Hl & Hs) & Hc) & Hlast) & Hp).
  split.
  - by apply label_okb_spec.
  - lia.
  - intros c Hin. rewrite forallb_forall in Hc.
    specialize (Hc c (proj1 (list_elem_of_In _ _) Hin)).
    apply andb_true_iff in Hc as [H1 H2]. apply label_okb_spec in H2. split; [lia | done].
  - intros c Hch. rewrite Hch in Hlast. lia.
  - exact Hp.
Qed.

Lemma read_child_run (n : Node) (i : Z) (s : vstate) :
  0 <= i < Z.of_nat (length (children_ n)) ->
  exists c, read_child n i s = (s, Done c) /\ child n i = mjoin (Some c).
Proof.
  intros Hi. destruct (index_in_range (children_ n) i Hi) as (c & Hrun & Hc).
  exists c. unfold read_child, lift, child. by rewrite Hrun, Hc.
Qed.

Lemma count_slots (n : Node) (idxs : list Z) (acc : Z) :
  foldl (fun a i => match child n i with Some _ => a + 1 | None => a end) acc idxs
  = acc + Z.of_nat (length (concat (slot_pushes n <$> idxs))).
Proof.
  revert acc. induction idxs as [|i idxs IH]; intros acc; cbn [foldl fmap list_fmap concat].
  - cbn. lia.
  - rewrite IH, length_app. unfold slot_pushes. destruct (child n i); cbn [length]; lia.
Qed.

Lemma check_left_children_spec (n : Node) (s : vstate) :
  safe_facts n ->
  exists s',
    check_left_children n s
    = (s', Done (Z.of_nat (length (concat (slot_pushes n <$> range 0 (num_keys_ n))))))
    /\ advances (lefts_ok n) (concat (slot_pushes n <$> range 0 (num_keys_ n))) s s'.
Proof.
  intros Hn. unfold check_left_children, lefts_ok.
  pose proof (sf_label n Hn) as Hl. unfold label_ok in Hl. pose proof (sf_slots n Hn) as Hs.
  destruct (for_each_advances (range 0 (num_keys_ n))
    (fun i num_children =>
       c <- read_child n i ;;
       match c with
       | Some child =>
           ck <- read_key child (num_keys_ child - 1) ;;
           k <- read_key n i ;;
           when (ck >? k) (set_rc_false ;;; print (LeftChildTooBig ck k)) ;;;
           push_back (Some n, child) ;;;
           ret (num_children + 1)
       | None => ret num_children
       end)
    (left_ok n) (slot_pushes n)
    (fun i a => match child n i with Some _ => a + 1 | None => a end)) with (acc := 0) (s := s)
    as (s' & Hrun & Hadv).
  - intros i acc s0 Hi. unfold range in Hi. apply elem_of_seqZ in Hi.
    destruct (read_child_run n i s0 ltac:(lia)) as (c & Hrc & Hc).
    rewrite (bind_done _ _ _ _ _ Hrc). unfold left_ok, slot_pushes. rewrite Hc.
    destruct c as [c|]; cbn [mjoin option_join mbind option_bind id].
    + destruct (sf_child n Hn c) as [Hck Hcl].
      { apply (child_checked n i); [lia | by rewrite Hc]. }
      unfold label_ok in Hcl.
      rewrite (bind_done _ _ _ _ _ (read_key_run c (num_keys_ c - 1) s0 ltac:(lia))).
      rewrite (bind_done _ _ _ _ _ (read_key_run n i _ ltac:(lia))).
      match goal with |- context [when ?b (_ ;;; print ?r)] =>
        match goal with |- context [bind _ _ ?t] =>
          destruct (complain_advances b r t) as (s1 & Hrun1 & Hadv1) end end.
      rewrite (bind_done _ _ _ _ _ Hrun1).
      destruct (push_back_advances (Some n, c) s1) as (s2 & Hrun2 & Hadv2).
      rewrite (bind_done _ _ _ _ _ Hrun2).
      exists s2. split; [reflexivity|].
      eapply advances_eq; [exact (advances_trans _ _ _ _ _ _ _ Hadv1 Hadv2) | by rewrite andb_true_r | reflexivity].
    + exists s0. split; [reflexivity | apply advances_refl].
  - exists s'. split; [|exact Hadv].
    rewrite Hrun. do 2 f_equal. rewrite count_slots. lia.
Qed.

Lemma check_last_child_spec (n : Node) (cnt : Z) (s : vstate) :
  safe_facts n ->
  exists s',
    check_last_child n cnt s
    = (s', Done (cnt + Z.of_nat (length (slot_pushes n (num_keys_ n)))))
    /\ advances (last_ok n) (slot_pushes n (num_keys_ n)) s s'.
Proof.
  intros Hn. unfold check_last_child, last_ok, slot_pushes.
  pose proof (sf_label n Hn) as Hl. unfold label_ok in Hl. pose proof (sf_slots n Hn) as Hs.
  destruct (read_child_run n (num_keys_ n) s ltac:(lia)) as (c & Hrc & Hc).
  rewrite (bind_done _ _ _ _ _ Hrc). rewrite Hc.
  destruct c as [c|]; cbn [mjoin option_join mbind option_bind id].
  - destruct (sf_child n Hn c) as [Hck Hcl].
    { apply (child_checked n (num_keys_ n)); [lia | by rewrite Hc]. }
    unfold label_ok in Hcl.
    pose proof (sf_last n Hn c ltac:(by rewrite Hc)) as Hone.
    rewrite (bind_done _ _ _ _ _ (read_key_run c 0 s ltac:(lia))).
    rewrite (bind_done _ _ _ _ _ (read_key_run n (num_keys_ n - 1) _ ltac:(lia))).
    match goal with |- context [when ?b (_ ;;; print ?r)] =>
      match goal with |- context [bind _ _ ?t] =>
        destruct (complain_advances b r t) as (s1 & Hrun1 & Hadv1) end end.
    rewrite (bind_done _ _ _ _ _ Hrun1).
    destruct (push_back_advances (Some n, c) s1) as (s2 & Hrun2 & Hadv2).
    rewrite (bind_done _ _ _ _ _ Hrun2).
    exists s2. split; [reflexivity|].
    eapply advances_eq; [exact (advances_trans _ _ _ _ _ _ _ Hadv1 Hadv2) | by rewrite andb_true_r | reflexivity].
  - exists s. split; [|apply advances_refl].
    unfold ret. cbn [length]. by rewrite Z.add_0_r.
Qed.

Lemma packed_prefix (cs : list (option Node)) (i : nat) :
  packed cs = true -> (i < length (omap id cs))%nat ->
  exists c, cs !! i = Some (Some c) /\ c ∈ omap id cs.
Proof.
  revert i. induction cs as [|[c|] cs IH]; intros i Hp Hi; cbn in Hp, Hi |- *.
  - lia.
  - destruct i as [|i].
    + exists c. split; [reflexivity | by left].
    + destruct (IH i Hp ltac:(cbn in Hi; lia)) as (c' & Hc' & Hin).
      exists c'. split; [exact Hc' | by right].
  - exfalso.
    assert (omap id cs = []) as E.
    { clear -Hp. induction cs as [|c cs IH]; [reflexivity|].
      cbn [forallb] in Hp. apply andb_true_iff in Hp as [H1 H2].
      apply bool_decide_eq_true in H1. subst c. cbn. by apply IH. }
    change (i < length (omap id cs))%nat in Hi.
    rewrite E in Hi. cbn in Hi. lia.
Qed.

(** The loop of the count message over [children_[0 .. num_children-1]]. *)
Lemma list_children_run (n : Node) (idxs : list Z) (s : vstate) :
  (forall i, i ∈ idxs -> exists c, index (children_ n) i = Done (Some c) /\ label_ok c) ->
  exists s',
    for_each idxs (fun i (_ : unit) =>
      c <- read_child n i ;;
      match c with
      | Some child => l <- lift (getString child) ;; print (ChildListed l)
      | None => lift (Fault NullDeref)
      end) tt s = (s', Done tt)
    /\ rc s' = rc s /\ allNodes s' = allNodes s /\ exists msgs, cout s' = cout s ++ msgs.
Proof.
  revert s. induction idxs as [|i idxs IH]; intros s Hall.
  - exists s. repeat split. exists []. by rewrite app_nil_r.
  - destruct (Hall i ltac:(by left)) as (c & Hc & Hl).
    destruct (IH (mkV (rc s) (cout s ++ [ChildListed (label_spec c)]) (allNodes s) (reads s)))
      as (s' & Hrun & Hrc & Hq & msgs & Hmsgs).
    { intros j Hj. apply Hall. by right. }
    exists s'. split; [|repeat split; [exact Hrc | exact Hq |]].
    + cbn [for_each]. unfold read_child, lift, bind at 1 2 3. rewrite Hc.
      rewrite (getString_label c Hl). exact Hrun.
    + exists (ChildListed (label_spec c) :: msgs). rewrite Hmsgs. cbn [cout].
      by rewrite <- app_assoc.
Qed.

Lemma omap_length_le {A} (l : list (option A)) : (length (omap id l) <= length l)%nat.
Proof. induction l as [|[x|] l IH]; cbn in *; lia. Qed.

Lemma checked_children_length (n : Node) :
  0 <= num_keys_ n ->
  Z.of_nat (length (checked_children n)) <= num_keys_ n + 1.
Proof.
  intros Hn. unfold checked_children.
  pose proof (omap_length_le (take (Z.to_nat (num_keys_ n + 1)) (children_ n))) as H1.
  rewrite length_take in H1. lia.
Qed.

Lemma check_count_spec (n : Node) (s : vstate) :
  safe_facts n ->
  exists s',
    check_count n (Z.of_nat (length (checked_children n))) s = (s', Done tt)
    /\ advances (count_ok n) [] s s'.
Proof.
  intros Hn. unfold check_count, count_ok.
  pose proof (sf_label n Hn) as Hl. pose proof (sf_slots n Hn) as Hs.
  destruct (isLeaf n); cbn [negb andb orb when].
  { exists s. split; [reflexivity | apply advances_refl]. }
  destruct (Z.of_nat (length (checked_children n)) =? num_keys_ n + 1); cbn [negb when].
  { exists s. split; [reflexivity | apply advances_refl]. }
  unfold bind at 1, lift at 1. rewrite (getString_label n Hl).
  unfold bind at 1, print at 1, modify at 1.
  match goal with |- exists _, bind _ _ ?t = _ /\ _ =>
    destruct (list_children_run n (range 0 (Z.of_nat (length (checked_children n)))) t)
      as (s1 & Hrun & Hrc & Hq & msgs & Hmsgs) end.
  { intros i Hi. unfold range in Hi. apply elem_of_seqZ in Hi.
    unfold label_ok in Hl. pose proof (checked_children_length n ltac:(lia)) as Hlen.
    destruct (packed_prefix _ (Z.to_nat i) (sf_packed n Hn)) as (c & Hc & Hin).
    { fold (checked_children n). lia. }
    rewrite lookup_take_lt in Hc by lia.
    exists c. split.
    - unfold index. destruct (Z.leb_spec 0 i); [|lia]. by rewrite Hc.
    - by apply (sf_child n Hn c). }
  unfold bind at 1. rewrite Hrun.
  eexists. split; [reflexivity|]. repeat split; cbn.
  - by rewrite andb_false_r.
  - rewrite Hq. cbn. by rewrite app_nil_r.
  - rewrite Hmsgs. cbn. rewrite <- app_assoc. eexists. split; [reflexivity|].
    split; discriminate.
Qed.

Lemma validate_node_spec (heap : Node) (check : option Node * Node) (s : vstate) :
  safe_pair heap check = true ->
  exists s', validate_node heap check s = (s', Done tt)
             /\ advances (node_ok check) (pushes check.2) s s'.
Proof.
  unfold safe_pair. rewrite !andb_true_iff. intros [[Hn Hp] Hst].
  apply safe_node_facts in Hn.
  pose proof (sf_label _ Hn) as Hl. pose proof (sf_slots _ Hn) as Hs.
  unfold validate_node.
  destruct (check_parent_spec heap check s Hl) as (s1 & Hr1 & Ha1).
  { intros p Hp'. rewrite Hp' in Hp. by apply label_okb_spec. }
  { exact Hst. }
  rewrite (bind_done _ _ _ _ _ Hr1).
  destruct (check_sorted_spec check.2 s1 Hl) as (s2 & Hr2 & Ha2).
  rewrite (bind_done _ _ _ _ _ Hr2).
  destruct (check_left_children_spec check.2 s2 Hn) as (s3 & Hr3 & Ha3).
  rewrite (bind_done _ _ _ _ _ Hr3).
  destruct (check_last_child_spec check.2
              (Z.of_nat (length (concat (slot_pushes check.2 <$> range 0 (num_keys_ check.2)))))
              s3 Hn) as (s4 & Hr4 & Ha4).
  rewrite (bind_done _ _ _ _ _ Hr4).
  assert (pushes check.2
          = concat (slot_pushes check.2 <$> range 0 (num_keys_ check.2))
            ++ slot_pushes check.2 (num_keys_ check.2)) as Hpush.
  { unfold label_ok in Hl. rewrite pushes_slots by lia. rewrite range_snoc by lia.
    rewrite fmap_app, concat_app. cbn. by rewrite app_nil_r. }
  replace (Z.of_nat (length (concat (slot_pushes check.2 <$> range 0 (num_keys_ check.2))))
           + Z.of_nat (length (slot_pushes check.2 (num_keys_ check.2))))
    with (Z.of_nat (length (checked_children check.2))).
  2:{ transitivity (Z.of_nat (length (pushes check.2))).
      - unfold pushes. by rewrite length_fmap.
      - rewrite Hpush, length_app. lia. }
  destruct (check_count_spec check.2 s4 Hn) as (s5 & Hr5 & Ha5).
  exists s5. split; [exact Hr5|].
  pose proof (advances_trans _ _ _ _ _ _ _
                (advances_trans _ _ _ _ _ _ _
                   (advances_trans _ _ _ _ _ _ _
                      (advances_trans _ _ _ _ _ _ _ Ha1 Ha2) Ha3) Ha4) Ha5) as Ha.
  eapply advances_eq; [exact Ha | reflexivity |].
  rewrite Hpush. cbn. by rewrite app_nil_r.
Qed.

(** *** The loop *)

Section NodeInduction.
Variable P : Node -> Prop.
Hypothesis step : forall a pa nk ks cs,
  Forall (fun c => match c with Some m => P m | None => True end) cs ->
  P (mkNode a pa nk ks cs).

Fixpoint Node_ind (n : Node) : P n :=
  match n with
  | mkNode a pa nk ks cs =>
      step a pa nk ks cs
        ((fix go (l : list (option Node)) :
            Forall (fun c => match c with Some m => P m | None => True end) l :=
            match l return Forall _ l with
            | [] => List.Forall_nil _
            | c :: l' =>
                List.Forall_cons _ c l'
                  (match c return match c with Some m => P m | None => True end with
                   | Some m => Node_ind m
                   | None => I
                   end)
                  (go l')
            end) cs)
  end.
End NodeInduction.

Lemma walk_all_cons (check : option Node * Node) (q : list (option Node * Node)) :
  walk_all (check :: q) = walk check.1 check.2 ++ walk_all q.
Proof. reflexivity. Qed.

Lemma walk_all_app (q1 q2 : list (option Node * Node)) :
  walk_all (q1 ++ q2) = walk_all q1 ++ walk_all q2.
Proof. unfold walk_all. by rewrite fmap_app, concat_app. Qed.

Lemma walk_length (p : option Node) (n : Node) : (length (walk p n) <= size n)%nat.
Proof.
  revert p. induction n as [a pa nk ks cs IH] using Node_ind. intros p.
  unfold size. cbn [walk nodes children_ num_keys_ length]. apply le_n_S.
  generalize (mkNode a pa nk ks cs). intros n0.
  generalize (Z.to_nat (nk + 1)). intros k. revert k.
  induction IH as [|c cs Hc _ IHcs]; intros k; [cbn; lia|].
  destruct k as [|k]; [cbn; lia|].
  cbn [map concat]. rewrite !length_app.
  specialize (IHcs k).
  destruct c as [m|]; [specialize (Hc (Some n0)); unfold size in Hc|]; cbn [length]; lia.
Qed.

Lemma validate_loop_spec (heap : Node) (fuel : nat) (s : vstate) :
  forallb (safe_pair heap) (walk_all (allNodes s)) = true ->
  (length (walk_all (allNodes s)) <= fuel)%nat ->
  exists s',
    validate_loop heap fuel s = (s', Done tt)
    /\ rc s' = rc s && forallb node_ok (walk_all (allNodes s))
    /\ exists msgs, cout s' = cout s ++ msgs
                    /\ (msgs = [] <-> forallb node_ok (walk_all (allNodes s)) = true).
Proof.
  revert s. induction fuel as [|fuel IH]; intros s Hsafe Hfuel.
  - destruct s as [r c [|check q] rd]; cbn [allNodes] in *.
    + eexists. split; [reflexivity|]. cbn. split; [by rewrite andb_true_r|].
      exists []. by rewrite app_nil_r.
    + rewrite walk_all_cons, walk_unfold in Hfuel. cbn in Hfuel. lia.
  - destruct s as [r c [|[p n] q] rd]; cbn [allNodes] in *.
    + eexists. split; [reflexivity|]. cbn. split; [by rewrite andb_true_r|].
      exists []. by rewrite app_nil_r.
    + set (check := (p, n)) in *.
      rewrite walk_all_cons, walk_unfold in Hsafe, Hfuel |- *.
      cbn [forallb length app] in Hsafe, Hfuel |- *.
      change (check.1, check.2) with check in *.
      rewrite forallb_app in Hsafe |- *.
      apply andb_true_iff in Hsafe as [Hcheck Hsafe].
      apply andb_true_iff in Hsafe as [Hkids Hrest].
      rewrite length_app in Hfuel.
      cbn [validate_loop allNodes rc cout reads].
      destruct (validate_node_spec heap check (mkV r c q rd) Hcheck)
        as (s1 & Hrun1 & Hrc1 & Hq1 & m1 & Hc1 & Hm1).
      cbn [rc cout allNodes] in Hrc1, Hq1, Hc1.
      rewrite (bind_done _ _ _ _ _ Hrun1).
      destruct (IH s1) as (s2 & Hrun2 & Hrc2 & m2 & Hc2 & Hm2).
      { rewrite Hq1, walk_all_app, forallb_app. by rewrite Hrest, Hkids. }
      { rewrite Hq1, walk_all_app, length_app. lia. }
      rewrite Hq1, walk_all_app, forallb_app in Hrc2, Hm2.
      exists s2. split; [exact Hrun2|]. split.
      * rewrite Hrc2, Hrc1. cbn [rc].
        generalize (node_ok check), (forallb node_ok (walk_all q)),
          (forallb node_ok (walk_all (pushes check.2))).
        intros b1 b2 b3. by destruct r, b1, b2, b3.
      * exists (m1 ++ m2). split; [by rewrite Hc2, Hc1, app_assoc|].
        rewrite !andb_true_iff, <- Hm1. rewrite andb_true_iff in Hm2. split.
        -- intros H. apply app_eq_nil in H as [-> H2]. apply Hm2 in H2. tauto.
        -- intros (-> & H1 & H2). apply Hm2. tauto.
Qed.

(** On a tree on which every access is defined, the validator returns, and it
    returns the conjunction of the checks of all visited pairs; it printed
    nothing exactly when it returns [true]. *)
Lemma validateRelationships_spec (t : Node) :
  safe t ->
  exists s,
    validateRelationships t t = (s, Done (forallb node_ok (walk None t)))
    /\ (cout s = [] <-> forallb node_ok (walk None t) = true).
Proof.
  intros Hsafe. unfold validateRelationships.
  destruct (validate_loop_spec t (size t) (mkV true [] [(None, t)] []))
    as (s & Hrun & Hrc & msgs & Hc & Hm).
  - cbn [allNodes]. rewrite walk_all_cons. cbn. by rewrite app_nil_r.
  - cbn [allNodes]. rewrite walk_all_cons. cbn [fst snd walk_all fmap list_fmap concat].
    rewrite app_nil_r. apply walk_length.
  - cbn [allNodes rc cout] in Hrc, Hc, Hm.
    rewrite walk_all_cons in Hrc, Hm. cbn [fst snd walk_all fmap list_fmap concat] in Hrc, Hm.
    rewrite app_nil_r in Hrc, Hm.
    exists s. split.
    + rewrite (bind_done _ _ _ _ _ Hrun). by rewrite Hrc.
    + rewrite Hc. exact Hm.
Qed.

(** *** Runs that end normally, on any tree

    The same facts for every run that returns, whatever the tree: a run that
    returns has made no undefined access. *)

Lemma index_done {A} (a : list A) (i : Z) (x : A) :
  index a i = Done x -> 0 <= i < Z.of_nat (length a) /\ a !! Z.to_nat i = Some x.
Proof.
  unfold index. destruct (Z.leb_spec 0 i); [|discriminate].
  destruct (a !! Z.to_nat i) eqn:E; [|discriminate].
  intros [= <-]. split; [|reflexivity]. apply lookup_lt_Some in E. lia.
Qed.

Lemma read_key_inv (n : Node) (i : Z) (s s' : vstate) (x : Z) :
  read_key n i s = (s', Done x) -> x = key n i /\ advances true [] s s'.
Proof.
  unfold read_key, bind, modify, lift.
  destruct (index (keys_ n) i) as [y|] eqn:E; [|discriminate].
  intros [= <- <-]. apply index_done in E as [_ E]. split.
  - unfold key, key_at. by rewrite E.
  - repeat split; cbn.
    + by rewrite andb_true_r.
    + by rewrite app_nil_r.
    + exists []. by rewrite app_nil_r.
Qed.

Lemma read_child_inv (n : Node) (i : Z) (s s' : vstate) (c : option Node) :
  read_child n i s = (s', Done c) ->
  s' = s /\ child n i = c /\ 0 <= i < Z.of_nat (length (children_ n)).
Proof.
  unfold read_child, lift. intros [= <- E]. apply index_done in E as [Hi E].
  split; [reflexivity|]. split; [|exact Hi]. unfold child. by rewrite E.
Qed.

Lemma complain_inv (b : bool) (r : report) (s s' : vstate) :
  when b (set_rc_false ;;; print r) s = (s', Done tt) -> advances (negb b) [] s s'.
Proof.
  intros H. destruct (complain_advances b r s) as (s1 & H1 & Ha).
  rewrite H1 in H. by injection H as <-.
Qed.

Lemma push_back_inv (p : option Node * Node) (s s' : vstate) :
  push_back p s = (s', Done tt) -> advances true [p] s s'.
Proof.
  intros H. destruct (push_back_advances p s) as (s1 & H1 & Ha).
  rewrite H1 in H. by injection H as <-.
Qed.

Lemma for_each_advances_inv {A} (idxs : list Z) (body : Z -> A -> ST vstate A)
    (f : Z -> bool) (g : Z -> list (option Node * Node)) (h : Z -> A -> A) :
  (forall i acc s s' a, i ∈ idxs -> body i acc s = (s', Done a) ->
     a = h i acc /\ advances (f i) (g i) s s') ->
  forall acc s s' a,
    for_each idxs body acc s = (s', Done a) ->
    a = foldl (fun a i => h i a) acc idxs
    /\ advances (forallb f idxs) (concat (g <$> idxs)) s s'.
Proof.
  induction idxs as [|i idxs IH]; intros Hbody acc s s' a Hrun.
  - injection Hrun as <- <-. split; [reflexivity | apply advances_refl].
  - cbn [for_each] in Hrun. apply bind_inv in Hrun as (a1 & s1 & Hrun1 & Hrun).
    destruct (Hbody i acc s s1 a1 ltac:(by left) Hrun1) as [-> Hadv1].
    destruct (IH (fun j b t t' b' Hj => Hbody j b t t' b' (list_elem_of_further _ _ _ Hj))
                 _ _ _ _ Hrun) as [-> Hadv2].
    split; [reflexivity|].
    cbn [forallb fmap list_fmap concat]. by eapply advances_trans.
Qed.

Lemma check_parent_inv (heap : Node) (check : option Node * Node) (s s' : vstate) :
  check_parent heap check s = (s', Done tt) -> advances (parent_ok check) [] s s'.
Proof.
  unfold check_parent, parent_ok.
  destruct (bool_decide (this_ <$> check.1 = parent_ check.2)); cbn [negb when].
  - intros [= <-]. apply advances_refl.
  - intros H.
    apply bind_inv in H as ([] & s1 & [= <-] & H).
    apply bind_inv in H as (me & s2 & Hme & H). injection Hme as <- _.
    apply bind_inv in H as ([] & s3 & [= <-] & H).
    apply bind_inv in H as ([] & s3' & [= <-] & H).
    apply bind_inv in H as (e & s4 & He & H).
    assert (s4 = mkV false ((cout s ++ [WrongParent me]) ++ [ParentShouldBe])
                     (allNodes s) (reads s)) as ->.
    { destruct check.1; [by injection He as <- _ | by injection He as <- _]. }
    apply bind_inv in H as ([] & s5 & [= <-] & H).
    apply bind_inv in H as ([] & s5' & [= <-] & H).
    apply bind_inv in H as (st & s6 & Hst & H).
    assert (s6 = mkV false ((((cout s ++ [WrongParent me]) ++ [ParentShouldBe])
                             ++ [Pointer e]) ++ [ParentIs])
                     (allNodes s) (reads s)) as ->.
    { destruct (parent_ check.2); [|by injection Hst as <- _].
      apply bind_inv in Hst as (q & s7 & Hq & Hst).
      injection Hq as <- _. by injection Hst as <- _. }
    injection H as <-. repeat split; cbn.
    + by rewrite andb_false_r.
    + by rewrite app_nil_r.
    + eexists. split; [by rewrite <- !app_assoc|]. split; discriminate.
Qed.

Lemma check_sorted_inv (n : Node) (s s' : vstate) :
  check_sorted n s = (s', Done tt) -> advances (sorted_ok n) [] s s'.
Proof.
  unfold check_sorted, sorted_ok. intros H.
  apply (for_each_advances_inv _ _
           (fun i => negb (key n (i - 1) >? key n i)) (fun _ => []) (fun _ a => a))
    in H as [_ Hadv].
  - eapply advances_eq; [exact Hadv | reflexivity |].
    generalize (range 1 (num_keys_ n)). intros l. induction l; [reflexivity | assumption].
  - intros i [] s0 s1 [] _ Hrun.
    apply bind_inv in Hrun as (a & t1 & Ha & Hrun). apply read_key_inv in Ha as [-> Ha].
    apply bind_inv in Hrun as (b & t2 & Hb & Hrun). apply read_key_inv in Hb as [-> Hb].
    apply complain_inv in Hrun. split; [reflexivity|].
    eapply advances_eq;
      [exact (advances_trans _ _ _ _ _ _ _ (advances_trans _ _ _ _ _ _ _ Ha Hb) Hrun)
      | reflexivity | reflexivity].
Qed.

Lemma check_left_children_inv (n : Node) (s s' : vstate) (cnt : Z) :
  check_left_children n s = (s', Done cnt) ->
  cnt = Z.of_nat (length (concat (slot_pushes n <$> range 0 (num_keys_ n))))
  /\ advances (lefts_ok n) (concat (slot_pushes n <$> range 0 (num_keys_ n))) s s'.
Proof.
  unfold check_left_children, lefts_ok. intros H.
  apply (for_each_advances_inv _ _ (left_ok n) (slot_pushes n)
           (fun i a => match child n i with Some _ => a + 1 | None => a end))
    in H as [-> Hadv].
  - split; [|exact Hadv]. rewrite count_slots. lia.
  - intros i acc s0 s1 a _ Hrun.
    apply bind_inv in Hrun as (c & t1 & Hc & Hrun).
    apply read_child_inv in Hc as (-> & Hc & _).
    unfold left_ok, slot_pushes. rewrite Hc. destruct c as [c|].
    + apply bind_inv in Hrun as (ck & t2 & Hck & Hrun). apply read_key_inv in Hck as [-> Hck].
      apply bind_inv in Hrun as (k & t3 & Hk & Hrun). apply read_key_inv in Hk as [-> Hk].
      apply bind_inv in Hrun as ([] & t4 & Hcomplain & Hrun). apply complain_inv in Hcomplain.
      apply bind_inv in Hrun as ([] & t5 & Hpush & Hrun). apply push_back_inv in Hpush.
      injection Hrun as <- <-. split; [reflexivity|].
      eapply advances_eq;
        [exact (advances_trans _ _ _ _ _ _ _
                  (advances_trans _ _ _ _ _ _ _
                     (advances_trans _ _ _ _ _ _ _ Hck Hk) Hcomplain) Hpush)
        | by rewrite andb_true_r | reflexivity].
    + injection Hrun as <- <-. split; [reflexivity | apply advances_refl].
Qed.

Lemma check_last_child_inv (n : Node) (cnt cnt' : Z) (s s' : vstate) :
  check_last_child n cnt s = (s', Done cnt') ->
  cnt' = cnt + Z.of_nat (length (slot_pushes n (num_keys_ n)))
  /\ advances (last_ok n) (slot_pushes n (num_keys_ n)) s s'
  /\ 0 <= num_keys_ n < Z.of_nat (length (children_ n)).
Proof.
  unfold check_last_child, last_ok, slot_pushes. intros H.
  apply bind_inv in H as (c & t1 & Hc & H).
  apply read_child_inv in Hc as (-> & Hc & Hslot). rewrite Hc. destruct c as [c|].
  - apply bind_inv in H as (ck & t2 & Hck & H). apply read_key_inv in Hck as [-> Hck].
    apply bind_inv in H as (k & t3 & Hk & H). apply read_key_inv in Hk as [-> Hk].
    apply bind_inv in H as ([] & t4 & Hcomplain & H). apply complain_inv in Hcomplain.
    apply bind_inv in H as ([] & t5 & Hpush & H). apply push_back_inv in Hpush.
    injection H as <- <-. split; [reflexivity|]. split; [|exact Hslot].
    eapply advances_eq;
      [exact (advances_trans _ _ _ _ _ _ _
                (advances_trans _ _ _ _ _ _ _
                   (advances_trans _ _ _ _ _ _ _ Hck Hk) Hcomplain) Hpush)
      | by rewrite andb_true_r | reflexivity].
  - injection H as <- <-. cbn [length]. split; [lia|]. split; [apply advances_refl | exact Hslot].
Qed.

Lemma list_children_inv (n : Node) (idxs : list Z) (s s' : vstate) :
  for_each idxs (fun i (_ : unit) =>
    c <- read_child n i ;;
    match c with
    | Some child => l <- lift (getString child) ;; print (ChildListed l)
    | None => lift (Fault NullDeref)
    end) tt s = (s', Done tt) ->
  rc s' = rc s /\ allNodes s' = allNodes s /\ exists msgs, cout s' = cout s ++ msgs.
Proof.
  revert s. induction idxs as [|i idxs IH]; intros s H.
  - injection H as <-. repeat split. exists []. by rewrite app_nil_r.
  - cbn [for_each] in H. apply bind_inv in H as ([] & s1 & Hbody & H).
    apply IH in H as (Hrc & Hq & msgs & Hmsgs).
    apply bind_inv in Hbody as (c & t1 & Hc & Hbody).
    apply read_child_inv in Hc as (-> & _ & _). destruct c as [c|]; [|discriminate].
    apply bind_inv in Hbody as (l & t2 & Hl & Hbody). injection Hl as <- _.
    injection Hbody as <-. cbn [rc allNodes cout] in *.
    repeat split; [exact Hrc | exact Hq |].
    exists (ChildListed l :: msgs). rewrite Hmsgs. by rewrite <- app_assoc.
Qed.

Lemma check_count_inv (n : Node) (s s' : vstate) :
  check_count n (Z.of_nat (length (checked_children n))) s = (s', Done tt) ->
  advances (count_ok n) [] s s'.
Proof.
  unfold check_count, count_ok.
  destruct (isLeaf n); cbn [negb andb orb when].
  { intros [= <-]. apply advances_refl. }
  destruct (Z.of_nat (length (checked_children n)) =? num_keys_ n + 1); cbn [negb when].
  { intros [= <-]. apply advances_refl. }
  intros H.
  apply bind_inv in H as (me & t1 & Hme & H). injection Hme as <- _.
  apply bind_inv in H as ([] & t2 & [= <-] & H).
  apply bind_inv in H as ([] & t3 & Hlist & H).
  apply list_children_inv in Hlist as (Hrc & Hq & msgs & Hmsgs).
  injection H as <-. cbn [rc allNodes cout] in *. repeat split; cbn.
  - by rewrite andb_false_r.
  - rewrite Hq. by rewrite app_nil_r.
  - rewrite Hmsgs, <- app_assoc. eexists. split; [reflexivity|]. split; discriminate.
Qed.

Lemma validate_node_inv (heap : Node) (check : option Node * Node) (s s' : vstate) :
  validate_node heap check s = (s', Done tt) ->
  advances (node_ok check) (pushes check.2) s s'.
Proof.
  unfold validate_node. intros H.
  apply bind_inv in H as ([] & s1 & H1 & H). apply check_parent_inv in H1.
  apply bind_inv in H as ([] & s2 & H2 & H). apply check_sorted_inv in H2.
  apply bind_inv in H as (cnt & s3 & H3 & H). apply check_left_children_inv in H3 as [-> H3].
  apply bind_inv in H as (cnt' & s4 & H4 & H).
  apply check_last_child_inv in H4 as (-> & H4 & Hslot).
  assert (pushes check.2
          = concat (slot_pushes check.2 <$> range 0 (num_keys_ check.2))
            ++ slot_pushes check.2 (num_keys_ check.2)) as Hpush.
  { rewrite pushes_slots by lia. rewrite range_snoc by lia.
    rewrite fmap_app, concat_app. cbn. by rewrite app_nil_r. }
  replace (Z.of_nat (length (concat (slot_pushes check.2 <$> range 0 (num_keys_ check.2))))
           + Z.of_nat (length (slot_pushes check.2 (num_keys_ check.2))))
    with (Z.of_nat (length (checked_children check.2))) in H.
  2:{ transitivity (Z.of_nat (length (pushes check.2))).
      - unfold pushes. by rewrite length_fmap.
      - rewrite Hpush, length_app. lia. }
  apply check_count_inv in H.
  pose proof (advances_trans _ _ _ _ _ _ _
                (advances_trans _ _ _ _ _ _ _
                   (advances_trans _ _ _ _ _ _ _
                      (advances_trans _ _ _ _ _ _ _ H1 H2) H3) H4) H) as Ha.
  eapply advances_eq; [exact Ha | reflexivity |].
  rewrite Hpush. cbn. by rewrite app_nil_r.
Qed.

Lemma validate_loop_inv (heap : Node) (fuel : nat) (s s' : vstate) :
  validate_loop heap fuel s = (s', Done tt) ->
  rc s' = rc s && forallb node_ok (walk_all (allNodes s))
  /\ exists msgs, cout s' = cout s ++ msgs
                  /\ (msgs = [] <-> forallb node_ok (walk_all (allNodes s)) = true).
Proof.
  revert s. induction fuel as [|fuel IH]; intros s Hrun.
  - destruct s as [r c [|check q] rd]; [|discriminate].
    injection Hrun as <-. cbn. split; [by rewrite andb_true_r|].
    exists []. by rewrite app_nil_r.
  - destruct s as [r c [|[p n] q] rd].
    + injection Hrun as <-. cbn. split; [by rewrite andb_true_r|].
      exists []. by rewrite app_nil_r.
    + set (check := (p, n)) in *.
      cbn [validate_loop allNodes rc cout reads] in Hrun |- *.
      apply bind_inv in Hrun as ([] & s1 & Hrun1 & Hrun2).
      apply validate_node_inv in Hrun1 as (Hrc1 & Hq1 & m1 & Hc1 & Hm1).
      cbn [rc cout allNodes] in Hrc1, Hq1, Hc1.
      apply IH in Hrun2 as (Hrc2 & m2 & Hc2 & Hm2).
      rewrite Hq1, walk_all_app, forallb_app in Hrc2, Hm2.
      rewrite walk_all_cons, walk_unfold. cbn [forallb app].
      change (check.1, check.2) with check. rewrite forallb_app. split.
      * rewrite Hrc2, Hrc1.
        generalize (node_ok check), (forallb node_ok (walk_all q)),
          (forallb node_ok (walk_all (pushes check.2))).
        intros b1 b2 b3. by destruct r, b1, b2, b3.
      * exists (m1 ++ m2). split; [by rewrite Hc2, Hc1, app_assoc|].
        rewrite !andb_true_iff, <- Hm1. rewrite andb_true_iff in Hm2. split.
        -- intros H. apply app_eq_nil in H as [-> H2]. apply Hm2 in H2. tauto.
        -- intros (-> & H1 & H2). apply Hm2. tauto.
Qed.

(** Whenever the validator returns, it returns the conjunction of the checks
    of all visited pairs, and it printed nothing exactly when it returns
    [true]. *)
Lemma validateRelationships_inv (heap t : Node) (s : vstate) (b : bool) :
  validateRelationships heap t = (s, Done b) ->
  b = forallb node_ok (walk None t) /\ (cout s = [] <-> b = true).
Proof.
  unfold validateRelationships. intros H.
  apply bind_inv in H as ([] & s1 & Hloop & H). injection H as <- <-.
  apply validate_loop_inv in Hloop as (Hrc & msgs & Hc & Hm).
  cbn [allNodes rc cout] in Hrc, Hc, Hm.
  rewrite walk_all_cons in Hrc, Hm. cbn [fst snd walk_all fmap list_fmap concat] in Hrc, Hm.
  rewrite app_nil_r in Hrc, Hm. cbn in Hrc, Hc.
  split; [exact Hrc|]. rewrite Hc, Hrc. exact Hm.
Qed.

Lemma validate_inv (t : Node) (b : bool) :
  validate t = Done b -> b = forallb node_ok (walk None t).
Proof.
  unfold validate. destruct (validateRelationships t t) as [s o] eqn:E. cbn [snd].
  intros ->. by apply validateRelationships_inv in E as [-> _].
Qed.

(** *** The bound of the loop is never what ends a run *)

Definition never {S A} (f : fault) (m : ST S A) : Prop :=
  forall s, (m s).2 <> Fault f.

Lemma never_ret {S A} (f : fault) (a : A) : never f (ret a : ST S A).
Proof. intros s. discriminate. Qed.

Lemma never_modify {S} (f : fault) (g : S -> S) : never f (modify g).
Proof. intros s. discriminate. Qed.

Lemma never_lift {S A} (f : fault) (o : outcome A) : o <> Fault f -> never f (lift o : ST S A).
Proof. intros Ho s. exact Ho. Qed.

Lemma never_bind {S A B} (f : fault) (m : ST S A) (k : A -> ST S B) :
  never f m -> (forall a, never f (k a)) -> never f (bind m k).
Proof.
  intros Hm Hk s. unfold bind. specialize (Hm s).
  destruct (m s) as [s' [a|f']]; [apply Hk|].
  cbn [snd] in *. intros [= ->]. by apply Hm.
Qed.

Lemma never_for_each {S A} (f : fault) (idxs : list Z) (body : Z -> A -> ST S A) :
  (forall i acc, never f (body i acc)) -> forall acc, never f (for_each idxs body acc).
Proof.
  intros Hbody. induction idxs as [|i idxs IH]; intros acc; [apply never_ret|].
  cbn [for_each]. apply never_bind; [apply Hbody | apply IH].
Qed.

Lemma index_fault {A} (a : list A) (i : Z) : index a i <> Fault OutOfFuel.
Proof. unfold index. destruct (0 <=? i); [destruct (a !! Z.to_nat i)|]; discriminate. Qed.

Lemma obind_fault {A B} (f : fault) (m : outcome A) (k : A -> outcome B) :
  m <> Fault f -> (forall a, k a <> Fault f) -> obind m k <> Fault f.
Proof.
  intros Hm Hk. destruct m as [a|f']; [apply Hk|].
  cbn. intros [= ->]. by apply Hm.
Qed.

Lemma getString_fault (n : Node) : getString n <> Fault OutOfFuel.
Proof.
  unfold getString. destruct (num_keys_ n =? 0); [discriminate|].
  apply obind_fault; [apply index_fault|]. intros k0.
  apply obind_fault.
  - generalize (range 1 (num_keys_ n - 1)), ("[" +:+ show_key k0).
    intros l. induction l as [|i l IH]; intros acc; [discriminate|].
    cbn [getString_middle]. apply obind_fault; [apply index_fault|]. intros k. apply IH.
  - intros acc. destruct (1 <? num_keys_ n); [|discriminate].
    apply obind_fault; [apply index_fault | discriminate].
Qed.

Lemma never_complain (b : bool) (r : report) :
  never OutOfFuel (when b (set_rc_false ;;; print r)).
Proof.
  destruct b; [|apply never_ret].
  apply never_bind; [apply never_modify | intros; apply never_modify].
Qed.

Lemma never_read_key (n : Node) (i : Z) : never OutOfFuel (read_key n i).
Proof.
  apply never_bind; [apply never_modify | intros; apply never_lift, index_fault].
Qed.

Lemma deref_fault (heap : Node) (a : addr) : deref heap a <> Fault OutOfFuel.
Proof. unfold deref. destruct (find _ _); discriminate. Qed.

Lemma validate_node_fault (heap : Node) (check : option Node * Node) :
  never OutOfFuel (validate_node heap check).
Proof.
  unfold validate_node. apply never_bind.
  { unfold check_parent, when. destruct (negb _); [|apply never_ret].
    apply never_bind; [apply never_modify|]. intros _.
    apply never_bind; [apply never_lift, getString_fault|]. intros me.
    apply never_bind; [apply never_modify|]. intros _.
    apply never_bind; [apply never_modify|]. intros _.
    apply never_bind;
      [destruct check.1; [apply never_lift, getString_fault | apply never_ret]|].
    intros expected.
    apply never_bind; [apply never_modify|]. intros _.
    apply never_bind; [apply never_modify|]. intros _.
    apply never_bind; [|intros; apply never_modify].
    destruct (parent_ check.2); [|apply never_ret].
    apply never_bind; [apply never_lift, deref_fault|]. intros q.
    apply never_lift, getString_fault. }
  intros _. apply never_bind.
  { apply never_for_each. intros i [].
    apply never_bind; [apply never_read_key|]. intros a.
    apply never_bind; [apply never_read_key|]. intros b. apply never_complain. }
  intros _. apply never_bind.
  { apply never_for_each. intros i acc.
    apply never_bind; [apply never_lift, index_fault|]. intros [c|]; [|apply never_ret].
    apply never_bind; [apply never_read_key|]. intros ck.
    apply never_bind; [apply never_read_key|]. intros k.
    apply never_bind; [apply never_complain|]. intros _.
    apply never_bind; [apply never_modify | intros; apply never_ret]. }
  intros cnt. apply never_bind.
  { unfold check_last_child.
    apply never_bind; [apply never_lift, index_fault|]. intros [c|]; [|apply never_ret].
    apply never_bind; [apply never_read_key|]. intros ck.
    apply never_bind; [apply never_read_key|]. intros k.
    apply never_bind; [apply never_complain|]. intros _.
    apply never_bind; [apply never_modify | intros; apply never_ret]. }
  intros cnt'. unfold check_count, when. destruct (_ && _); [|apply never_ret].
  apply never_bind; [apply never_lift, getString_fault|]. intros me.
  apply never_bind; [apply never_modify|]. intros _.
  apply never_bind; [|intros; apply never_modify].
  apply never_for_each. intros i [].
  apply never_bind; [apply never_lift, index_fault|].
  intros [c|]; [|apply never_lift; discriminate].
  apply never_bind; [apply never_lift, getString_fault | intros; apply never_modify].
Qed.

Lemma validate_loop_fault (heap : Node) (fuel : nat) (s : vstate) :
  (length (walk_all (allNodes s)) <= fuel)%nat ->
  (validate_loop heap fuel s).2 <> Fault OutOfFuel.
Proof.
  revert s. induction fuel as [|fuel IH]; intros s Hfuel.
  - destruct s as [r c [|check q] rd]; [discriminate|].
    cbn [allNodes] in Hfuel. rewrite walk_all_cons, walk_unfold in Hfuel. cbn in Hfuel. lia.
  - destruct s as [r c [|check q] rd]; [discriminate|].
    cbn [validate_loop allNodes rc cout reads] in *. unfold bind.
    pose proof (validate_node_fault heap check (mkV r c q rd)) as Hnode.
    destruct (validate_node heap check (mkV r c q rd)) as [s1 [[]|f]] eqn:E; [|exact Hnode].
    apply IH. apply validate_node_inv in E as (_ & Hq & _). cbn [allNodes] in Hq.
    rewrite Hq, walk_all_app, length_app.
    rewrite walk_all_cons, walk_unfold, length_app in Hfuel.
    cbn [length] in Hfuel. lia.
Qed.

(** On every tree, [size] iterations are enough: a run of the validator ends
    with its result or at an undefined access. *)
Lemma validate_never_out_of_fuel (t : Node) : validate t <> Fault OutOfFuel.
Proof.
  unfold validate, validateRelationships, bind.
  pose proof (validate_loop_fault t (size t) (mkV true [] [(None, t)] [])) as H.
  destruct (validate_loop t (size t) (mkV true [] [(None, t)] [])) as [s [[]|f]];
    [discriminate|].
  cbn [snd allNodes] in *. intros [= ->]. apply H; [|reflexivity].
  rewrite walk_all_cons.
  cbn [fst snd walk_all fmap list_fmap concat]. rewrite app_nil_r. apply walk_length.
Qed.

Lemma validate_spec (t : Node) :
  safe t -> validate t = Done (forallb node_ok (walk None t)).
Proof.
  intros Hsafe. destruct (validateRelationships_spec t Hsafe) as (s & Hrun & _).
  unfold validate. by rewrite Hrun.
Qed.

Lemma forallb_elem_false {A} (f : A -> bool) (l : list A) (x : A) :
  x ∈ l -> f x = false -> forallb f l = false.
Proof.
  intros Hin Hx. destruct (forallb f l) eqn:E; [|reflexivity].
  rewrite forallb_forall in E. rewrite <- Hx. symmetry. apply E.
  by apply list_elem_of_In.
Qed.

(** A visited pair that fails a check: the validator returns [false] whenever
    it returns, and it does return on a tree on which every access is
    defined. *)
Lemma node_fails (t : Node) (check : option Node * Node) :
  check ∈ walk None t -> node_ok check = false ->
  (forall b, validate t = Done b -> b = false) /\ (safe t -> validate t = Done false).
Proof.
  intros Hin Hok.
  pose proof (forallb_elem_false node_ok _ check Hin Hok) as Hall. split.
  - intros b Hb. apply validate_inv in Hb. congruence.
  - intros Hsafe. rewrite (validate_spec t Hsafe). by rewrite Hall.
Qed.

Lemma elem_of_walk_all (x : option Node * Node) (q : list (option Node * Node)) :
  x ∈ walk_all q <-> exists c, c ∈ q /\ x ∈ walk c.1 c.2.
Proof.
  induction q as [|c q IH].
  - split; [intros H; inversion H | intros (c & H & _); inversion H].
  - rewrite walk_all_cons, elem_of_app, IH. split.
    + intros [H|(c' & Hc' & H)]; [exists c; split; [by left | done] | exists c'; split; [by right | done]].
    + intros (c' & Hc' & H). apply elem_of_cons in Hc' as [->|Hc']; [by left | right; eauto].
Qed.

Lemma walk_head (p : option Node) (n : Node) : (p, n) ∈ walk p n.
Proof. rewrite walk_unfold. by left. Qed.

(** The walk reaches the checked children of every node it reaches. *)
Lemma walk_child (t : Node) :
  forall q p n c,
    (p, n) ∈ walk q t -> c ∈ checked_children n -> (Some n, c) ∈ walk q t.
Proof.
  induction t as [a pa nk ks cs IH] using Node_ind. intros q p n c Hin Hc.
  set (t := mkNode a pa nk ks cs) in *.
  rewrite walk_unfold in Hin |- *. apply elem_of_cons in Hin as [Heq|Hin].
  - injection Heq as -> ->. right. apply elem_of_walk_all.
    exists (Some t, c). split; [|apply walk_head].
    unfold pushes. by apply list_elem_of_fmap_2.
  - right. apply elem_of_walk_all in Hin as ([q' m] & Hm & Hin). cbn [fst snd] in Hin.
    apply elem_of_walk_all. exists (q', m). split; [exact Hm|]. cbn [fst snd].
    unfold pushes in Hm. apply list_elem_of_fmap in Hm as (m' & [= -> ->] & Hm).
    unfold checked_children in Hm. apply list_elem_of_omap in Hm as (o & Ho & Hid).
    cbn in Hid. subst o. apply subseteq_take in Ho. cbn [children_ t] in Ho.
    rewrite Forall_forall in IH. specialize (IH (Some m') Ho). cbn in IH.
    by apply (IH _ p n c).
Qed.

(** ** Example trees *)

(** The tree of the rendering example: root [10] over the leaves [5] and [12]. *)
Definition t10 : Node :=
  node 100 None [10] [Some (leaf 101 (Some 100) [5]); Some (leaf 102 (Some 100) [12])].

(** The same tree, but the leaf [12] records no parent. *)
Definition wrong_parent : Node :=
  node 100 None [10] [Some (leaf 101 (Some 100) [5]); Some (leaf 102 None [12])].

(** A root whose middle slot is empty: [5] _ [25] under the keys 10 and 20. *)
Definition gap : Node :=
  node 100 None [10; 20]
    [Some (leaf 101 (Some 100) [5]); None; Some (leaf 102 (Some 100) [25])].

(** A single leaf with the key 5 twice, and one with descending keys. *)
Definition equal_keys : Node := leaf 100 None [5; 5].
Definition descending_keys : Node := leaf 100 None [7; 5].

(** A node without keys that owns a child. *)
Definition zero_key_owner : Node := node 100 None [] [Some (leaf 101 (Some 100) [3])].

(** A root whose stored [parent_] is the address of no node. *)
Definition stale_parent : Node := leaf 100 (Some 999) [7; 5].

(** The message of the parent check names the node and the expected parent,
    and then dereferences the stored pointer: the run ends there, before the
    keys are looked at. *)
Lemma validate_stale_parent :
  validateRelationships stale_parent stale_parent
  = (mkV false [WrongParent "[7, 5]"; ParentShouldBe; Pointer "nullptr"; ParentIs] [] [],
     Fault DanglingPointer)
  /\ ~ safe stale_parent.
Proof. split; [vm_compute; reflexivity | vm_compute; discriminate]. Qed.

(** ** The validator: the statements of the specification *)

(** C1, at the tree [gap].  The root has two children for two keys, which the
    validator detects and starts to report: the message lists
    [children_[0]] and then dereferences the empty [children_[1]].  The run
    ends there: [rc] is still [true], nothing is returned, and the two leaves
    are still waiting in the deque. *)
Theorem validate_halts_at_gap :
  exists s,
    validateRelationships gap gap = (s, Fault NullDeref)
    /\ rc s = true
    /\ cout s = [ChildCountMismatch "[10, 20]" 2 2; ChildListed "[5]"]
    /\ allNodes s = [(Some gap, leaf 101 (Some 100) [5]); (Some gap, leaf 102 (Some 100) [25])].
Proof. eexists. split; [vm_compute; reflexivity|]. repeat split. Qed.

(** A root with one key that owns three children: the third, in slot 2,
    lies beyond the slots [0 .. num_keys_] and records no parent. *)
Definition stray_child : Node :=
  node 100 None [10]
    [Some (leaf 101 (Some 100) [5]); Some (leaf 102 (Some 100) [12]);
     Some (leaf 103 None [20])].

(** C2, as stated, fails: the root of [stray_child] owns a child whose
    stored [parent_] is not the root, every access of the run is defined,
    and the validator returns [true]: the walk does not reach slot 2 of a
    node with one key. *)
Lemma owned_child_not_checked :
  safe stray_child
  /\ (exists c, Some c ∈ children_ stray_child /\ parent_ c <> Some (this_ stray_child))
  /\ validate stray_child = Done true.
Proof.
  split; [vm_compute; reflexivity|]. split; [|vm_compute; reflexivity].
  exists (leaf 103 None [20]). split; [|discriminate].
  vm_compute. do 2 apply list_elem_of_further. apply list_elem_of_here.
Qed.

(** The checks of a visit other than the one of the parent. *)
Definition contents_ok (n : Node) : bool :=
  sorted_ok n && lefts_ok n && last_ok n && count_ok n.

Lemma node_ok_split (check : option Node * Node) :
  node_ok check = parent_ok check && contents_ok check.2.
Proof. unfold node_ok, contents_ok. by rewrite !andb_assoc. Qed.

(** C2, amended.  The walk visits the root with no expected parent and,
    from each visited node, the children in its slots [0 .. num_keys_] with
    that node as expected parent.  When the stored [parent_] of a visited
    node is not the address of its expected parent, the validator returns
    [false]: whenever it returns, and it returns on every tree on which all
    its accesses are defined.  On such a tree whose visited nodes pass the
    four other checks, the validator returns [true] exactly when every
    visited node stores the address of its expected parent. *)
Theorem validate_checks_parent (t : Node) :
  ((None, t) ∈ walk None t
   /\ forall p n c, (p, n) ∈ walk None t -> c ∈ checked_children n ->
                    (Some n, c) ∈ walk None t)
  /\ ((exists p n, (p, n) ∈ walk None t /\ parent_ n <> this_ <$> p) ->
      (forall b, validate t = Done b -> b = false) /\ (safe t -> validate t = Done false))
  /\ (safe t ->
      (forall check, check ∈ walk None t -> contents_ok check.2 = true) ->
      (validate t = Done true \/ validate t = Done false)
      /\ (validate t = Done true
          <-> forall p n, (p, n) ∈ walk None t -> parent_ n = this_ <$> p)).
Proof.
  split; [|split].
  - split; [apply walk_head|]. intros p n c. apply walk_child.
  - intros (p & n & Hin & Hne).
    apply (node_fails t (p, n) Hin).
    unfold node_ok, parent_ok. cbn [fst snd].
    rewrite bool_decide_eq_false_2; [reflexivity | congruence].
  - intros Hsafe Hothers. rewrite (validate_spec t Hsafe). split.
    + destruct (forallb node_ok (walk None t)); [by left | by right].
    + split.
      * intros [= H] p n Hin. rewrite forallb_forall in H.
        specialize (H (p, n) (proj1 (list_elem_of_In _ _) Hin)).
        rewrite node_ok_split in H. apply andb_true_iff in H as [H _].
        unfold parent_ok in H. apply bool_decide_eq_true in H. cbn [fst snd] in H.
        congruence.
      * intros H. f_equal. apply forallb_forall. intros [p n] Hin.
        apply list_elem_of_In in Hin.
        rewrite node_ok_split, (Hothers _ Hin), andb_true_r.
        unfold parent_ok. apply bool_decide_eq_true. cbn [fst snd].
        symmetry. by apply H.
Qed.

Lemma contents_ok_t10 :
  forall check, check ∈ walk None t10 -> contents_ok check.2 = true.
Proof.
  intros check Hin. vm_compute in Hin.
  repeat (apply elem_of_cons in Hin as [->|Hin]); [reflexivity .. | inversion Hin].
Defined.

Lemma validate_checks_parent_witness :
  (Some t10, leaf 102 (Some 100) [12]) ∈ walk None t10
  /\ validate wrong_parent = Done false
  /\ (validate t10 = Done true
      <-> forall p n, (p, n) ∈ walk None t10 -> parent_ n = this_ <$> p).
Proof.
  split; [|split].
  - apply (proj2 (proj1 (validate_checks_parent t10)) None t10).
    + exact (proj1 (proj1 (validate_checks_parent t10))).
    + vm_compute. apply list_elem_of_further, list_elem_of_here.
  - apply (proj1 (proj2 (validate_checks_parent wrong_parent))).
    + exists (Some wrong_parent), (leaf 102 None [12]). split.
      * vm_compute. apply list_elem_of_further, list_elem_of_further, list_elem_of_here.
      * vm_compute. discriminate.
    + vm_compute. reflexivity.
  - apply (proj2 (proj2 (validate_checks_parent t10))).
    + vm_compute. reflexivity.
    + exact contents_ok_t10.
Defined.

(** C3, as stated, fails: a node with two equal adjacent keys passes. *)
Lemma equal_keys_pass :
  safe equal_keys
  /\ (exists i, 1 <= i < num_keys_ equal_keys
                /\ ~ key equal_keys (i - 1) < key equal_keys i)
  /\ validate equal_keys = Done true.
Proof.
  split; [vm_compute; reflexivity|]. split; [|vm_compute; reflexivity].
  exists 1. change (1 <= 1 < 2 /\ ~ 5 < 5). lia.
Qed.

Lemma sorted_ok_spec (n : Node) :
  sorted_ok n = true <-> forall i, 1 <= i < num_keys_ n -> key n (i - 1) <= key n i.
Proof.
  unfold sorted_ok. rewrite forallb_forall. split.
  - intros H i Hi. specialize (H i). rewrite <- list_elem_of_In in H.
    unfold range in H. rewrite elem_of_seqZ in H. specialize (H ltac:(lia)).
    destruct (Z.gtb_spec (key n (i - 1)) (key n i)); [discriminate | lia].
  - intros H i Hi. apply list_elem_of_In in Hi. unfold range in Hi.
    apply elem_of_seqZ in Hi. specialize (H i ltac:(lia)).
    destruct (Z.gtb_spec (key n (i - 1)) (key n i)); [lia | reflexivity].
Qed.

(** C3, amended.  When a visited node holds two adjacent keys of which the
    left one is greater than the right one, the validator returns [false]
    (whenever it returns, and it returns on every tree on which all its
    accesses are defined).  Equal adjacent keys are not reported: on a tree
    on which all accesses are defined and whose visited nodes pass the four
    other checks, the validator returns [true] and writes nothing as soon as
    no visited node holds a key greater than its right neighbour. *)
Theorem validate_checks_descending (t : Node) :
  ((exists p n i, (p, n) ∈ walk None t /\ 1 <= i < num_keys_ n /\ key n (i - 1) > key n i) ->
   (forall b, validate t = Done b -> b = false) /\ (safe t -> validate t = Done false))
  /\ (safe t ->
      (forall check, check ∈ walk None t ->
         parent_ok check && lefts_ok check.2 && last_ok check.2 && count_ok check.2 = true) ->
      (forall p n i, (p, n) ∈ walk None t -> 1 <= i < num_keys_ n ->
                     key n (i - 1) <= key n i) ->
      exists s, validateRelationships t t = (s, Done true) /\ cout s = []).
Proof.
  split.
  - intros (p & n & i & Hin & Hi & Hgt).
    apply (node_fails t (p, n) Hin).
    assert (sorted_ok n = false) as E.
    { unfold sorted_ok. apply (forallb_elem_false _ _ i).
      - unfold range. apply elem_of_seqZ. lia.
      - destruct (Z.gtb_spec (key n (i - 1)) (key n i)); [reflexivity | lia]. }
    unfold node_ok. cbn [fst snd]. rewrite E. by rewrite andb_false_r.
  - intros Hsafe Hothers Hkeys.
    destruct (validateRelationships_spec t Hsafe) as (s & Hrun & Hcout).
    assert (forallb node_ok (walk None t) = true) as Hall.
    { apply forallb_forall. intros [p n] Hin. apply list_elem_of_In in Hin.
      pose proof (Hothers _ Hin) as Ho. cbn [fst snd] in Ho.
      apply andb_true_iff in Ho as [Ho Hc]. apply andb_true_iff in Ho as [Ho Hla].
      apply andb_true_iff in Ho as [Hp Hle].
      unfold node_ok. cbn [fst snd] in *. rewrite Hp, Hle, Hla, Hc.
      rewrite (proj2 (sorted_ok_spec n)); [reflexivity|].
      intros i. by apply (Hkeys p). }
    exists s. rewrite Hall in Hrun. split; [exact Hrun | by apply Hcout].
Qed.

Lemma validate_checks_descending_witness :
  validate descending_keys = Done false
  /\ exists s, validateRelationships equal_keys equal_keys = (s, Done true) /\ cout s = [].
Proof.
  split.
  - apply (proj1 (validate_checks_descending descending_keys)).
    + exists None, descending_keys, 1. split; [|split].
      * vm_compute. apply list_elem_of_here.
      * change (1 <= 1 < 2). lia.
      * change (7 > 5). lia.
    + vm_compute. reflexivity.
  - apply (proj2 (validate_checks_descending equal_keys)).
    + vm_compute. reflexivity.
    + intros check Hin. vm_compute in Hin.
      apply elem_of_cons in Hin as [->|Hin]; [reflexivity | inversion Hin].
    + intros p n i Hin Hi. vm_compute in Hin.
      apply elem_of_cons in Hin as [[= -> ->]|Hin]; [|inversion Hin].
      change (1 <= i < 2) in Hi. assert (i = 1) as -> by lia. vm_compute. discriminate.
Defined.

Lemma sorted_le (n : Node) (j k : Z) :
  sorted_ok n = true -> 0 <= j <= k -> k < num_keys_ n -> key n j <= key n k.
Proof.
  intros Hs Hjk Hk. unfold sorted_ok in Hs. rewrite forallb_forall in Hs.
  assert (forall i, 1 <= i < num_keys_ n -> key n (i - 1) <= key n i) as Hadj.
  { intros i Hi. specialize (Hs i). rewrite <- list_elem_of_In in Hs.
    unfold range in Hs. rewrite elem_of_seqZ in Hs. specialize (Hs ltac:(lia)).
    destruct (Z.gtb_spec (key n (i - 1)) (key n i)); [discriminate | lia]. }
  replace k with (j + Z.of_nat (Z.to_nat (k - j))) in * by lia.
  generalize dependent (Z.to_nat (k - j)). intros d. induction d as [|d IHd]; intros Hjk Hk.
  - replace (j + Z.of_nat 0) with j by lia. lia.
  - specialize (IHd ltac:(lia) ltac:(lia)).
    specialize (Hadj (j + Z.of_nat (S d)) ltac:(lia)).
    replace (j + Z.of_nat (S d) - 1) with (j + Z.of_nat d) in Hadj by lia. lia.
Qed.

(** The bounds of C4: some key of a child in one of the first [num_keys_]
    slots exceeds the key of its slot, or some key of the last child is less
    than the last key. *)
Definition child_bound_violated (n : Node) : Prop :=
  (exists i c j, 0 <= i < num_keys_ n /\ child n i = Some c /\
                 0 <= j < num_keys_ c /\ key c j > key n i)
  \/ (exists c j, 1 <= num_keys_ n /\ child n (num_keys_ n) = Some c /\
                  0 <= j < num_keys_ c /\ key c j < key n (num_keys_ n - 1)).

Definition child_bounds_hold (t : Node) : Prop :=
  forall p n, (p, n) ∈ walk None t -> ~ child_bound_violated n.

Definition child_bounds_okb (n : Node) : bool :=
  forallb (fun i => match child n i with
                    | Some c => forallb (fun j => negb (key c j >? key n i)) (range 0 (num_keys_ c))
                    | None => true
                    end) (range 0 (num_keys_ n))
  && match child n (num_keys_ n) with
     | Some c => forallb (fun j => negb (key c j <? key n (num_keys_ n - 1))) (range 0 (num_keys_ c))
     | None => true
     end.

Lemma forallb_range (f : Z -> bool) (lo hi i : Z) :
  forallb f (range lo hi) = true -> lo <= i < hi -> f i = true.
Proof.
  intros H Hi. rewrite forallb_forall in H. apply H. apply list_elem_of_In.
  unfold range. apply elem_of_seqZ. lia.
Qed.

Lemma child_bounds_okb_spec (t : Node) :
  forallb (fun check => child_bounds_okb check.2) (walk None t) = true -> child_bounds_hold t.
Proof.
  intros H p n Hin Hv. rewrite forallb_forall in H.
  specialize (H (p, n) (proj1 (list_elem_of_In _ _) Hin)). cbn [snd] in H.
  unfold child_bounds_okb in H. apply andb_true_iff in H as [H1 H2].
  destruct Hv as [(i & c & j & Hi & Hc & Hj & Hgt)|(c & j & _ & Hc & Hj & Hlt)].
  - pose proof (forallb_range _ _ _ i H1 Hi) as H. cbn beta in H. rewrite Hc in H.
    pose proof (forallb_range _ _ _ j H Hj) as H'. cbn beta in H'.
    destruct (Z.gtb_spec (key c j) (key n i)); [discriminate | lia].
  - rewrite Hc in H2. pose proof (forallb_range _ _ _ j H2 Hj) as H'. cbn beta in H'.
    destruct (Z.ltb_spec (key c j) (key n (num_keys_ n - 1))); [discriminate | lia].
Qed.

(** C4, as stated, fails: the bounds hold at every node of [wrong_parent],
    and the validator returns [false] on it. *)
Lemma bounds_hold_yet_false :
  safe wrong_parent /\ child_bounds_hold wrong_parent /\ validate wrong_parent = Done false.
Proof.
  split; [vm_compute; reflexivity|]. split; [|vm_compute; reflexivity].
  apply child_bounds_okb_spec. vm_compute. reflexivity.
Qed.

(** C4, amended.  When, at a visited node, some key of a child in slot
    [i < num_keys_] exceeds [keys_[i]], or some key of the last child is less
    than the last key, the validator returns [false] (whenever it returns,
    and it returns on every tree on which all its accesses are defined).  It
    returns [true] only when every visited node passes all five checks
    (parent, adjacent keys, left children, last child, number of children),
    and it does so on every such tree on which all its accesses are
    defined. *)
Theorem validate_child_bounds (t : Node) :
  ((exists p n, (p, n) ∈ walk None t /\ child_bound_violated n) ->
   (forall b, validate t = Done b -> b = false) /\ (safe t -> validate t = Done false))
  /\ (validate t = Done true -> forall check, check ∈ walk None t -> node_ok check = true)
  /\ (safe t -> (forall check, check ∈ walk None t -> node_ok check = true) ->
      validate t = Done true).
Proof.
  split; [|split].
  - intros (p & n & Hin & Hv).
    assert (forall i c, 0 <= i <= num_keys_ n -> child n i = Some c ->
                        sorted_ok c = false ->
                        (forall b, validate t = Done b -> b = false)
                        /\ (safe t -> validate t = Done false)) as Hunsorted.
    { intros i c Hi Hc Hs.
      apply (node_fails t (Some n, c)).
      - apply (walk_child t None p n c Hin). by apply (child_checked n i).
      - unfold node_ok. cbn [fst snd]. rewrite Hs. by rewrite andb_false_r. }
    destruct Hv as [(i & c & j & Hi & Hc & Hj & Hgt)|(c & j & Hn & Hc & Hj & Hlt)].
    + destruct (sorted_ok c) eqn:Hs; [|apply (Hunsorted i c); [lia | done | done]].
      pose proof (sorted_le c j (num_keys_ c - 1) Hs ltac:(lia) ltac:(lia)) as Hle.
      apply (node_fails t (p, n) Hin).
      assert (lefts_ok n = false) as E.
      { unfold lefts_ok. apply (forallb_elem_false _ _ i).
        - unfold range. apply elem_of_seqZ. lia.
        - unfold left_ok. rewrite Hc.
          destruct (Z.gtb_spec (key c (num_keys_ c - 1)) (key n i)); [reflexivity | lia]. }
      unfold node_ok. cbn [fst snd]. rewrite E. by rewrite !andb_false_r.
    + destruct (sorted_ok c) eqn:Hs;
        [|apply (Hunsorted (num_keys_ n) c); [lia | done | done]].
      pose proof (sorted_le c 0 j Hs ltac:(lia) ltac:(lia)) as Hle.
      apply (node_fails t (p, n) Hin).
      assert (last_ok n = false) as E.
      { unfold last_ok. rewrite Hc.
        destruct (Z.ltb_spec (key c 0) (key n (num_keys_ n - 1))); [reflexivity | lia]. }
      unfold node_ok. cbn [fst snd]. rewrite E. by rewrite !andb_false_r.
  - intros H check Hin. apply validate_inv in H. symmetry in H.
    rewrite forallb_forall in H. apply H. by apply list_elem_of_In.
  - intros Hsafe H. rewrite (validate_spec t Hsafe). f_equal.
    apply forallb_forall. intros check Hin. apply H. by apply list_elem_of_In.
Qed.

(** The left child [15; 5] holds the key 15 above the key 10 of its slot,
    though not as its last key. *)
Definition big_left_child : Node :=
  node 100 None [10] [Some (leaf 101 (Some 100) [15; 5]); Some (leaf 102 (Some 100) [12])].

Lemma validate_child_bounds_witness :
  validate big_left_child = Done false
  /\ (forall check, check ∈ walk None t10 -> node_ok check = true)
  /\ validate t10 = Done true.
Proof.
  split; [|split].
  - apply (proj1 (validate_child_bounds big_left_child)).
    + exists None, big_left_child. split.
      * vm_compute. apply list_elem_of_here.
      * left. exists 0, (leaf 101 (Some 100) [15; 5]), 0.
        split; [change (0 <= 0 < 1); lia|]. split; [reflexivity|].
        split; [change (0 <= 0 < 2); lia|]. change (15 > 10). lia.
    + vm_compute. reflexivity.
  - apply (proj1 (proj2 (validate_child_bounds t10))). vm_compute. reflexivity.
  - apply (proj2 (proj2 (validate_child_bounds t10))).
    + vm_compute. reflexivity.
    + apply (proj1 (proj2 (validate_child_bounds t10))). vm_compute. reflexivity.
Defined.

(** ** The validator: its reads of [keys_] *)

(** The read [n->keys_[i]] stays below the count of [n]. *)
Definition in_bounds (r : Node * Z) : Prop := 0 <= r.2 < num_keys_ r.1.

(** The precondition of C9: a node that has a child holds a key, and every
    child holds a key. *)
Definition owner_has_key (n : Node) : Prop :=
  forall c, Some c ∈ children_ n -> 1 <= num_keys_ n.
Definition children_have_keys (n : Node) : Prop :=
  forall c, Some c ∈ children_ n -> 1 <= num_keys_ c.
Definition keyed (t : Node) : Prop :=
  forall n, n ∈ nodes t -> owner_has_key n /\ children_have_keys n.

(** What a visit of [n] may do to the reads and to the deque, also when it
    ends in a fault: the new reads are in bounds, the new pairs are children
    of [n]. *)
Definition grows (n : Node) (s s' : vstate) : Prop :=
  (exists l, reads s' = reads s ++ l /\ Forall in_bounds l)
  /\ (exists q, allNodes s' = allNodes s ++ q /\ Forall (fun ch => Some ch.2 ∈ children_ n) q).

#[local] Instance grows_preorder (n : Node) : PreOrder (grows n).
Proof.
  split.
  - intros s. split; exists []; by rewrite app_nil_r.
  - intros s1 s2 s3 [(l1 & Hl1 & Hb1) (q1 & Hq1 & Hc1)] [(l2 & Hl2 & Hb2) (q2 & Hq2 & Hc2)].
    split.
    + exists (l1 ++ l2). split; [by rewrite Hl2, Hl1, app_assoc | by apply Forall_app].
    + exists (q1 ++ q2). split; [by rewrite Hq2, Hq1, app_assoc | by apply Forall_app].
Qed.

(** A relation between the state before a run and the state after it that
    holds however the run ends. *)
Definition always {S A} (R : S -> S -> Prop) (m : ST S A) : Prop :=
  forall s, R s (m s).1.

Section Always.
Context {S : Type} (R : S -> S -> Prop) `{!PreOrder R}.

Lemma always_ret {A} (a : A) : always R (ret a).
Proof. intros s. reflexivity. Qed.

Lemma always_lift {A} (o : outcome A) : always R (lift o).
Proof. intros s. reflexivity. Qed.

Lemma always_gets {A} (f : S -> A) : always R (gets f).
Proof. intros s. reflexivity. Qed.

Lemma always_bind {A B} (m : ST S A) (k : A -> ST S B) :
  always R m -> (forall a, always R (k a)) -> always R (bind m k).
Proof.
  intros Hm Hk s. unfold bind. specialize (Hm s).
  destruct (m s) as [s' [a|f]]; [|exact Hm].
  etransitivity; [exact Hm | apply Hk].
Qed.

Lemma always_bind_lift {A B} (o : outcome A) (k : A -> ST S B) :
  (forall a, o = Done a -> always R (k a)) -> always R (bind (lift o) k).
Proof.
  intros Hk s. unfold bind, lift. destruct o as [a|f]; [by apply Hk | reflexivity].
Qed.

Lemma always_for_each {A} (idxs : list Z) (body : Z -> A -> ST S A) :
  (forall i acc, i ∈ idxs -> always R (body i acc)) ->
  forall acc, always R (for_each idxs body acc).
Proof.
  induction idxs as [|i idxs IH]; intros Hbody acc; [apply always_ret|].
  cbn [for_each]. apply always_bind; [apply Hbody; by left|].
  intros a. apply IH. intros j b Hj. apply Hbody. by right.
Qed.
End Always.

Section Grows.
Variable n : Node.

Lemma grows_ret {A} (a : A) : always (grows n) (ret a).
Proof. apply always_ret, _. Qed.

Lemma grows_lift {A} (o : outcome A) : always (grows n) (lift o).
Proof. apply always_lift, _. Qed.

Lemma grows_bind {A B} (m : ST vstate A) (k : A -> ST vstate B) :
  always (grows n) m -> (forall a, always (grows n) (k a)) -> always (grows n) (bind m k).
Proof. apply always_bind, _. Qed.

Lemma grows_bind_lift {A B} (o : outcome A) (k : A -> ST vstate B) :
  (forall a, o = Done a -> always (grows n) (k a)) -> always (grows n) (bind (lift o) k).
Proof. apply always_bind_lift, _. Qed.

Lemma grows_for_each {A} (idxs : list Z) (body : Z -> A -> ST vstate A) :
  (forall i acc, i ∈ idxs -> always (grows n) (body i acc)) ->
  forall acc, always (grows n) (for_each idxs body acc).
Proof. apply always_for_each, _. Qed.

Lemma always_set_rc_false : always (grows n) set_rc_false.
Proof. intros s. split; exists []; cbn; by rewrite app_nil_r. Qed.

Lemma always_print (r : report) : always (grows n) (print r).
Proof. intros s. split; exists []; cbn; by rewrite app_nil_r. Qed.

Lemma always_when (b : bool) (m : ST vstate unit) :
  always (grows n) m -> always (grows n) (when b m).
Proof. intros Hm. destruct b; unfold when; [exact Hm | apply grows_ret]. Qed.

Lemma always_complain (b : bool) (r : report) :
  always (grows n) (when b (set_rc_false ;;; print r)).
Proof.
  apply always_when, grows_bind; [apply always_set_rc_false | intros; apply always_print].
Qed.

Lemma always_read_key (m : Node) (i : Z) :
  0 <= i < num_keys_ m -> always (grows n) (read_key m i).
Proof.
  intros Hi s. unfold read_key, bind, modify, lift. cbn [fst].
  split; cbn [reads allNodes].
  - exists [(m, i)]. split; [reflexivity|]. by apply Forall_singleton.
  - exists []. by rewrite app_nil_r.
Qed.

Lemma always_push_back (p : option Node) (c : Node) :
  Some c ∈ children_ n -> always (grows n) (push_back (p, c)).
Proof.
  intros Hc s. split; cbn.
  - exists []. by rewrite app_nil_r.
  - exists [(p, c)]. split; [reflexivity|]. by apply Forall_singleton.
Qed.
End Grows.

Lemma index_elem {A} (a : list A) (i : Z) (x : A) : index a i = Done x -> x ∈ a.
Proof.
  unfold index. destruct (0 <=? i); [|discriminate].
  destruct (a !! Z.to_nat i) eqn:E; [|discriminate].
  intros [= <-]. by apply list_elem_of_lookup_2 in E.
Qed.

Lemma validate_node_grows (heap : Node) (check : option Node * Node) :
  owner_has_key check.2 -> children_have_keys check.2 ->
  always (grows check.2) (validate_node heap check).
Proof.
  intros Hown Hkids. unfold validate_node. set (n := check.2) in *.
  apply grows_bind.
  { unfold check_parent. apply always_when.
    apply grows_bind; [apply always_set_rc_false|]. intros _.
    apply grows_bind; [apply grows_lift|]. intros me.
    apply grows_bind; [apply always_print|]. intros _.
    apply grows_bind; [apply always_print|]. intros _.
    apply grows_bind; [destruct check.1; [apply grows_lift | apply grows_ret]|].
    intros e.
    apply grows_bind; [apply always_print|]. intros _.
    apply grows_bind; [apply always_print|]. intros _.
    apply grows_bind; [|intros st; apply always_print].
    subst n. destruct (parent_ check.2); [|apply grows_ret].
    apply grows_bind; [apply grows_lift|]. intros q. apply grows_lift. }
  intros _. apply grows_bind.
  { unfold check_sorted. apply grows_for_each. intros i [] Hi.
    unfold range in Hi. apply elem_of_seqZ in Hi.
    apply grows_bind; [apply always_read_key; lia|]. intros a.
    apply grows_bind; [apply always_read_key; lia|]. intros b.
    apply always_complain. }
  intros _. apply grows_bind.
  { unfold check_left_children. apply grows_for_each. intros i acc Hi.
    unfold range in Hi. apply elem_of_seqZ in Hi.
    unfold read_child. apply grows_bind_lift. intros [c|] Hc; [|apply grows_ret].
    apply index_elem in Hc. pose proof (Hkids c Hc).
    apply grows_bind; [apply always_read_key; lia|]. intros ck.
    apply grows_bind; [apply always_read_key; lia|]. intros k.
    apply grows_bind; [apply always_complain|]. intros _.
    apply grows_bind; [by apply always_push_back|]. intros _. apply grows_ret. }
  intros cnt. apply grows_bind.
  { unfold check_last_child, read_child. apply grows_bind_lift.
    intros [c|] Hc; [|apply grows_ret].
    apply index_elem in Hc. pose proof (Hkids c Hc). pose proof (Hown c Hc).
    apply grows_bind; [apply always_read_key; lia|]. intros ck.
    apply grows_bind; [apply always_read_key; lia|]. intros k.
    apply grows_bind; [apply always_complain|]. intros _.
    apply grows_bind; [by apply always_push_back|]. intros _. apply grows_ret. }
  intros cnt'. unfold check_count. apply always_when.
  apply grows_bind; [apply grows_lift|]. intros me.
  apply grows_bind; [apply always_print|]. intros _.
  apply grows_bind; [|intros _; apply always_set_rc_false].
  apply grows_for_each. intros i [] _.
  apply grows_bind; [apply grows_lift|]. intros [c|]; [|apply grows_lift].
  apply grows_bind; [apply grows_lift|]. intros l. apply always_print.
Qed.

Lemma nodes_child (t c : Node) : Some c ∈ children_ t -> nodes c ⊆ nodes t.
Proof.
  intros Hc x Hx. destruct t as [a pa nk ks cs]. cbn [nodes children_] in *.
  right. apply list_elem_of_In. apply in_concat. exists (nodes c). split.
  - apply in_map_iff. exists (Some c). split; [reflexivity | by apply list_elem_of_In].
  - by apply list_elem_of_In.
Qed.

Lemma keyed_child (t c : Node) : keyed t -> Some c ∈ children_ t -> keyed c.
Proof. intros Ht Hc n Hn. apply Ht. by apply (nodes_child t c). Qed.

Lemma nodes_head (t : Node) : t ∈ nodes t.
Proof. destruct t. by left. Qed.

Lemma validate_loop_reads (heap : Node) (fuel : nat) (s : vstate) :
  Forall in_bounds (reads s) ->
  Forall (fun ch => keyed ch.2) (allNodes s) ->
  Forall in_bounds (reads (validate_loop heap fuel s).1).
Proof.
  revert s. induction fuel as [|fuel IH]; intros s Hr Hq.
  - destruct s as [r c [|check q] rd]; exact Hr.
  - destruct s as [r c [|check q] rd]; [exact Hr|].
    cbn [validate_loop allNodes rc cout reads] in *.
    apply Forall_cons in Hq as [Hcheck Hq].
    destruct (Hcheck check.2 (nodes_head _)) as [Hown Hkids].
    pose proof (validate_node_grows heap check Hown Hkids (mkV r c q rd)) as Hg.
    unfold bind. destruct (validate_node heap check (mkV r c q rd)) as [s1 [[]|f]];
      cbn [fst] in Hg |- *;
      destruct Hg as [(l & Hl & Hb) (q' & Hq' & Hc')]; cbn [reads allNodes] in Hl, Hq'.
    + apply IH.
      * rewrite Hl. by apply Forall_app.
      * rewrite Hq'. apply Forall_app. split; [exact Hq|].
        eapply Forall_impl; [exact Hc'|]. intros ch Hch. by apply (keyed_child check.2).
    + rewrite Hl. by apply Forall_app.
Qed.

(** C9.  On a tree in which every node that has a child holds a key and
    every child holds a key, every access to [keys_] that
    [validateRelationships] makes has its index in [0, num_keys_) of the
    accessed node.  Without the precondition this fails: at a node without
    keys that owns a child, the check of the last child reads index -1. *)
Theorem validate_key_reads :
  (forall heap t,
     keyed t -> Forall in_bounds (reads (validateRelationships heap t).1))
  /\ reads (validateRelationships zero_key_owner zero_key_owner).1
     = [(leaf 101 (Some 100) [3], 0); (zero_key_owner, -1)].
Proof.
  split; [|vm_compute; reflexivity].
  intros heap t Ht. unfold validateRelationships, bind.
  pose proof (validate_loop_reads heap (size t) (mkV true [] [(None, t)] [])) as H.
  destruct (validate_loop heap (size t) (mkV true [] [(None, t)] [])) as [s [[]|f]];
    cbn [fst] in *; apply H; try apply Forall_nil_2; by apply Forall_singleton.
Qed.

Lemma keyed_t10 : keyed t10.
Proof.
  intros n Hn. vm_compute in Hn.
  repeat (apply elem_of_cons in Hn as [->|Hn]); [| | |inversion Hn];
    split; intros c Hc; vm_compute in Hc;
    repeat (apply elem_of_cons in Hc as [Hc|Hc]; try discriminate Hc);
    try (inversion Hc; fail);
    try (injection Hc as ->); vm_compute; discriminate.
Defined.

Lemma validate_key_reads_witness :
  Forall in_bounds (reads (validateRelationships t10 t10).1).
Proof. apply (proj1 validate_key_reads t10 t10). exact keyed_t10. Defined.

(** ** The layout engine: the statements of the specification *)

Definition initial : rstate := mkR ∅ [] 0 [] [].

(** The number of lines of a text: each newline ends one. *)
Fixpoint count_newlines (s : string) : nat :=
  match s with
  | EmptyString => 0%nat
  | String c s' =>
      ((if Ascii.eqb c (Ascii.ascii_of_nat 10) then 1 else 0) + count_newlines s')%nat
  end.

(** C8, as stated, fails: the text for [t10] has a third, empty, line. *)
Lemma render_t10_three_lines :
  exists out, tree_getString (Some t10) = Done out /\ count_newlines out <> 2%nat.
Proof. eexists. split; [vm_compute; reflexivity|]. vm_compute. discriminate. Qed.

(** C8, amended.  For the root [10] over the leaves [5] and [12] the text is
    the root line, the leaf line and an empty line: the label [10] after one
    space and before three, a newline, the labels [5] and [12] each followed
    by one space, a newline, and one more newline. *)
Theorem render_t10 :
  tree_getString (Some t10) = Done (" [10]   " +:+ nl +:+ "[5] [12] " +:+ nl +:+ nl).
Proof. vm_compute. reflexivity. Qed.

(** The words of the specification for an internal node: the label between
    [span/2 + label/2] blanks on its left and [span/2 - label/2] blanks on
    its right. *)
Definition centered_spec (span : Z) (label : string) : string :=
  spaces (Z.to_nat (span / 2 + strlen label / 2)) +:+ label
  +:+ spaces (Z.to_nat (span / 2 - strlen label / 2)).

(** C7, as stated, fails: at the root of [t10], whose span after pass 1 is 9,
    the render pass writes one blank before the label, not six, with the
    label alone or with its separator. *)
Lemma root_not_padded_as_stated :
  exists s1 s2 l,
    pass1 t10 t10 initial = (s1, Done tt)
    /\ ss s1 = []
    /\ offsets s1 !! this_ t10 = Some l
    /\ end_ l - begin_ l = 9
    /\ print_node t10 s1 = (s2, Done tt)
    /\ str (ss s2) = " [10]   "
    /\ str (ss s2) <> centered_spec 9 "[10]"
    /\ str (ss s2) <> centered_spec 9 "[10] ".
Proof.
  eexists. eexists. eexists.
  split; [vm_compute; reflexivity|].
  split; [reflexivity|].
  split; [vm_compute; reflexivity|].
  split; [reflexivity|].
  split; [vm_compute; reflexivity|].
  split; [vm_compute; reflexivity|].
  split; vm_compute; discriminate.
Qed.

Lemma strlen_app (a b : string) : strlen (a +:+ b) = strlen a + strlen b.
Proof.
  unfold strlen. induction a as [|x a IH]; [reflexivity|].
  change (String x a +:+ b) with (String x (a +:+ b)). cbn [String.length]. lia.
Qed.

(** The state after a node wrote the chunks [cs], [len] characters wide. *)
Definition with_ss (s : rstate) (cs : list chunk) (len : Z) : rstate :=
  mkR (offsets s) (nodes_to_be_printed s) (to_int (current_offset s + len))
      (ss s ++ cs) (cout_r s).

(** The span that the render pass computes from an entry of the offset map:
    the difference is stored in an [unsigned int]. *)
Definition given_length (l : location) : Z := to_unsigned (end_ l - begin_ l).

(** What [print_node] does, case by case. *)
Lemma print_node_run (node : Node) (s : rstate) :
  label_ok node ->
  print_node node s
  = if isLeaf node then
      (with_ss s [Text (label_spec node); Text " "]
               (to_int (to_size_t (strlen (label_spec node) + 1))), Done tt)
    else
      match offsets s !! this_ node with
      | None => (s, Fault NullDeref)
      | Some l =>
          let L := strlen (label_spec node) + 1 in
          if given_length l >? L then
            (with_ss s [Field (to_int (given_length l / 2 + L / 2)) (label_spec node +:+ " ");
                        Field (to_int (to_size_t (given_length l / 2 - L / 2))) " "]
                     (to_int (given_length l)), Done tt)
          else (s, Fault AssertionFailed)
      end.
Proof.
  intros Hl. unfold print_node, with_ss, given_length.
  unfold bind, lift, put, set_current_offset, modify, ret, gets.
  rewrite (getString_label node Hl).
  destruct (isLeaf node).
  - cbn. by rewrite <- app_assoc.
  - destruct (offsets s !! this_ node) as [l|]; [|reflexivity].
    rewrite strlen_app. change (strlen " ") with 1.
    destruct (to_unsigned (end_ l - begin_ l) >? strlen (label_spec node) + 1); [|reflexivity].
    cbn. by rewrite <- app_assoc.
Qed.

(** C7, amended.  In the render pass a leaf writes its label and one space.
    An internal node whose span (as an unsigned number) exceeds [L], the
    length of its label plus one, writes its label and one space right-aligned
    in a field of width [span/2 + L/2], then one space right-aligned in a
    field of width [span/2 - L/2]. *)
Theorem print_node_output (node : Node) (s : rstate) :
  label_ok node ->
  (isLeaf node = true ->
   print_node node s
   = (with_ss s [Text (label_spec node); Text " "]
              (to_int (to_size_t (strlen (label_spec node) + 1))), Done tt))
  /\ (isLeaf node = false ->
      forall l, offsets s !! this_ node = Some l ->
      let span := to_unsigned (end_ l - begin_ l) in
      let L := strlen (label_spec node) + 1 in
      span > L ->
      print_node node s
      = (with_ss s [Field (to_int (span / 2 + L / 2)) (label_spec node +:+ " ");
                    Field (to_int (to_size_t (span / 2 - L / 2))) " "]
                 (to_int span), Done tt)).
Proof.
  intros Hl. rewrite (print_node_run node s Hl). split.
  - intros ->. reflexivity.
  - intros -> l -> span L Hspan. cbn zeta. fold (given_length l) in span.
    destruct (Z.gtb_spec (given_length l) (strlen (label_spec node) + 1)); [reflexivity|].
    unfold span, L in Hspan. unfold given_length in *. lia.
Qed.

(** The state in which pass 1 leaves the rendering of [t10]: the root spans
    the columns 0 to 9. *)
Definition measured_t10 : rstate := (pass1 t10 t10 initial).1.

Lemma print_node_output_witness :
  print_node (leaf 101 (Some 100) [5]) initial
  = (mkR ∅ [] 4 [Text "[5]"; Text " "] [], Done tt)
  /\ print_node t10 measured_t10
     = (with_ss measured_t10 [Field 6 "[10] "; Field 2 " "] 9, Done tt).
Proof.
  split.
  - apply (proj1 (print_node_output (leaf 101 (Some 100) [5]) initial
                    ltac:(vm_compute; split; discriminate))).
    reflexivity.
  - apply (proj2 (print_node_output t10 measured_t10
                    ltac:(vm_compute; split; discriminate))
             eq_refl (mkLoc 0 9)).
    + vm_compute. reflexivity.
    + vm_compute. reflexivity.
Defined.

(** *** Pass 1 holds no assertion

    The faults of an access: an index outside an array is the only way in
    which [index] and [getString] go wrong. *)

Lemma index_fault_kind {A} (a : list A) (i : Z) (f : fault) :
  index a i = Fault f -> f = OutOfBounds.
Proof.
  unfold index. destruct (0 <=? i); [destruct (a !! Z.to_nat i)|]; congruence.
Qed.

Lemma getString_middle_fault_kind (keys idxs : list Z) (ss : string) (f : fault) :
  getString_middle keys idxs ss = Fault f -> f = OutOfBounds.
Proof.
  revert ss. induction idxs as [|i idxs IH]; intros ss; [discriminate|].
  cbn [getString_middle]. destruct (index keys i) as [k|f'] eqn:E; cbn [obind].
  - apply IH.
  - intros [= <-]. by apply index_fault_kind in E.
Qed.

Lemma getString_fault_kind (n : Node) (f : fault) :
  getString n = Fault f -> f = OutOfBounds.
Proof.
  unfold getString. destruct (num_keys_ n =? 0); [discriminate|].
  destruct (index (keys_ n) 0) as [k0|f0] eqn:E0; cbn [obind];
    [|intros [= <-]; by apply index_fault_kind in E0].
  destruct (getString_middle _ _ _) as [ss|f1] eqn:E1; cbn [obind];
    [|intros [= <-]; by apply getString_middle_fault_kind in E1].
  destruct (1 <? num_keys_ n); [|discriminate].
  destruct (index (keys_ n) (num_keys_ n - 1)) as [kl|f2] eqn:E2; cbn [obind];
    [discriminate | intros [= <-]; by apply index_fault_kind in E2].
Qed.

Lemma getMyChildIdx_no_abort (heap n : Node) :
  getMyChildIdx heap n <> Fault AssertionFailed.
Proof.
  unfold getMyChildIdx, deref. destruct (parent_ n); [|discriminate].
  destruct (find _ _); cbn [obind]; [|discriminate].
  destruct (list_find _ _) as [[i c]|]; discriminate.
Qed.

Lemma never_gets {S A} (f : fault) (g : S -> A) : never f (gets g).
Proof. intros s. discriminate. Qed.

Lemma never_deref_abort {S} (heap : Node) (a : addr) :
  never AssertionFailed (lift (deref heap a) : ST S Node).
Proof. apply never_lift. unfold deref. destruct (find _ _); discriminate. Qed.

Lemma never_getString_abort {S} (n : Node) :
  never AssertionFailed (lift (getString n) : ST S string).
Proof. apply never_lift. intros H. by apply getString_fault_kind in H. Qed.

Lemma SetBeginLocation_no_abort (heap : Node) (fuel : nat) :
  forall node x, never AssertionFailed (SetBeginLocation heap fuel node x).
Proof.
  induction fuel as [|fuel IH]; intros node x; [by apply never_lift|].
  cbn [SetBeginLocation]. apply never_bind; [apply never_gets|]. intros offs.
  destruct (offs !! this_ node) as [l|]; [|apply never_modify].
  apply never_bind; [apply never_modify|]. intros _.
  destruct (parent_ node) as [pa|]; [|apply never_ret].
  apply never_bind; [apply never_lift, getMyChildIdx_no_abort|]. intros myidx.
  destruct (myidx =? 0); [|apply never_ret].
  apply never_bind; [apply never_deref_abort | intros p; apply IH].
Qed.

Lemma SetEndLocation_no_abort (heap : Node) (fuel : nat) :
  forall node x, never AssertionFailed (SetEndLocation heap fuel node x).
Proof.
  induction fuel as [|fuel IH]; intros node x; [by apply never_lift|].
  cbn [SetEndLocation]. apply never_bind; [apply never_gets|]. intros offs.
  destruct (offs !! this_ node) as [l|]; [|apply never_modify].
  apply never_bind; [apply never_modify|]. intros _.
  destruct (parent_ node) as [pa|]; [|apply never_ret].
  apply never_bind; [apply never_lift, getMyChildIdx_no_abort|]. intros myidx.
  apply never_bind; [apply never_deref_abort|]. intros p.
  destruct (myidx =? num_keys_ p); [|apply never_ret].
  apply never_bind; [apply never_getString_abort | intros me; apply IH].
Qed.

Lemma measure_node_no_abort (heap node : Node) :
  never AssertionFailed (measure_node heap node).
Proof.
  unfold measure_node. destruct (isLeaf node); [|apply never_modify].
  apply never_bind; [apply never_gets|]. intros start_offset.
  apply never_bind; [apply never_getString_abort|]. intros me.
  apply never_bind; [apply never_modify|]. intros _.
  apply never_bind; [apply never_gets|]. intros current.
  apply never_bind; [apply never_modify|]. intros _.
  apply never_bind; [apply SetBeginLocation_no_abort|]. intros _.
  apply SetEndLocation_no_abort.
Qed.

Lemma push_children_no_abort (node : Node) : never AssertionFailed (push_children node).
Proof.
  unfold push_children. apply never_for_each. intros i [].
  apply never_bind.
  - apply never_lift. intros H. by apply index_fault_kind in H.
  - intros [c|]; [apply never_modify | apply never_ret].
Qed.

Lemma measure_loop_no_abort (heap : Node) (fuel : nat) :
  never AssertionFailed (measure_loop heap fuel).
Proof.
  induction fuel as [|fuel IH]; intros s.
  - cbn [measure_loop]. destruct (nodes_to_be_printed s); discriminate.
  - cbn [measure_loop]. destruct (nodes_to_be_printed s) as [|front rest]; [discriminate|].
    revert s. apply never_bind; [apply never_modify|]. intros _.
    destruct front as [|node].
    + apply never_bind; [apply never_modify|]. intros _.
      apply never_bind; [apply never_modify|]. intros _.
      apply never_bind; [apply never_gets|]. intros [|[|n] q]; [exact IH | apply never_ret | exact IH].
    + apply never_bind; [apply measure_node_no_abort|]. intros _.
      apply never_bind; [apply push_children_no_abort | intros _; exact IH].
Qed.

(** C5, as stated, fails: rendering the leaf [5] of [t10] on its own, the
    propagation of its begin-offset does not find the entry of its parent;
    "logic error" is printed, and this rendering goes on and returns its
    text. *)
Lemma render_goes_on_after_logic_error :
  exists s,
    getStringAll t10 (leaf 101 (Some 100) [5]) = (s, Done ("[5] " +:+ nl +:+ nl))
    /\ cout_r s = ["logic error" +:+ nl].
Proof. eexists. split; [vm_compute; reflexivity | reflexivity]. Qed.

(** C5, amended.  When [SetBeginLocation] or [SetEndLocation] does not find
    the entry of its node in the offset map, it prints "logic error" and
    returns normally to its caller; the offset map, the deque, the current
    offset and the text written so far stay as they are.  Nothing is aborted:
    no run of the two functions, and no run of pass 1, from which they are
    called, ends at an assertion. *)
Theorem propagation_without_entry (heap node : Node) (fuel : nat) (x : Z) (s : rstate) :
  (offsets s !! this_ node = None ->
   let s' := mkR (offsets s) (nodes_to_be_printed s) (current_offset s) (ss s)
                 (cout_r s ++ ["logic error" +:+ nl]) in
   SetBeginLocation heap (S fuel) node x s = (s', Done tt)
   /\ SetEndLocation heap (S fuel) node x s = (s', Done tt))
  /\ (SetBeginLocation heap fuel node x s).2 <> Fault AssertionFailed
  /\ (SetEndLocation heap fuel node x s).2 <> Fault AssertionFailed
  /\ (pass1 heap node s).2 <> Fault AssertionFailed.
Proof.
  split; [|split; [|split]].
  - intros Hnone s'. split; cbn [SetBeginLocation SetEndLocation];
      unfold bind, gets; rewrite Hnone; reflexivity.
  - apply SetBeginLocation_no_abort.
  - apply SetEndLocation_no_abort.
  - revert s. unfold pass1.
    apply never_bind; [apply never_modify|]. intros _.
    apply never_bind; [apply never_modify|]. intros _.
    apply measure_loop_no_abort.
Qed.

Lemma propagation_without_entry_witness :
  SetBeginLocation t10 1 t10 0 initial = (mkR ∅ [] 0 [] ["logic error" +:+ nl], Done tt)
  /\ SetEndLocation t10 1 t10 0 initial = (mkR ∅ [] 0 [] ["logic error" +:+ nl], Done tt).
Proof. apply (proj1 (propagation_without_entry t10 t10 0 0 initial)). reflexivity. Defined.

(** ** The layout engine: the two traversals *)

(** The children of a node, in slot order. *)
Definition kids (n : Node) : list Node := omap id (children_ n).

Definition all_nodes (l : list Node) : list Node := concat (nodes <$> l).

(** The deque during a traversal: the rest of the current level, the
    sentinel, and the part of the next level found so far. *)
Definition queue_of (cur next : list Node) : list qitem :=
  (ptr <$> cur) ++ end_of_level :: (ptr <$> next).

(** A bound on the iterations that remain. *)
Definition weight (cur next : list Node) : nat :=
  (2 * length (all_nodes cur) - length cur + 2 * length (all_nodes next) + 1)%nat.

Lemma nodes_kids (n : Node) : nodes n = n :: all_nodes (kids n).
Proof.
  destruct n as [a pa nk ks cs]. cbn [nodes children_]. f_equal.
  unfold all_nodes, kids. cbn [children_].
  induction cs as [|[c|] cs IH]; cbn in *; by rewrite ?IH.
Qed.

Lemma all_nodes_cons (n : Node) (l : list Node) :
  all_nodes (n :: l) = n :: all_nodes (kids n) ++ all_nodes l.
Proof. unfold all_nodes at 1. cbn [fmap list_fmap concat]. by rewrite nodes_kids. Qed.

Lemma all_nodes_app (l1 l2 : list Node) : all_nodes (l1 ++ l2) = all_nodes l1 ++ all_nodes l2.
Proof. unfold all_nodes. by rewrite fmap_app, concat_app. Qed.

Lemma all_nodes_length (l : list Node) : (length l <= length (all_nodes l))%nat.
Proof.
  induction l as [|n l IH]; [cbn; lia|].
  rewrite all_nodes_cons. cbn [length]. rewrite length_app. lia.
Qed.

Lemma push_children_run (n : Node) (s : rstate) :
  length (children_ n) = 4%nat ->
  push_children n s
  = (mkR (offsets s) (nodes_to_be_printed s ++ (ptr <$> kids n)) (current_offset s)
         (ss s) (cout_r s), Done tt).
Proof.
  intros Hlen. unfold push_children, kids.
  destruct (children_ n) as [|c0 [|c1 [|c2 [|c3 [|]]]]]; try discriminate.
  change (range 0 kMaxNumChildren) with [0; 1; 2; 3].
  destruct s as [o q co st cr].
  destruct c0, c1, c2, c3; cbv -[app]; rewrite <- ?app_assoc, ?app_nil_r; reflexivity.
Qed.

(** The assertion of line 283 fails at the node. *)
Definition assertion_failsb (offs : gmap addr location) (n : Node) : bool :=
  negb (isLeaf n)
  && match offs !! this_ n with
     | Some l => given_length l <=? strlen (label_spec n) + 1
     | None => false
     end.

(** The arrays of the nodes have their declared sizes. *)
Definition arrays_ok (n : Node) : Prop :=
  label_ok n /\ length (children_ n) = Z.to_nat kMaxNumChildren.

Lemma print_loop_outcome (fuel : nat) :
  forall cur next s,
    nodes_to_be_printed s = queue_of cur next ->
    (forall n, n ∈ all_nodes (cur ++ next) ->
       arrays_ok n /\ is_Some (offsets s !! this_ n)) ->
    (weight cur next <= fuel)%nat ->
    (print_loop fuel s).2
    = if existsb (assertion_failsb (offsets s)) (all_nodes (cur ++ next))
      then Fault AssertionFailed else Done tt.
Proof.
  induction fuel as [|fuel IH]; intros cur next s Hq Hok Hfuel.
  { unfold weight in Hfuel. lia. }
  destruct s as [offs q co st cr]. cbn [nodes_to_be_printed offsets] in *. subst q.
  destruct cur as [|n cur].
  - (* the sentinel is at the front *)
    cbn [print_loop queue_of fmap list_fmap app nodes_to_be_printed].
    unfold bind, set_queue, put, modify, gets. cbn [nodes_to_be_printed].
    destruct next as [|n next].
    + reflexivity.
    + cbn [fmap list_fmap app].
      rewrite (IH (n :: next) [] _); cbn [nodes_to_be_printed offsets].
      * by rewrite app_nil_r.
      * unfold queue_of. reflexivity.
      * intros m Hm. rewrite app_nil_r in Hm. by apply Hok.
      * unfold weight in Hfuel |- *. change (all_nodes []) with (@nil Node) in *.
        pose proof (all_nodes_length (n :: next)). cbn [length] in *. lia.
  - (* a node is at the front *)
    cbn [print_loop queue_of fmap list_fmap app nodes_to_be_printed].
    unfold bind at 1, set_queue at 1, modify at 1.
    cbn [app] in Hok. rewrite all_nodes_cons in Hok |- *.
    destruct (Hok n ltac:(by left)) as [[Hl Hlen] [l Hcov]].
    unfold bind at 1. rewrite (print_node_run n _ Hl).
    cbn [existsb offsets]. unfold assertion_failsb at 1. rewrite Hcov.
    destruct (isLeaf n) eqn:Hleaf; cbn [negb andb orb].
    + unfold with_ss. cbn [offsets nodes_to_be_printed current_offset ss cout_r].
      unfold bind at 1. rewrite (push_children_run n _ Hlen).
      cbn [offsets nodes_to_be_printed current_offset ss cout_r].
      rewrite (IH cur (next ++ kids n) _); cbn [nodes_to_be_printed offsets].
      * rewrite !existsb_app, !all_nodes_app, !existsb_app.
        generalize (existsb (assertion_failsb offs) (all_nodes (kids n))),
          (existsb (assertion_failsb offs) (all_nodes cur)),
          (existsb (assertion_failsb offs) (all_nodes next)).
        intros b1 b2 b3. by destruct b1, b2, b3.
      * unfold queue_of. rewrite fmap_app, <- app_assoc. reflexivity.
      * intros m Hm. apply Hok. right.
        repeat (rewrite all_nodes_app in Hm || rewrite elem_of_app in Hm).
        repeat (rewrite all_nodes_app || rewrite elem_of_app). tauto.
      * unfold weight in *. rewrite all_nodes_cons in Hfuel.
        rewrite !all_nodes_app, !length_app in *. cbn [length] in Hfuel.
        rewrite length_app in Hfuel.
        pose proof (all_nodes_length cur). lia.
    + cbn zeta. destruct (Z.gtb_spec (given_length l) (strlen (label_spec n) + 1)) as [Hgt|Hle].
      * destruct (Z.leb_spec (given_length l) (strlen (label_spec n) + 1)); [lia|].
        cbn [orb].
        unfold with_ss. cbn [offsets nodes_to_be_printed current_offset ss cout_r].
        unfold bind at 1. rewrite (push_children_run n _ Hlen).
        cbn [offsets nodes_to_be_printed current_offset ss cout_r].
        rewrite (IH cur (next ++ kids n) _); cbn [nodes_to_be_printed offsets].
        -- rewrite !existsb_app, !all_nodes_app, !existsb_app.
           generalize (existsb (assertion_failsb offs) (all_nodes (kids n))),
             (existsb (assertion_failsb offs) (all_nodes cur)),
             (existsb (assertion_failsb offs) (all_nodes next)).
           intros b1 b2 b3. by destruct b1, b2, b3.
        -- unfold queue_of. rewrite fmap_app, <- app_assoc. reflexivity.
        -- intros m Hm. apply Hok. right.
           repeat (rewrite all_nodes_app in Hm || rewrite elem_of_app in Hm).
           repeat (rewrite all_nodes_app || rewrite elem_of_app). tauto.
        -- unfold weight in *. rewrite all_nodes_cons in Hfuel.
           rewrite !all_nodes_app, !length_app in *. cbn [length] in Hfuel.
           rewrite length_app in Hfuel.
           pose proof (all_nodes_length cur). lia.
      * destruct (Z.leb_spec (given_length l) (strlen (label_spec n) + 1)); [|lia].
        reflexivity.
Qed.

(** *** Pass 1 gives every node an entry *)

(** The deque is as it was, and no entry of the offset map is lost. *)
Definition keeps (s s' : rstate) : Prop :=
  nodes_to_be_printed s' = nodes_to_be_printed s
  /\ forall a, is_Some (offsets s !! a) -> is_Some (offsets s' !! a).

#[local] Instance keeps_preorder : PreOrder keeps.
Proof.
  split.
  - intros s. by split.
  - intros s1 s2 s3 [Hq1 Hd1] [Hq2 Hd2]. split; [congruence | auto].
Qed.

Lemma keeps_insert (a : addr) (l : location) : always keeps (set_offsets (insert a l)).
Proof.
  intros s. split; [reflexivity|]. intros b Hb. cbn.
  destruct (decide (a = b)) as [->|Hne]; [rewrite lookup_insert_eq | rewrite lookup_insert_ne]; done.
Qed.

Lemma keeps_emplace (a : addr) (l : location) : always keeps (set_offsets (emplace a l)).
Proof.
  intros s. split; [reflexivity|]. intros b Hb. cbn. unfold emplace.
  destruct (offsets s !! a); [done|].
  destruct (decide (a = b)) as [->|Hne]; [rewrite lookup_insert_eq | rewrite lookup_insert_ne]; done.
Qed.

Lemma keeps_print_cout (m : string) : always keeps (print_cout m).
Proof. intros s. by split. Qed.

Lemma keeps_set_current_offset (z : Z) : always keeps (set_current_offset z).
Proof. intros s. by split. Qed.

Lemma SetBeginLocation_keeps (heap : Node) (fuel : nat) :
  forall node x, always keeps (SetBeginLocation heap fuel node x).
Proof.
  induction fuel as [|fuel IH]; intros node x; [apply always_lift, _|].
  cbn [SetBeginLocation]. apply always_bind; [apply _ | apply always_gets, _ |].
  intros offs. destruct (offs !! this_ node) as [l|]; [|apply keeps_print_cout].
  apply always_bind; [apply _ | apply keeps_insert |]. intros _.
  destruct (parent_ node) as [pa|]; [|apply always_ret, _].
  apply always_bind; [apply _ | apply always_lift, _ |]. intros myidx.
  destruct (myidx =? 0); [|apply always_ret, _].
  apply always_bind; [apply _ | apply always_lift, _ |]. intros p. apply IH.
Qed.

Lemma SetEndLocation_keeps (heap : Node) (fuel : nat) :
  forall node x, always keeps (SetEndLocation heap fuel node x).
Proof.
  induction fuel as [|fuel IH]; intros node x; [apply always_lift, _|].
  cbn [SetEndLocation]. apply always_bind; [apply _ | apply always_gets, _ |].
  intros offs. destruct (offs !! this_ node) as [l|]; [|apply keeps_print_cout].
  apply always_bind; [apply _ | apply keeps_insert |]. intros _.
  destruct (parent_ node) as [pa|]; [|apply always_ret, _].
  apply always_bind; [apply _ | apply always_lift, _ |]. intros myidx.
  apply always_bind; [apply _ | apply always_lift, _ |]. intros p.
  destruct (myidx =? num_keys_ p); [|apply always_ret, _].
  apply always_bind; [apply _ | apply always_lift, _ |]. intros me. apply IH.
Qed.

Lemma emplace_covers (a : addr) (l : location) (m : gmap addr location) :
  is_Some (emplace a l m !! a).
Proof.
  unfold emplace. destruct (m !! a) eqn:E; [by rewrite E|]. by rewrite lookup_insert_eq.
Qed.

Lemma measure_node_covers (heap n : Node) (s s' : rstate) :
  measure_node heap n s = (s', Done tt) ->
  keeps s s' /\ is_Some (offsets s' !! this_ n).
Proof.
  unfold measure_node. destruct (isLeaf n).
  - intros H.
    apply bind_inv in H as (start & s1 & [= <- <-] & H).
    apply bind_inv in H as (me & s2 & Hme & H).
    unfold lift in Hme. injection Hme as <- Hme.
    apply bind_inv in H as ([] & s3 & [= <-] & H).
    apply bind_inv in H as (current & s4 & [= <- <-] & H).
    apply bind_inv in H as ([] & s5 & [= <-] & H).
    apply bind_inv in H as ([] & s6 & Hb & He).
    match type of Hb with SetBeginLocation _ _ _ _ ?t = _ =>
      pose proof (SetBeginLocation_keeps heap (size heap) n (current_offset s) t) as Hk1 end.
    rewrite Hb in Hk1. cbn [fst] in Hk1.
    match type of He with SetEndLocation _ _ _ ?z _ = _ =>
      pose proof (SetEndLocation_keeps heap (size heap) n z s6) as Hk2 end.
    rewrite He in Hk2. cbn [fst] in Hk2.
    destruct Hk1 as [Hq1 Hd1], Hk2 as [Hq2 Hd2].
    cbn [nodes_to_be_printed offsets] in Hq1, Hd1.
    split; [split|].
    + congruence.
    + intros a Ha. apply Hd2, Hd1. by apply (keeps_emplace _ _ s).
    + apply Hd2, Hd1. apply emplace_covers.
  - intros [= <-]. split; [apply keeps_emplace | apply emplace_covers].
Qed.

Lemma measure_loop_covers (heap : Node) (fuel : nat) :
  forall cur next s s',
    nodes_to_be_printed s = queue_of cur next ->
    (forall n, n ∈ all_nodes (cur ++ next) -> length (children_ n) = 4%nat) ->
    measure_loop heap fuel s = (s', Done tt) ->
    (forall a, is_Some (offsets s !! a) -> is_Some (offsets s' !! a))
    /\ forall n, n ∈ all_nodes (cur ++ next) -> is_Some (offsets s' !! this_ n).
Proof.
  induction fuel as [|fuel IH]; intros cur next s s' Hq Hlen Hrun.
  { destruct s as [offs q co st cr]. cbn [nodes_to_be_printed] in Hq. subst q.
    destruct cur; discriminate Hrun. }
  destruct s as [offs q co st cr]. cbn [nodes_to_be_printed offsets] in *. subst q.
  destruct cur as [|n cur].
  - cbn [measure_loop queue_of fmap list_fmap app nodes_to_be_printed] in Hrun.
    unfold bind, set_queue, set_current_offset, modify, gets in Hrun.
    cbn [nodes_to_be_printed offsets current_offset ss cout_r] in Hrun.
    destruct next as [|n next].
    + injection Hrun as <-. split; [done|]. intros n Hn. inversion Hn.
    + cbn [fmap list_fmap app] in Hrun.
      apply (IH (n :: next) []) in Hrun; [|reflexivity|].
      * cbn [offsets] in Hrun. by rewrite app_nil_r in Hrun.
      * intros m Hm. rewrite app_nil_r in Hm. by apply Hlen.
  - cbn [measure_loop queue_of fmap list_fmap app nodes_to_be_printed] in Hrun.
    apply bind_inv in Hrun as ([] & s0 & [= <-] & Hrun).
    apply bind_inv in Hrun as ([] & s1 & Hnode & Hrun).
    apply bind_inv in Hrun as ([] & s2 & Hpush & Hrun).
    apply measure_node_covers in Hnode as [[Hq1 Hd1] Hcov].
    cbn [nodes_to_be_printed offsets] in Hq1, Hd1.
    cbn [app] in Hlen |- *. rewrite all_nodes_cons in Hlen |- *.
    rewrite (push_children_run n s1 (Hlen n ltac:(by left))) in Hpush.
    injection Hpush as <-.
    apply (IH cur (next ++ kids n)) in Hrun as [Hd2 Hcov2];
      cbn [nodes_to_be_printed offsets] in *.
    + split; [auto|]. intros m Hm. apply elem_of_cons in Hm as [->|Hm]; [auto|].
      apply Hcov2.
      repeat (rewrite all_nodes_app in Hm || rewrite elem_of_app in Hm).
      repeat (rewrite all_nodes_app || rewrite elem_of_app). tauto.
    + rewrite Hq1. unfold queue_of. rewrite fmap_app, <- app_assoc. reflexivity.
    + intros m Hm. apply Hlen. right.
      repeat (rewrite all_nodes_app in Hm || rewrite elem_of_app in Hm).
      repeat (rewrite all_nodes_app || rewrite elem_of_app). tauto.
Qed.

(** *** Pass 1 ends normally on a tree with consistent references *)

(** The tree as a heap of its own: distinct addresses, a root without
    parent, and every child records the address of its owner. *)
Definition linked (t : Node) : Prop :=
  NoDup (this_ <$> nodes t)
  /\ parent_ t = None
  /\ forall n c, n ∈ nodes t -> Some c ∈ children_ n -> parent_ c = Some (this_ n).

(** The node occurs in the tree, [d] levels below the root. *)
Inductive at_depth (t : Node) : Node -> nat -> Prop :=
| at_root : at_depth t t 0
| at_child (n c : Node) (d : nat) :
    at_depth t n d -> Some c ∈ children_ n -> at_depth t c (S d).

Lemma nodes_trans (t n m : Node) : n ∈ nodes t -> m ∈ nodes n -> m ∈ nodes t.
Proof.
  revert n m. induction t as [a pa nk ks cs IH] using Node_ind. intros n m Hn Hm.
  cbn [nodes children_] in Hn |- *. apply elem_of_cons in Hn as [->|Hn]; [exact Hm|].
  right. apply list_elem_of_In, in_concat in Hn as (l & Hl & Hn).
  apply in_map_iff in Hl as ([c|] & <- & Hc); [|inversion Hn].
  apply list_elem_of_In. apply in_concat. exists (nodes c). split.
  - apply in_map_iff. by exists (Some c).
  - apply list_elem_of_In. rewrite Forall_forall in IH.
    apply (IH (Some c) (proj2 (list_elem_of_In _ _) Hc) n m); [by apply list_elem_of_In | done].
Qed.

Lemma at_depth_nodes (t n : Node) (d : nat) : at_depth t n d -> n ∈ nodes t.
Proof.
  induction 1 as [|n c d _ IH Hc]; [apply nodes_head|].
  apply (nodes_trans t n c IH). apply (nodes_child n c Hc), nodes_head.
Qed.

Lemma size_child (n c : Node) : Some c ∈ children_ n -> (size c < size n)%nat.
Proof.
  intros Hc. unfold size. destruct n as [a pa nk ks cs]. cbn [nodes children_ length] in *.
  apply PeanoNat.Nat.lt_succ_r.
  induction cs as [|c' cs IH]; [inversion Hc|].
  cbn [map concat]. rewrite length_app.
  apply elem_of_cons in Hc as [<-|Hc]; [lia|]. specialize (IH Hc). lia.
Qed.

Lemma at_depth_size (t n : Node) (d : nat) : at_depth t n d -> (d + size n <= size t)%nat.
Proof.
  induction 1 as [|n c d _ IH Hc]; [lia|].
  pose proof (size_child n c Hc). lia.
Qed.

Lemma find_address (l : list Node) (p : Node) :
  NoDup (this_ <$> l) -> p ∈ l ->
  find (fun n => bool_decide (this_ n = this_ p)) l = Some p.
Proof.
  induction l as [|n l IH]; intros Hnd Hp; [inversion Hp|].
  rewrite fmap_cons in Hnd. apply NoDup_cons in Hnd as [Hn Hnd].
  cbn [find]. apply elem_of_cons in Hp as [->|Hp].
  - by rewrite bool_decide_eq_true_2.
  - rewrite bool_decide_eq_false_2; [by apply IH|].
    intros E. apply Hn. rewrite E. by apply list_elem_of_fmap_2.
Qed.

Section Linked.
Variable t : Node.
Hypothesis t_linked : linked t.
Hypothesis t_arrays : forall n, n ∈ nodes t -> arrays_ok n.

Lemma deref_node (p : Node) : p ∈ nodes t -> deref t (this_ p) = Done p.
Proof.
  intros Hp. unfold deref. destruct t_linked as (Hnd & _ & _).
  by rewrite (find_address (nodes t) p Hnd Hp).
Qed.

Lemma getMyChildIdx_done (n c : Node) :
  n ∈ nodes t -> Some c ∈ children_ n -> exists i, getMyChildIdx t c = Done i.
Proof.
  intros Hn Hc. unfold getMyChildIdx.
  destruct t_linked as (_ & _ & Hpar). rewrite (Hpar n c Hn Hc).
  rewrite (deref_node n Hn). cbn [obind].
  destruct (list_find_elem_of
              (fun c' : option Node => bool_decide (this_ <$> c' = Some (this_ c)))
              (children_ n) (Some c) Hc) as [[i c'] Hfind].
  { by rewrite bool_decide_eq_true_2. }
  rewrite Hfind. by eexists.
Qed.

Lemma SetBeginLocation_done (n : Node) (d : nat) :
  at_depth t n d ->
  forall fuel x s, (d < fuel)%nat -> exists s', SetBeginLocation t fuel n x s = (s', Done tt).
Proof.
  induction 1 as [|n c d Hn IH Hc]; intros fuel x s Hfuel.
  - destruct fuel as [|fuel]; [lia|]. cbn [SetBeginLocation]. unfold bind, gets.
    destruct (offsets s !! this_ t); [|by eexists].
    destruct t_linked as (_ & -> & _). by eexists.
  - destruct fuel as [|fuel]; [lia|]. cbn [SetBeginLocation]. unfold bind at 1, gets.
    destruct (offsets s !! this_ c) as [l|]; [|by eexists].
    unfold bind at 1, set_offsets, modify.
    pose proof (at_depth_nodes t n d Hn) as Hnt.
    destruct t_linked as (_ & _ & Hpar). rewrite (Hpar n c Hnt Hc).
    destruct (getMyChildIdx_done n c Hnt Hc) as [i Hi].
    unfold bind at 1, lift at 1. rewrite Hi.
    destruct (i =? 0); [|by eexists].
    unfold bind at 1, lift at 1. rewrite (deref_node n Hnt).
    apply IH. lia.
Qed.

Lemma SetEndLocation_done (n : Node) (d : nat) :
  at_depth t n d ->
  forall fuel x s, (d < fuel)%nat -> exists s', SetEndLocation t fuel n x s = (s', Done tt).
Proof.
  induction 1 as [|n c d Hn IH Hc]; intros fuel x s Hfuel.
  - destruct fuel as [|fuel]; [lia|]. cbn [SetEndLocation]. unfold bind, gets.
    destruct (offsets s !! this_ t); [|by eexists].
    destruct t_linked as (_ & -> & _). by eexists.
  - destruct fuel as [|fuel]; [lia|]. cbn [SetEndLocation]. unfold bind at 1, gets.
    destruct (offsets s !! this_ c) as [l|]; [|by eexists].
    unfold bind at 1, set_offsets, modify.
    pose proof (at_depth_nodes t n d Hn) as Hnt.
    pose proof (at_depth_nodes t c (S d) (at_child t n c d Hn Hc)) as Hct.
    destruct t_linked as (_ & _ & Hpar). rewrite (Hpar n c Hnt Hc).
    destruct (getMyChildIdx_done n c Hnt Hc) as [i Hi].
    unfold bind at 1, lift at 1. rewrite Hi.
    unfold bind at 1, lift at 1. rewrite (deref_node n Hnt).
    destruct (i =? num_keys_ n); [|by eexists].
    unfold bind at 1, lift at 1.
    rewrite (getString_label c (proj1 (t_arrays c Hct))).
    apply IH. lia.
Qed.

Lemma measure_node_done (n : Node) (d : nat) (s : rstate) :
  at_depth t n d ->
  exists s', measure_node t n s = (s', Done tt).
Proof.
  intros Hn. unfold measure_node.
  pose proof (at_depth_nodes t n d Hn) as Hnt.
  pose proof (at_depth_size t n d Hn) as Hsize.
  assert (d < size t)%nat as Hd.
  { unfold size in *. rewrite (nodes_kids n) in Hsize. cbn [length] in Hsize. lia. }
  destruct (isLeaf n); [|by eexists].
  unfold bind at 1, gets at 1. unfold bind at 1, lift at 1.
  rewrite (getString_label n (proj1 (t_arrays n Hnt))).
  unfold bind at 1, set_current_offset at 1, modify at 1.
  unfold bind at 1, gets at 1. unfold bind at 1, set_offsets at 1, modify at 1.
  cbn [offsets nodes_to_be_printed current_offset ss cout_r].
  match goal with |- exists _, bind (SetBeginLocation _ _ _ ?x) _ ?s0 = _ =>
    destruct (SetBeginLocation_done n d Hn (size t) x s0 Hd) as [s1 H1] end.
  rewrite (bind_done _ _ _ _ _ H1).
  apply (SetEndLocation_done n d Hn). exact Hd.
Qed.

Lemma measure_loop_done (fuel : nat) :
  forall cur next s,
    nodes_to_be_printed s = queue_of cur next ->
    (forall n, n ∈ cur ++ next -> exists d, at_depth t n d) ->
    (weight cur next <= fuel)%nat ->
    exists s', measure_loop t fuel s = (s', Done tt).
Proof.
  induction fuel as [|fuel IH]; intros cur next s Hq Hin Hfuel.
  { unfold weight in Hfuel. lia. }
  destruct s as [offs q co st cr]. cbn [nodes_to_be_printed] in Hq. subst q.
  destruct cur as [|n cur].
  - cbn [measure_loop queue_of fmap list_fmap app nodes_to_be_printed].
    unfold bind, set_queue, set_current_offset, modify, gets.
    cbn [nodes_to_be_printed offsets current_offset ss cout_r].
    destruct next as [|n next]; [by eexists|].
    cbn [fmap list_fmap app]. apply (IH (n :: next) []).
    + reflexivity.
    + intros m Hm. rewrite app_nil_r in Hm. by apply Hin.
    + unfold weight in Hfuel |- *. change (all_nodes []) with (@nil Node) in *.
      pose proof (all_nodes_length (n :: next)). cbn [length] in *. lia.
  - cbn [measure_loop queue_of fmap list_fmap app nodes_to_be_printed].
    unfold bind at 1, set_queue at 1, modify at 1.
    destruct (Hin n ltac:(by left)) as [d Hd].
    match goal with |- exists _, bind _ _ ?s0 = _ =>
      destruct (measure_node_done n d s0 Hd) as [s1 H1];
      pose proof (measure_node_covers t n s0 s1 H1) as [[Hq1 _] _] end.
    rewrite (bind_done _ _ _ _ _ H1).
    pose proof (at_depth_nodes t n d Hd) as Hnt.
    unfold bind at 1. rewrite (push_children_run n s1 (proj2 (t_arrays n Hnt))).
    apply (IH cur (next ++ kids n)).
    + cbn [nodes_to_be_printed] in *. rewrite Hq1.
      unfold queue_of. rewrite fmap_app, <- app_assoc. reflexivity.
    + intros m Hm. rewrite app_assoc in Hm. apply elem_of_app in Hm as [Hm|Hm].
      * apply Hin. by right.
      * exists (S d). apply (at_child t n m d Hd).
        unfold kids in Hm. apply list_elem_of_omap in Hm as (o & Ho & Hid).
        cbn in Hid. by subst o.
    + unfold weight in *. rewrite all_nodes_cons in Hfuel.
      rewrite !all_nodes_app, !length_app in *. cbn [length] in Hfuel.
      rewrite length_app in Hfuel.
      pose proof (all_nodes_length cur). lia.
Qed.

(** On a tree with consistent references and arrays of the declared sizes,
    pass 1 ends normally. *)
Lemma pass1_done : exists s1, pass1 t t initial = (s1, Done tt).
Proof.
  unfold pass1, bind, set_queue, modify. cbn [nodes_to_be_printed app].
  apply (measure_loop_done (2 * size t) [t] []).
  - reflexivity.
  - intros n Hn. apply list_elem_of_singleton in Hn as ->. exists 0%nat. constructor.
  - unfold weight, all_nodes, size. cbn. rewrite app_nil_r.
    rewrite nodes_kids. cbn [length]. lia.
Qed.

End Linked.

(** *** The assertion *)

(** The state in which the loop of pass 2 starts. *)
Definition render_start (t : Node) (s1 : rstate) : rstate :=
  mkR (offsets s1) [ptr t; end_of_level] 0 (ss s1) (cout_r s1).

Lemma getStringAll_outcome (heap t : Node) (s1 : rstate) :
  pass1 heap t initial = (s1, Done tt) ->
  (getStringAll heap t).2
  = match print_loop (2 * size t) (render_start t s1) with
    | (s2, Done _) => Done (str (ss s2 ++ [Text nl]))
    | (_, Fault f) => Fault f
    end.
Proof.
  intros Hp1. unfold getStringAll, render. unfold bind at 1.
  rewrite (bind_done _ _ _ _ _ Hp1). unfold pass2.
  unfold bind, set_queue, set_current_offset, modify, put, gets, ret.
  cbn [offsets nodes_to_be_printed current_offset ss cout_r app].
  fold (render_start t s1).
  by destruct (print_loop (2 * size t) (render_start t s1)) as [s2 [[]|f]].
Qed.

Lemma pass1_covers (heap t : Node) (s1 : rstate) :
  (forall n, n ∈ nodes t -> arrays_ok n) ->
  pass1 heap t initial = (s1, Done tt) ->
  forall n, n ∈ nodes t -> is_Some (offsets s1 !! this_ n).
Proof.
  intros Harr Hp1 n Hn. unfold pass1 in Hp1.
  apply bind_inv in Hp1 as ([] & s & [= <-] & Hp1).
  apply bind_inv in Hp1 as ([] & s' & [= <-] & Hp1).
  apply (measure_loop_covers heap _ [t] []) in Hp1 as [_ Hcov].
  - apply Hcov. unfold all_nodes. cbn. by rewrite app_nil_r.
  - reflexivity.
  - intros m Hm. unfold all_nodes in Hm. cbn in Hm. rewrite app_nil_r in Hm.
    by apply Harr.
Qed.

Lemma render_outcome (heap t : Node) (s1 : rstate) :
  (forall n, n ∈ nodes t -> arrays_ok n) ->
  pass1 heap t initial = (s1, Done tt) ->
  (print_loop (2 * size t) (render_start t s1)).2
  = if existsb (assertion_failsb (offsets s1)) (nodes t)
    then Fault AssertionFailed else Done tt.
Proof.
  intros Harr Hp1.
  rewrite (print_loop_outcome (2 * size t) [t] [] (render_start t s1)).
  - cbn [render_start offsets]. unfold all_nodes. cbn. by rewrite app_nil_r.
  - reflexivity.
  - intros n Hn. unfold all_nodes in Hn. cbn in Hn. rewrite app_nil_r in Hn.
    split; [by apply Harr | by apply (pass1_covers heap t s1)].
  - unfold weight, all_nodes, size. cbn. rewrite app_nil_r.
    rewrite nodes_kids. cbn [length]. lia.
Qed.

Lemma assertion_failsb_spec (offs : gmap addr location) (l : list Node) :
  existsb (assertion_failsb offs) l = true
  <-> exists n loc, n ∈ l /\ isLeaf n = false /\ offs !! this_ n = Some loc
                    /\ given_length loc <= strlen (label_spec n) + 1.
Proof.
  rewrite existsb_exists. unfold assertion_failsb. split.
  - intros (n & Hn & H). apply andb_true_iff in H as [H1 H2].
    destruct (offs !! this_ n) as [loc|] eqn:E; [|discriminate].
    exists n, loc. split; [by apply list_elem_of_In|].
    split; [by destruct (isLeaf n)|]. split; [exact E | lia].
  - intros (n & loc & Hn & Hleaf & Hloc & Hle).
    exists n. split; [by apply list_elem_of_In|].
    rewrite Hleaf, Hloc. cbn. lia.
Qed.

(** A tree whose second internal node has one key and only its first child. *)
Definition lopsided : Node :=
  node 1 None [10; 20]
    [ Some (node 2 (Some 1) [5] [Some (leaf 5 (Some 2) [1]); Some (leaf 6 (Some 2) [7])]);
      Some (node 3 (Some 1) [15] [Some (leaf 7 (Some 3) [12])]);
      Some (node 4 (Some 1) [25] [Some (leaf 8 (Some 4) [22]); Some (leaf 9 (Some 4) [27])]) ].

(** C10, as stated, fails: pass 1 leaves the internal node [15] of
    [lopsided] with the span 0 - 8, which does not exceed the width of its
    label, and the rendering does not abort. *)
Lemma negative_span_passes_assertion :
  exists s1 n l,
    pass1 lopsided lopsided initial = (s1, Done tt)
    /\ n ∈ nodes lopsided
    /\ isLeaf n = false
    /\ offsets s1 !! this_ n = Some l
    /\ end_ l - begin_ l = -8
    /\ end_ l - begin_ l <= strlen (label_spec n)
    /\ is_done (getStringAll lopsided lopsided).2 = true.
Proof.
  assert (exists s2, render lopsided lopsided initial = (s2, Done tt)) as [s2 Hr].
  { eexists. vm_compute. reflexivity. }
  eexists. exists (node 3 (Some 1) [15] [Some (leaf 7 (Some 3) [12])]). eexists.
  split; [vm_compute; reflexivity|].
  split; [vm_compute; do 4 apply list_elem_of_further; apply list_elem_of_here|].
  split; [reflexivity|].
  split; [vm_compute; reflexivity|].
  split; [reflexivity|].
  split; [vm_compute; discriminate|].
  unfold getStringAll. rewrite (bind_done _ _ _ _ _ Hr). reflexivity.
Qed.

(** C10, amended.  In the render pass the assertion compares, at every
    internal node, the span held as an unsigned number (the difference of
    end-offset and begin-offset modulo 2^32) with the length of the label
    plus one.  Pass 1 ends normally on every tree with consistent
    references; after a pass 1 that ended normally, the rendering ends in an
    assertion failure exactly when some internal node has an unsigned span
    that does not exceed its label length plus one, and it returns its text
    exactly when every internal node has an unsigned span above that. *)
Theorem assertion_failure_iff (heap t : Node) :
  (forall n, n ∈ nodes t -> arrays_ok n) ->
  (linked t -> exists s1, pass1 t t initial = (s1, Done tt))
  /\ forall s1,
       pass1 heap t initial = (s1, Done tt) ->
       ((getStringAll heap t).2 = Fault AssertionFailed
        <-> exists n l, n ∈ nodes t /\ isLeaf n = false /\ offsets s1 !! this_ n = Some l
                        /\ given_length l <= strlen (label_spec n) + 1)
       /\ (is_done (getStringAll heap t).2 = true
           <-> forall n l, n ∈ nodes t -> isLeaf n = false ->
                           offsets s1 !! this_ n = Some l ->
                           given_length l > strlen (label_spec n) + 1).
Proof.
  intros Harr. split; [intros Hl; by apply pass1_done|]. intros s1 Hp1.
  rewrite (getStringAll_outcome heap t s1 Hp1).
  pose proof (render_outcome heap t s1 Harr Hp1) as Hout.
  pose proof (assertion_failsb_spec (offsets s1) (nodes t)) as Hspec.
  destruct (print_loop (2 * size t) (render_start t s1)) as [s2 o]. cbn [snd] in Hout.
  subst o. destruct (existsb (assertion_failsb (offsets s1)) (nodes t)).
  - split.
    + split; [intros _; by apply Hspec | reflexivity].
    + split; [discriminate|]. intros Hall.
      destruct (proj1 Hspec eq_refl) as (n & l & Hn & Hleaf & Hl & Hle).
      specialize (Hall n l Hn Hleaf Hl). lia.
  - split.
    + split; [discriminate|]. intros H. apply Hspec in H. discriminate.
    + split; [|reflexivity]. intros _ n l Hn Hleaf Hl.
      destruct (Z.le_gt_cases (given_length l) (strlen (label_spec n) + 1)) as [Hle|Hgt]; [|lia].
      assert (false = true) as E; [|discriminate E].
      apply Hspec. by exists n, l.
Qed.

Lemma arrays_ok_t10 : forall n, n ∈ nodes t10 -> arrays_ok n.
Proof.
  intros n Hn. vm_compute in Hn.
  repeat (apply elem_of_cons in Hn as [->|Hn]); [| | |inversion Hn];
    (split; [vm_compute; split; discriminate | reflexivity]).
Defined.

Lemma assertion_failure_iff_witness :
  is_done (getStringAll t10 t10).2 = true
  <-> forall n l, n ∈ nodes t10 -> isLeaf n = false ->
                  offsets (pass1 t10 t10 initial).1 !! this_ n = Some l ->
                  given_length l > strlen (label_spec n) + 1.
Proof.
  apply (proj2 (assertion_failure_iff t10 t10 arrays_ok_t10) (pass1 t10 t10 initial).1).
  vm_compute. reflexivity.
Defined.

(** * Further properties of the debug operations *)

(** ** Labels outside the key count *)



(** ** The iterator's debug text *)

(** X2.  [const_iterator::getString] never reads the key under the cursor:
    for the null iterator it returns its text whatever the index is, and for
    a cursor on a node it fails only if the label of the node does.  On a
    node whose count fits its array the text is "it: " followed by the
    description of the position: after the end when the index equals the
    count (also index 0 of a node without keys), before the beginning when
    it is -1, and the label and the index otherwise, in range or not. *)
Theorem it_getString_text (it : const_iterator) :
  (node_ it = None ->
   it_getString it = Done ("it: nullptr, idx = " +:+ show_key (idx_ it)))
  /\ (forall n, node_ it = Some n ->
        is_done (it_getString it) = is_done (getString n)
        /\ (label_ok n ->
            it_getString it
            = Done ("it: " +:+
                    (if idx_ it =? num_keys_ n then
                       "after end iterator (node:" +:+ label_spec n +:+ "), idx = "
                     else if idx_ it =? -1 then
                       "before beginning iterator (node:" +:+ label_spec n +:+ "), idx = "
                     else "n:" +:+ label_spec n +:+ " idx_:")
                    +:+ show_key (idx_ it)))).
Proof.
  destruct it as [[n|] i]; cbn [node_ idx_]; split; try discriminate.
  - intros m [= <-]. unfold it_getString. cbn [node_ idx_]. split.
    + destruct (i =? num_keys_ n); [|destruct (i =? -1)]; by destruct (getString n).
    + intros Hl. rewrite (getString_label n Hl).
      destruct (i =? num_keys_ n); [|destruct (i =? -1)]; cbn [obind];
        by rewrite !append_assoc.
  - reflexivity.
Qed.

Lemma it_getString_text_witness :
  it_getString (mkIt (Some (leaf 101 (Some 100) [5; 7])) 2)
  = Done "it: after end iterator (node:[5, 7]), idx = 2".
Proof.
  apply (proj2 (proj2 (it_getString_text (mkIt (Some (leaf 101 (Some 100) [5; 7])) 2))
                      (leaf 101 (Some 100) [5; 7]) eq_refl)).
  vm_compute. split; discriminate.
Defined.

(** ** The validator: how a run ends *)

(** X3.  Whenever [validateRelationships] returns, it has written nothing to
    [std::cout] exactly when it returns [true]: every failure comes with a
    message, and no message is written for a tree that passes. *)
Theorem validate_silent_iff_true (heap t : Node) (s : vstate) (b : bool) :
  validateRelationships heap t = (s, Done b) -> (cout s = [] <-> b = true).
Proof. intros H. by apply validateRelationships_inv in H as [_ H]. Qed.

Lemma validate_silent_iff_true_witness :
  cout (validateRelationships wrong_parent wrong_parent).1 = [] <-> false = true.
Proof.
  apply (validate_silent_iff_true wrong_parent wrong_parent
           (validateRelationships wrong_parent wrong_parent).1 false).
  vm_compute. reflexivity.
Defined.

Section OtherFaults.
Variable f : fault.
Hypothesis f_not_bounds : f <> OutOfBounds.
Hypothesis f_not_null : f <> NullDeref.
Hypothesis f_not_dangling : f <> DanglingPointer.

Lemma never_index {S A} (a : list A) (i : Z) : never f (lift (index a i) : ST S A).
Proof. apply never_lift. intros H. by apply index_fault_kind in H. Qed.

Lemma never_getString {S} (n : Node) : never f (lift (getString n) : ST S string).
Proof. apply never_lift. intros H. by apply getString_fault_kind in H. Qed.

Lemma never_complaint (b : bool) (r : report) :
  never f (when b (set_rc_false ;;; print r)).
Proof.
  destruct b; [|apply never_ret].
  apply never_bind; [apply never_modify | intros; apply never_modify].
Qed.

Lemma never_key (n : Node) (i : Z) : never f (read_key n i).
Proof. apply never_bind; [apply never_modify | intros; apply never_index]. Qed.

Lemma never_child_check (n c : Node) (b : Z -> Z -> bool) (r : Z -> Z -> report)
    (i j cnt : Z) :
  never f (ck <- read_key c i ;;
           k <- read_key n j ;;
           when (b ck k) (set_rc_false ;;; print (r ck k)) ;;;
           push_back (Some n, c) ;;;
           ret (cnt + 1)).
Proof.
  apply never_bind; [apply never_key|]. intros ck.
  apply never_bind; [apply never_key|]. intros k.
  apply never_bind; [apply never_complaint|]. intros _.
  apply never_bind; [apply never_modify | intros; apply never_ret].
Qed.

Lemma never_deref {S} (heap : Node) (a : addr) : never f (lift (deref heap a) : ST S Node).
Proof. apply never_lift. unfold deref. destruct (find _ _); congruence. Qed.

Lemma validate_node_never (heap : Node) (check : option Node * Node) :
  never f (validate_node heap check).
Proof.
  unfold validate_node. apply never_bind.
  { unfold check_parent, when. destruct (negb _); [|apply never_ret].
    apply never_bind; [apply never_modify|]. intros _.
    apply never_bind; [apply never_getString|]. intros me.
    apply never_bind; [apply never_modify|]. intros _.
    apply never_bind; [apply never_modify|]. intros _.
    apply never_bind; [destruct check.1; [apply never_getString | apply never_ret]|].
    intros expected.
    apply never_bind; [apply never_modify|]. intros _.
    apply never_bind; [apply never_modify|]. intros _.
    apply never_bind; [|intros; apply never_modify].
    destruct (parent_ check.2); [|apply never_ret].
    apply never_bind; [apply never_deref | intros q; apply never_getString]. }
  intros _. apply never_bind.
  { apply never_for_each. intros i [].
    apply never_bind; [apply never_key|]. intros a.
    apply never_bind; [apply never_key|]. intros b. apply never_complaint. }
  intros _. apply never_bind.
  { apply never_for_each. intros i acc.
    apply never_bind; [apply never_index|]. intros [c|]; [|apply never_ret].
    apply (never_child_check check.2 c Z.gtb LeftChildTooBig). }
  intros cnt. apply never_bind.
  { unfold check_last_child.
    apply never_bind; [apply never_index|]. intros [c|]; [|apply never_ret].
    apply (never_child_check check.2 c Z.ltb RightChildTooSmall). }
  intros cnt'. unfold check_count, when. destruct (_ && _); [|apply never_ret].
  apply never_bind; [apply never_getString|]. intros me.
  apply never_bind; [apply never_modify|]. intros _.
  apply never_bind; [|intros; apply never_modify].
  apply never_for_each. intros i [].
  apply never_bind; [apply never_index|].
  intros [c|]; [|by apply never_lift; intros [= <-]].
  apply never_bind; [apply never_getString | intros; apply never_modify].
Qed.

Lemma validate_loop_never (heap : Node) (fuel : nat) :
  f <> OutOfFuel -> never f (validate_loop heap fuel).
Proof.
  intros Hf. induction fuel as [|fuel IH]; intros s.
  - destruct s as [r c [|check q] rd]; cbn; congruence.
  - destruct s as [r c [|check q] rd]; [discriminate|].
    cbn [validate_loop allNodes rc cout reads].
    apply (never_bind f (validate_node heap check) (fun _ => validate_loop heap fuel));
      [apply validate_node_never | intros _; apply IH].
Qed.

End OtherFaults.

(** X4.  [TwoFourTree::validate] comes to an end on every tree: the loop
    pops one pair for each node it reaches, and a run either returns its
    result or stops at an access without defined behaviour: an index outside
    an array, a null pointer, or a stored [parent_] that is the address of
    no node of the tree, which the message of the parent check dereferences.
    On a tree without root it is the null [root_] that is dereferenced.
    Each of the four ends occurs. *)
Theorem validate_ends (root_ : option Node) :
  ((exists b, tree_validate root_ = Done b)
   \/ tree_validate root_ = Fault OutOfBounds
   \/ tree_validate root_ = Fault NullDeref
   \/ tree_validate root_ = Fault DanglingPointer)
  /\ tree_validate (Some t10) = Done true
  /\ tree_validate (Some zero_key_owner) = Fault OutOfBounds
  /\ tree_validate None = Fault NullDeref
  /\ tree_validate (Some stale_parent) = Fault DanglingPointer.
Proof.
  split; [|repeat split; vm_compute; reflexivity].
  destruct root_ as [t|]; [|right; right; by left]. cbn [tree_validate].
  destruct (validate t) as [b|f] eqn:E; [left; by exists b|]. right.
  destruct f; [by left | right; by left | right; by right | exfalso .. ].
  3: { by apply validate_never_out_of_fuel in E. }
  all: revert E; unfold validate, validateRelationships;
    match goal with |- (bind ?m ?k ?s).2 = Fault ?f -> False =>
      apply (never_bind f m k);
        [apply validate_loop_never; discriminate | intros _ s'; discriminate]
    end.
Qed.

(** ** The layout engine: the text, level by level *)

(** The nodes [d] levels below a node, from left to right. *)
Fixpoint level (d : nat) (n : Node) : list Node :=
  match d with
  | O => [n]
  | S d' => concat (level d' <$> kids n)
  end.

(** The number of levels of a tree. *)
Fixpoint height (n : Node) : nat :=
  S (foldr Nat.max 0%nat
       (map (fun c => match c with Some m => height m | None => 0%nat end) (children_ n))).

(** The same for a row of trees. *)
Definition flevel (d : nat) (l : list Node) : list Node := concat (level d <$> l).
Definition fheight (l : list Node) : nat := foldr Nat.max 0%nat (height <$> l).
Definition next_level (l : list Node) : list Node := concat (kids <$> l).

(** What the render pass writes for a node, given the offset map. *)
Definition node_chunks (offs : gmap addr location) (n : Node) : list chunk :=
  if isLeaf n then [Text (label_spec n); Text " "]
  else
    match offs !! this_ n with
    | Some l =>
        let L := strlen (label_spec n) + 1 in
        [Field (to_int (given_length l / 2 + L / 2)) (label_spec n +:+ " ");
         Field (to_int (to_size_t (given_length l / 2 - L / 2))) " "]
    | None => []
    end.

(** A line: the nodes of a level and the newline. *)
Definition line (offs : gmap addr location) (l : list Node) : list chunk :=
  concat (node_chunks offs <$> l) ++ [Text nl].

(** The lines of all levels of a row of trees. *)
Definition lines (offs : gmap addr location) (l : list Node) : list chunk :=
  concat ((fun d => line offs (flevel d l)) <$> seq 0 (fheight l)).

Lemma height_kids (n : Node) : height n = S (fheight (kids n)).
Proof.
  destruct n as [a pa nk ks cs]. cbn [height children_]. f_equal.
  unfold fheight, kids. cbn [children_].
  induction cs as [|[c|] cs IH]; cbn in *; by rewrite ?IH.
Qed.

Lemma fheight_app (l1 l2 : list Node) :
  fheight (l1 ++ l2) = Nat.max (fheight l1) (fheight l2).
Proof.
  unfold fheight. induction l1 as [|n l1 IH]; [reflexivity|].
  cbn [fmap list_fmap app foldr] in *. rewrite IH. lia.
Qed.

Lemma fheight_next (l : list Node) : l <> [] -> fheight l = S (fheight (next_level l)).
Proof.
  induction l as [|n l IH]; [done|]. intros _.
  change (fheight (n :: l)) with (Nat.max (height n) (fheight l)).
  change (next_level (n :: l)) with (kids n ++ next_level l).
  rewrite fheight_app, height_kids.
  destruct l as [|m l]; [cbn; lia|]. rewrite IH by done. lia.
Qed.

Lemma flevel_0 (l : list Node) : flevel 0 l = l.
Proof.
  unfold flevel. induction l as [|n l IH]; [reflexivity|].
  cbn [fmap list_fmap concat level app] in *. by rewrite IH.
Qed.

Lemma flevel_app (d : nat) (l1 l2 : list Node) :
  flevel d (l1 ++ l2) = flevel d l1 ++ flevel d l2.
Proof. unfold flevel. by rewrite fmap_app, concat_app. Qed.

Lemma flevel_S (d : nat) (l : list Node) : flevel (S d) l = flevel d (next_level l).
Proof.
  induction l as [|n l IH]; [reflexivity|].
  change (next_level (n :: l)) with (kids n ++ next_level l).
  rewrite flevel_app, <- IH. reflexivity.
Qed.

Lemma lines_nil (offs : gmap addr location) : lines offs [] = [].
Proof. reflexivity. Qed.

Lemma lines_cons (offs : gmap addr location) (l : list Node) :
  l <> [] -> lines offs l = line offs l ++ lines offs (next_level l).
Proof.
  intros Hl. unfold lines. rewrite (fheight_next l Hl).
  cbn [seq fmap list_fmap concat]. rewrite flevel_0. f_equal.
  rewrite <- seq_shift, <- list_fmap_compose. f_equal.
  apply list_fmap_ext. intros i d _. cbn. by rewrite flevel_S.
Qed.

Lemma lines_tree (offs : gmap addr location) (t : Node) :
  lines offs [t] = concat ((fun d => line offs (level d t)) <$> seq 0 (height t)).
Proof.
  unfold lines. replace (fheight [t]) with (height t) by (cbn; lia).
  f_equal. apply list_fmap_ext. intros i d _. unfold flevel. cbn. by rewrite app_nil_r.
Qed.

Lemma line_cons (offs : gmap addr location) (n : Node) (l : list Node) :
  line offs (n :: l) = node_chunks offs n ++ line offs l.
Proof. unfold line. cbn [fmap list_fmap concat]. by rewrite app_assoc. Qed.

(** A node of the render pass that is written: its chunks join the stream,
    and nothing else changes but the running offset. *)
Lemma print_node_inv (n : Node) (s s' : rstate) :
  label_ok n ->
  print_node n s = (s', Done tt) ->
  exists len, s' = with_ss s (node_chunks (offsets s) n) len.
Proof.
  intros Hl. rewrite (print_node_run n s Hl). unfold node_chunks.
  destruct (isLeaf n); [intros [= <-]; by eexists|].
  destruct (offsets s !! this_ n) as [l|]; [|discriminate]. cbn zeta.
  destruct (given_length l >? strlen (label_spec n) + 1); [|discriminate].
  intros [= <-]. by eexists.
Qed.

Lemma print_loop_text (fuel : nat) :
  forall cur next s s',
    nodes_to_be_printed s = queue_of cur next ->
    (forall n, n ∈ all_nodes (cur ++ next) -> arrays_ok n) ->
    print_loop fuel s = (s', Done tt) ->
    offsets s' = offsets s
    /\ cout_r s' = cout_r s
    /\ ss s' = ss s ++ line (offsets s) cur ++ lines (offsets s) (next ++ next_level cur).
Proof.
  induction fuel as [|fuel IH]; intros cur next s s' Hq Hok Hrun.
  { destruct s as [offs q co st cr]. cbn [nodes_to_be_printed] in Hq. subst q.
    destruct cur; discriminate Hrun. }
  destruct s as [offs q co st cr]. cbn [nodes_to_be_printed offsets ss cout_r] in *. subst q.
  destruct cur as [|n cur].
  - cbn [print_loop queue_of fmap list_fmap app nodes_to_be_printed] in Hrun.
    unfold bind, set_queue, put, modify, gets in Hrun.
    cbn [nodes_to_be_printed offsets current_offset ss cout_r] in Hrun.
    destruct next as [|n next].
    + injection Hrun as <-. by cbn.
    + cbn [fmap list_fmap app] in Hrun.
      apply (IH (n :: next) []) in Hrun; [|reflexivity|].
      * cbn [offsets ss cout_r] in Hrun. destruct Hrun as (Ho & Hc & Hs).
        split; [exact Ho|]. split; [exact Hc|]. rewrite Hs.
        change (next_level []) with (@nil Node). rewrite app_nil_r.
        rewrite (lines_cons offs (n :: next)) by done.
        cbn [app]. by rewrite <- app_assoc.
      * intros m Hm. rewrite app_nil_r in Hm. by apply Hok.
  - cbn [print_loop queue_of fmap list_fmap app nodes_to_be_printed] in Hrun.
    apply bind_inv in Hrun as ([] & s0 & [= <-] & Hrun).
    apply bind_inv in Hrun as ([] & s1 & Hnode & Hrun).
    apply bind_inv in Hrun as ([] & s2 & Hpush & Hrun).
    cbn [app] in Hok. rewrite all_nodes_cons in Hok.
    destruct (Hok n ltac:(by left)) as [Hl Hlen].
    apply (print_node_inv n _ _ Hl) in Hnode as [len ->].
    rewrite (push_children_run n _ Hlen) in Hpush. injection Hpush as <-.
    unfold with_ss in Hrun. cbn [offsets nodes_to_be_printed current_offset ss cout_r] in *.
    apply (IH cur (next ++ kids n)) in Hrun.
    + cbn [offsets ss cout_r] in Hrun. destruct Hrun as (Ho & Hc & Hs).
      split; [exact Ho|]. split; [exact Hc|]. rewrite Hs, line_cons.
      change (next_level (n :: cur)) with (kids n ++ next_level cur).
      by rewrite <- !app_assoc.
    + cbn [nodes_to_be_printed]. unfold queue_of. rewrite fmap_app, <- app_assoc. reflexivity.
    + intros m Hm. apply Hok. right.
      repeat (rewrite all_nodes_app in Hm || rewrite elem_of_app in Hm).
      repeat (rewrite all_nodes_app || rewrite elem_of_app). tauto.
Qed.

(** Pass 1 writes nothing to the stream. *)
Definition same_ss (s s' : rstate) : Prop := ss s' = ss s.

#[local] Instance same_ss_preorder : PreOrder same_ss.
Proof. split; [by intros s | intros s1 s2 s3 H1 H2; unfold same_ss in *; congruence]. Qed.

Lemma SetBeginLocation_same_ss (heap : Node) (fuel : nat) :
  forall node x, always same_ss (SetBeginLocation heap fuel node x).
Proof.
  induction fuel as [|fuel IH]; intros node x; [apply always_lift, _|].
  cbn [SetBeginLocation]. apply always_bind; [apply _ | apply always_gets, _ |].
  intros offs. destruct (offs !! this_ node) as [l|]; [|by intros s].
  apply always_bind; [apply _ | by intros s |]. intros _.
  destruct (parent_ node) as [pa|]; [|apply always_ret, _].
  apply always_bind; [apply _ | apply always_lift, _ |]. intros myidx.
  destruct (myidx =? 0); [|apply always_ret, _].
  apply always_bind; [apply _ | apply always_lift, _ |]. intros p. apply IH.
Qed.

Lemma SetEndLocation_same_ss (heap : Node) (fuel : nat) :
  forall node x, always same_ss (SetEndLocation heap fuel node x).
Proof.
  induction fuel as [|fuel IH]; intros node x; [apply always_lift, _|].
  cbn [SetEndLocation]. apply always_bind; [apply _ | apply always_gets, _ |].
  intros offs. destruct (offs !! this_ node) as [l|]; [|by intros s].
  apply always_bind; [apply _ | by intros s |]. intros _.
  destruct (parent_ node) as [pa|]; [|apply always_ret, _].
  apply always_bind; [apply _ | apply always_lift, _ |]. intros myidx.
  apply always_bind; [apply _ | apply always_lift, _ |]. intros p.
  destruct (myidx =? num_keys_ p); [|apply always_ret, _].
  apply always_bind; [apply _ | apply always_lift, _ |]. intros me. apply IH.
Qed.

Lemma push_children_same_ss (n : Node) : always same_ss (push_children n).
Proof.
  apply always_for_each; [apply _|]. intros i [] _.
  apply always_bind; [apply _ | apply always_lift, _ |].
  intros [c|]; [by intros s | apply always_ret, _].
Qed.

Lemma measure_node_same_ss (heap n : Node) : always same_ss (measure_node heap n).
Proof.
  unfold measure_node. destruct (isLeaf n); [|by intros s].
  apply always_bind; [apply _ | apply always_gets, _ |]. intros start.
  apply always_bind; [apply _ | apply always_lift, _ |]. intros me.
  apply always_bind; [apply _ | by intros s |]. intros _.
  apply always_bind; [apply _ | apply always_gets, _ |]. intros current.
  apply always_bind; [apply _ | by intros s |]. intros _.
  apply always_bind; [apply _ | apply SetBeginLocation_same_ss |]. intros _.
  apply SetEndLocation_same_ss.
Qed.

Lemma measure_loop_same_ss (heap : Node) (fuel : nat) : always same_ss (measure_loop heap fuel).
Proof.
  induction fuel as [|fuel IH]; intros s.
  - destruct s as [offs [|front q] co st cr]; reflexivity.
  - destruct s as [offs [|front q] co st cr]; [reflexivity|].
    cbn [measure_loop nodes_to_be_printed].
    match goal with |- same_ss ?s0 (bind ?m ?k ?s0).1 =>
      apply (always_bind same_ss m k) end; [by intros s|]. intros _.
    destruct front as [|n].
    + apply always_bind; [apply _ | by intros s |]. intros _.
      apply always_bind; [apply _ | by intros s |]. intros _.
      apply always_bind; [apply _ | apply always_gets, _ |].
      intros [|[|m] q']; [apply IH | apply always_ret, _ | apply IH].
    + apply always_bind; [apply _ | apply measure_node_same_ss |]. intros _.
      apply always_bind; [apply _ | apply push_children_same_ss |]. intros _. apply IH.
Qed.

Lemma pass1_same_ss (heap t : Node) : always same_ss (pass1 heap t).
Proof.
  unfold pass1.
  apply always_bind; [apply _ | by intros s |]. intros _.
  apply always_bind; [apply _ | by intros s |]. intros _.
  apply measure_loop_same_ss.
Qed.

(** The text of a rendering that returns, and what the run left behind. *)
Lemma getStringAll_text (heap t : Node) (s : rstate) (text : string) :
  (forall n, n ∈ nodes t -> arrays_ok n) ->
  getStringAll heap t = (s, Done text) ->
  text = str (lines (offsets s) [t] ++ [Text nl])
  /\ exists s1, pass1 heap t initial = (s1, Done tt)
                /\ offsets s = offsets s1 /\ cout_r s = cout_r s1.
Proof.
  intros Harr Hrun. unfold getStringAll, render in Hrun.
  apply bind_inv in Hrun as ([] & s2 & Hrender & Hrun).
  apply bind_inv in Hrun as (st & s3 & [= <- <-] & [= <- <-]).
  apply bind_inv in Hrender as ([] & s1 & Hp1 & Hp2).
  pose proof (pass1_same_ss heap t (mkR ∅ [] 0 [] [])) as Hss. rewrite Hp1 in Hss.
  unfold same_ss in Hss. cbn in Hss.
  unfold pass2 in Hp2.
  apply bind_inv in Hp2 as ([] & sa & [= <-] & Hp2).
  apply bind_inv in Hp2 as ([] & sb & [= <-] & Hp2).
  apply bind_inv in Hp2 as ([] & sc & [= <-] & Hp2).
  apply bind_inv in Hp2 as ([] & sd & [= <-] & Hp2).
  apply bind_inv in Hp2 as ([] & se & Hloop & [= <-]).
  apply (print_loop_text _ [t] []) in Hloop as (Ho & Hc & Hs).
  - cbn [offsets ss cout_r app] in *. split.
    + rewrite Hs, Hss. cbn [app].
      change (next_level [t]) with (kids t ++ []). rewrite app_nil_r.
      rewrite Ho, (lines_cons (offsets s1) [t]) by done.
      change (next_level [t]) with (kids t ++ []). by rewrite app_nil_r.
    + exists s1. split; [exact Hp1 | by split].
  - reflexivity.
  - intros m Hm. unfold all_nodes in Hm. cbn in Hm. rewrite app_nil_r in Hm. by apply Harr.
Qed.

(** X5.  [getStringAll] prints the tree level by level: the text of a
    rendering that returns is, for each level from the root down, what the
    nodes of the level write, from left to right, and a newline, with one
    more newline at the end.  A leaf writes its label and a space, an
    internal node its two fields, whose widths come from the offsets that
    pass 1 left. *)
Theorem getStringAll_level_by_level (heap t : Node) (s : rstate) (text : string) :
  (forall n, n ∈ nodes t -> arrays_ok n) ->
  getStringAll heap t = (s, Done text) ->
  text = str (concat ((fun d => line (offsets s) (level d t)) <$> seq 0 (height t))
              ++ [Text nl]).
Proof.
  intros Harr Hrun. rewrite <- lines_tree.
  by destruct (getStringAll_text heap t s text Harr Hrun) as [-> _].
Qed.

Lemma getStringAll_level_by_level_witness :
  " [10]   " +:+ nl +:+ "[5] [12] " +:+ nl +:+ nl
  = str (concat ((fun d => line (offsets (getStringAll t10 t10).1) (level d t10))
                   <$> seq 0 (height t10))
         ++ [Text nl]).
Proof.
  apply (getStringAll_level_by_level t10 t10 (getStringAll t10 t10).1 _ arrays_ok_t10).
  vm_compute. reflexivity.
Defined.

(** *** The number of lines *)

Lemma count_newlines_app (a b : string) :
  count_newlines (a +:+ b) = (count_newlines a + count_newlines b)%nat.
Proof.
  induction a as [|x a IH]; [reflexivity|].
  change (String x a +:+ b) with (String x (a +:+ b)).
  cbn [count_newlines]. rewrite IH. lia.
Qed.

Lemma count_newlines_spaces (k : nat) : count_newlines (spaces k) = 0%nat.
Proof.
  induction k as [|k IH]; [reflexivity|].
  cbn [spaces]. by rewrite count_newlines_app, IH.
Qed.

Lemma count_newlines_uint (u : Decimal.uint) :
  count_newlines (NilEmpty.string_of_uint u) = 0%nat.
Proof. induction u; cbn; assumption || reflexivity. Qed.

Lemma count_newlines_show_key (k : Z) : count_newlines (show_key k) = 0%nat.
Proof.
  unfold show_key.
  destruct (Z.to_int k) as [u|u]; destruct u; cbn; apply count_newlines_uint || reflexivity.
Qed.

Lemma count_newlines_concat (l : list string) :
  Forall (fun x => count_newlines x = 0%nat) l ->
  count_newlines (String.concat ", " l) = 0%nat.
Proof.
  induction l as [|x l IH]; [reflexivity|]. intros H.
  apply Forall_cons in H as [Hx Hl].
  rewrite concat_tail_str, count_newlines_app, Hx. clear IH Hx.
  induction l as [|y l IH]; [reflexivity|].
  apply Forall_cons in Hl as [Hy Hl]. cbn [tail_str fold_right].
  rewrite !count_newlines_app, Hy. specialize (IH Hl). cbn in *. exact IH.
Qed.

Lemma count_newlines_label (n : Node) : count_newlines (label_spec n) = 0%nat.
Proof.
  unfold label_spec. rewrite !count_newlines_app, count_newlines_concat; [reflexivity|].
  apply Forall_fmap, Forall_forall. intros k _. apply count_newlines_show_key.
Qed.

Lemma count_newlines_str_app (a b : list chunk) :
  count_newlines (str (a ++ b)) = (count_newlines (str a) + count_newlines (str b))%nat.
Proof.
  induction a as [|c a IH]; [reflexivity|].
  change (str ((c :: a) ++ b)) with (chunk_str c +:+ str (a ++ b)).
  change (str (c :: a)) with (chunk_str c +:+ str a).
  rewrite !count_newlines_app, IH. lia.
Qed.

Lemma count_newlines_field (w : Z) (s : string) :
  count_newlines (chunk_str (Field w s)) = count_newlines s.
Proof. cbn [chunk_str]. by rewrite count_newlines_app, count_newlines_spaces. Qed.

Lemma count_newlines_node (offs : gmap addr location) (n : Node) :
  count_newlines (str (node_chunks offs n)) = 0%nat.
Proof.
  unfold node_chunks. destruct (isLeaf n).
  - cbn [str fold_right chunk_str]. by rewrite !count_newlines_app, count_newlines_label.
  - destruct (offs !! this_ n) as [l|]; [|reflexivity]. cbn zeta.
    cbn [str fold_right]. rewrite !count_newlines_app, !count_newlines_field.
    by rewrite count_newlines_app, count_newlines_label.
Qed.

Lemma count_newlines_line (offs : gmap addr location) (l : list Node) :
  count_newlines (str (line offs l)) = 1%nat.
Proof.
  unfold line. rewrite count_newlines_str_app.
  replace (count_newlines (str (concat (node_chunks offs <$> l)))) with 0%nat; [reflexivity|].
  induction l as [|n l IH]; [reflexivity|].
  cbn [fmap list_fmap concat]. by rewrite count_newlines_str_app, count_newlines_node.
Qed.

Lemma count_newlines_lines (offs : gmap addr location) (l : list Node) :
  count_newlines (str (lines offs l)) = fheight l.
Proof.
  unfold lines. generalize (fheight l), 0%nat. intros h. induction h as [|h IH]; intros k.
  - reflexivity.
  - cbn [seq fmap list_fmap concat].
    by rewrite count_newlines_str_app, count_newlines_line, IH.
Qed.

(** X6.  The text of a rendering that returns has one line for each level
    of the tree and an empty line after them: it holds exactly one newline
    more than the tree has levels, whatever the keys and the offsets. *)
Theorem getStringAll_line_count (heap t : Node) (s : rstate) (text : string) :
  (forall n, n ∈ nodes t -> arrays_ok n) ->
  getStringAll heap t = (s, Done text) ->
  count_newlines text = S (height t).
Proof.
  intros Harr Hrun.
  destruct (getStringAll_text heap t s text Harr Hrun) as [-> _].
  rewrite count_newlines_str_app, count_newlines_lines.
  change (count_newlines (str [Text nl])) with 1%nat.
  change (fheight [t]) with (Nat.max (height t) 0). lia.
Qed.

Lemma getStringAll_line_count_witness :
  count_newlines (" [10]   " +:+ nl +:+ "[5] [12] " +:+ nl +:+ nl) = S (height t10).
Proof.
  apply (getStringAll_line_count t10 t10 (getStringAll t10 t10).1 _ arrays_ok_t10).
  vm_compute. reflexivity.
Defined.

(** *** A tree of one node *)

Lemma isLeaf_kids (n : Node) : isLeaf n = true -> kids n = [].
Proof.
  unfold isLeaf, kids. induction (children_ n) as [|[c|] cs IH]; [done|done|].
  cbn. exact IH.
Qed.

Lemma isLeaf_no_child (n c : Node) : isLeaf n = true -> Some c ∈ children_ n -> False.
Proof.
  unfold isLeaf. rewrite forallb_forall. intros H Hc.
  apply list_elem_of_In in Hc. by apply H in Hc.
Qed.

Lemma leaf_nodes (t : Node) : isLeaf t = true -> nodes t = [t].
Proof. intros H. by rewrite nodes_kids, (isLeaf_kids t H). Qed.

Lemma leaf_linked (t : Node) : isLeaf t = true -> parent_ t = None -> linked t.
Proof.
  intros Hleaf Hp. unfold linked. rewrite (leaf_nodes t Hleaf). split; [|split].
  - apply NoDup_singleton.
  - exact Hp.
  - intros n c Hn Hc. apply list_elem_of_singleton in Hn as ->.
    destruct (isLeaf_no_child t c Hleaf Hc).
Qed.

(** X7.  A tree that consists of one leaf without parent is rendered as the
    label of the leaf, one space and two newlines: the line of the only level
    and the empty line. *)
Theorem single_leaf_text (t : Node) :
  isLeaf t = true -> arrays_ok t -> parent_ t = None ->
  tree_getString (Some t) = Done (label_spec t +:+ " " +:+ nl +:+ nl).
Proof.
  intros Hleaf Harr Hp. cbn [tree_getString].
  assert (forall n, n ∈ nodes t -> arrays_ok n) as Hall.
  { intros n Hn. rewrite (leaf_nodes t Hleaf) in Hn.
    by apply list_elem_of_singleton in Hn as ->. }
  destruct (pass1_done t (leaf_linked t Hleaf Hp) Hall) as [s1 Hp1].
  pose proof (getStringAll_outcome t t s1 Hp1) as Hout.
  pose proof (render_outcome t t s1 Hall Hp1) as Hloop.
  rewrite (leaf_nodes t Hleaf) in Hloop. cbn [existsb] in Hloop.
  unfold assertion_failsb in Hloop. rewrite Hleaf in Hloop. cbn [negb andb orb] in Hloop.
  destruct (print_loop (2 * size t) (render_start t s1)) as [s2 o]. cbn [snd] in Hloop.
  subst o. destruct (getStringAll t t) as [s o] eqn:Hrun. cbn [snd] in Hout |- *. subst o.
  destruct (getStringAll_text t t s _ Hall Hrun) as [Htext _].
  rewrite Htext, lines_tree, height_kids, (isLeaf_kids t Hleaf). f_equal.
  cbn [fheight fmap list_fmap foldr seq concat level app].
  unfold line. cbn [fmap list_fmap concat app]. unfold node_chunks. rewrite Hleaf.
  cbn [app str fold_right chunk_str]. by rewrite append_nil_r.
Qed.

Lemma single_leaf_text_witness :
  tree_getString (Some (leaf 100 None [5; 7])) = Done ("[5, 7]" +:+ " " +:+ nl +:+ nl).
Proof.
  apply (single_leaf_text (leaf 100 None [5; 7])); [reflexivity | | reflexivity].
  split; [vm_compute; split; discriminate | reflexivity].
Defined.

(** ** The layout engine: a tree with consistent references is rendered quietly *)

(** The node and all the nodes above it, up to the root, have an entry in
    the offset map. *)
Inductive covered (t : Node) (offs : gmap addr location) : Node -> Prop :=
| covered_root : is_Some (offs !! this_ t) -> covered t offs t
| covered_child (n c : Node) :
    covered t offs n -> Some c ∈ children_ n -> is_Some (offs !! this_ c) ->
    covered t offs c.

(** The nodes above the node have an entry: the node can be measured. *)
Definition pending (t : Node) (offs : gmap addr location) (n : Node) : Prop :=
  n = t \/ exists p, covered t offs p /\ Some n ∈ children_ p.

Lemma covered_mono (t : Node) (offs offs' : gmap addr location) (n : Node) :
  (forall a, is_Some (offs !! a) -> is_Some (offs' !! a)) ->
  covered t offs n -> covered t offs' n.
Proof.
  intros Hsub. induction 1 as [Ht|n c _ IH Hc Hn].
  - apply covered_root. by apply Hsub.
  - apply (covered_child t offs' n c IH Hc). by apply Hsub.
Qed.

Lemma pending_mono (t : Node) (offs offs' : gmap addr location) (n : Node) :
  (forall a, is_Some (offs !! a) -> is_Some (offs' !! a)) ->
  pending t offs n -> pending t offs' n.
Proof.
  intros Hsub [->|(p & Hp & Hc)]; [by left|].
  right. exists p. split; [by apply (covered_mono t offs) | exact Hc].
Qed.

Lemma covered_nodes (t : Node) (offs : gmap addr location) (n : Node) :
  covered t offs n -> n ∈ nodes t.
Proof.
  induction 1 as [|n c _ IH Hc _]; [apply nodes_head|].
  apply (nodes_trans t n c IH). apply (nodes_child n c Hc), nodes_head.
Qed.

Lemma pending_nodes (t : Node) (offs : gmap addr location) (n : Node) :
  pending t offs n -> n ∈ nodes t.
Proof.
  intros [->|(p & Hp & Hc)]; [apply nodes_head|].
  apply (nodes_trans t p n (covered_nodes t offs p Hp)).
  apply (nodes_child p n Hc), nodes_head.
Qed.

Lemma pending_covered (t : Node) (offs : gmap addr location) (n : Node) :
  pending t offs n -> is_Some (offs !! this_ n) -> covered t offs n.
Proof.
  intros [->|(p & Hp & Hc)] Hn; [by apply covered_root|].
  by apply (covered_child t offs p n).
Qed.

Section Quiet.
Variable t : Node.
Hypothesis t_linked : linked t.
Hypothesis t_arrays : forall n, n ∈ nodes t -> arrays_ok n.

Lemma SetBeginLocation_quiet (offs0 : gmap addr location) (n : Node) :
  covered t offs0 n ->
  forall fuel x s,
    (forall a, is_Some (offs0 !! a) -> is_Some (offsets s !! a)) ->
    cout_r (SetBeginLocation t fuel n x s).1 = cout_r s.
Proof.
  induction 1 as [Ht|n c Hn IH Hc Hcc]; intros fuel x s Hsub.
  - destruct fuel as [|fuel]; [reflexivity|]. cbn [SetBeginLocation]. unfold bind, gets.
    destruct (Hsub _ Ht) as [l ->].
    destruct t_linked as (_ & -> & _). reflexivity.
  - destruct fuel as [|fuel]; [reflexivity|]. cbn [SetBeginLocation]. unfold bind at 1, gets.
    destruct (Hsub _ Hcc) as [l ->].
    unfold bind at 1, set_offsets, modify.
    pose proof (covered_nodes t offs0 n Hn) as Hnt.
    destruct t_linked as (_ & _ & Hpar). rewrite (Hpar n c Hnt Hc).
    destruct (getMyChildIdx_done t t_linked n c Hnt Hc) as [i Hi].
    unfold bind at 1, lift at 1. rewrite Hi.
    destruct (i =? 0); [|reflexivity].
    unfold bind at 1, lift at 1. rewrite (deref_node t t_linked n Hnt).
    rewrite IH; [reflexivity|]. intros a Ha. cbn [offsets].
    destruct (decide (this_ c = a)) as [->|Hne];
      [rewrite lookup_insert_eq | rewrite lookup_insert_ne]; auto.
Qed.

Lemma SetEndLocation_quiet (offs0 : gmap addr location) (n : Node) :
  covered t offs0 n ->
  forall fuel x s,
    (forall a, is_Some (offs0 !! a) -> is_Some (offsets s !! a)) ->
    cout_r (SetEndLocation t fuel n x s).1 = cout_r s.
Proof.
  induction 1 as [Ht|n c Hn IH Hc Hcc]; intros fuel x s Hsub.
  - destruct fuel as [|fuel]; [reflexivity|]. cbn [SetEndLocation]. unfold bind, gets.
    destruct (Hsub _ Ht) as [l ->].
    destruct t_linked as (_ & -> & _). reflexivity.
  - destruct fuel as [|fuel]; [reflexivity|]. cbn [SetEndLocation]. unfold bind at 1, gets.
    destruct (Hsub _ Hcc) as [l ->].
    unfold bind at 1, set_offsets, modify.
    pose proof (covered_nodes t offs0 n Hn) as Hnt.
    destruct t_linked as (_ & _ & Hpar). rewrite (Hpar n c Hnt Hc).
    destruct (getMyChildIdx_done t t_linked n c Hnt Hc) as [i Hi].
    unfold bind at 1, lift at 1. rewrite Hi.
    unfold bind at 1, lift at 1. rewrite (deref_node t t_linked n Hnt).
    destruct (i =? num_keys_ n); [|reflexivity].
    unfold bind at 1, lift at 1.
    destruct (getString c) as [me|f]; [|reflexivity].
    rewrite IH; [reflexivity|]. intros a Ha. cbn [offsets].
    destruct (decide (this_ c = a)) as [->|Hne];
      [rewrite lookup_insert_eq | rewrite lookup_insert_ne]; auto.
Qed.

Lemma measure_node_quiet (n : Node) (s s' : rstate) :
  pending t (offsets s) n ->
  measure_node t n s = (s', Done tt) ->
  cout_r s' = cout_r s /\ covered t (offsets s') n.
Proof.
  intros Hpend Hrun.
  destruct (measure_node_covers t n s s' Hrun) as [[_ Hdom] Hentry].
  split; [|apply pending_covered; [by apply (pending_mono t (offsets s)) | exact Hentry]].
  revert Hrun. unfold measure_node. destruct (isLeaf n); [|by intros [= <-]].
  intros H.
  apply bind_inv in H as (start & s1 & [= <- <-] & H).
  apply bind_inv in H as (me & s2 & Hme & H).
  unfold lift in Hme. injection Hme as <- Hme.
  apply bind_inv in H as ([] & s3 & [= <-] & H).
  apply bind_inv in H as (current & s4 & [= <- <-] & H).
  apply bind_inv in H as ([] & s5 & [= <-] & H).
  apply bind_inv in H as ([] & s6 & Hb & He).
  match type of Hb with SetBeginLocation _ _ _ _ ?s0 = _ =>
    assert (covered t (offsets s0) n) as Hcov
      by (apply pending_covered;
          [apply (pending_mono t (offsets s)); [apply (keeps_emplace _ _ s) | exact Hpend]
          | apply emplace_covers]);
    pose proof (SetBeginLocation_quiet (offsets s0) n Hcov (size t) (current_offset s) s0
                  (fun a Ha => Ha)) as Hq1;
    pose proof (SetBeginLocation_keeps t (size t) n (current_offset s) s0) as [_ Hk1]
  end.
  rewrite Hb in Hq1, Hk1. cbn [fst cout_r] in Hq1, Hk1.
  match type of He with SetEndLocation _ _ _ ?z _ = _ =>
    pose proof (SetEndLocation_quiet _ n Hcov (size t) z s6 Hk1) as Hq2 end.
  rewrite He in Hq2. cbn [fst] in Hq2. congruence.
Qed.

Lemma measure_loop_quiet (fuel : nat) :
  forall cur next s s',
    nodes_to_be_printed s = queue_of cur next ->
    (forall n, n ∈ cur ++ next -> pending t (offsets s) n) ->
    measure_loop t fuel s = (s', Done tt) ->
    cout_r s' = cout_r s.
Proof.
  induction fuel as [|fuel IH]; intros cur next s s' Hq Hpend Hrun.
  { destruct s as [offs q co st cr]. cbn [nodes_to_be_printed] in Hq. subst q.
    destruct cur; discriminate Hrun. }
  destruct s as [offs q co st cr]. cbn [nodes_to_be_printed offsets cout_r] in *. subst q.
  destruct cur as [|n cur].
  - cbn [measure_loop queue_of fmap list_fmap app nodes_to_be_printed] in Hrun.
    unfold bind, set_queue, set_current_offset, modify, gets in Hrun.
    cbn [nodes_to_be_printed offsets current_offset ss cout_r] in Hrun.
    destruct next as [|n next]; [by injection Hrun as <-|].
    cbn [fmap list_fmap app] in Hrun.
    apply (IH (n :: next) []) in Hrun; [exact Hrun | reflexivity |].
    intros m Hm. rewrite app_nil_r in Hm. by apply Hpend.
  - cbn [measure_loop queue_of fmap list_fmap app nodes_to_be_printed] in Hrun.
    apply bind_inv in Hrun as ([] & s0 & [= <-] & Hrun).
    apply bind_inv in Hrun as ([] & s1 & Hnode & Hrun).
    apply bind_inv in Hrun as ([] & s2 & Hpush & Hrun).
    pose proof (Hpend n ltac:(by left)) as Hn.
    destruct (measure_node_covers t n _ s1 Hnode) as [[Hq1 Hdom] _].
    apply measure_node_quiet in Hnode as [Hc1 Hcov]; [|exact Hn].
    cbn [nodes_to_be_printed offsets cout_r] in Hq1, Hdom, Hc1.
    rewrite (push_children_run n s1 (proj2 (t_arrays n (pending_nodes t offs n Hn)))) in Hpush.
    injection Hpush as <-.
    apply (IH cur (next ++ kids n)) in Hrun; cbn [nodes_to_be_printed offsets cout_r] in *.
    + congruence.
    + rewrite Hq1. unfold queue_of. rewrite fmap_app, <- app_assoc. reflexivity.
    + intros m Hm. rewrite app_assoc in Hm. apply elem_of_app in Hm as [Hm|Hm].
      * apply (pending_mono t offs); [exact Hdom|]. apply Hpend. by right.
      * right. exists n. split; [exact Hcov|].
        unfold kids in Hm. apply list_elem_of_omap in Hm as (o & Ho & Hid).
        cbn in Hid. by subst o.
Qed.

Lemma pass1_quiet (s1 : rstate) : pass1 t t initial = (s1, Done tt) -> cout_r s1 = [].
Proof.
  unfold pass1. intros H.
  apply bind_inv in H as ([] & s & [= <-] & H).
  apply bind_inv in H as ([] & s' & [= <-] & H).
  apply (measure_loop_quiet _ [t] []) in H; [exact H | reflexivity |].
  intros n Hn. apply list_elem_of_singleton in Hn as ->. by left.
Qed.

End Quiet.

(** The render pass writes nothing to [std::cout]. *)
Definition same_cout (s s' : rstate) : Prop := cout_r s' = cout_r s.

#[local] Instance same_cout_preorder : PreOrder same_cout.
Proof. split; [by intros s | intros s1 s2 s3 H1 H2; unfold same_cout in *; congruence]. Qed.

Lemma print_node_same_cout (n : Node) : always same_cout (print_node n).
Proof.
  unfold print_node. apply always_bind; [apply _ | | intros len].
  - destruct (isLeaf n).
    + apply always_bind; [apply _ | apply always_lift, _ |]. intros me.
      apply always_bind; [apply _ | by intros s |]. intros _.
      apply always_bind; [apply _ | by intros s |]. intros _. apply always_ret, _.
    + apply always_bind; [apply _ | apply always_lift, _ |]. intros me.
      apply always_bind; [apply _ | apply always_gets, _ |]. intros offs.
      destruct (offs !! this_ n) as [l|]; [|apply always_lift, _]. cbn zeta.
      destruct (_ >? _); [|apply always_lift, _].
      apply always_bind; [apply _ | by intros s |]. intros _.
      apply always_bind; [apply _ | by intros s |]. intros _. apply always_ret, _.
  - apply always_bind; [apply _ | apply always_gets, _ |]. intros current. by intros s.
Qed.

Lemma push_children_same_cout (n : Node) : always same_cout (push_children n).
Proof.
  apply always_for_each; [apply _|]. intros i [] _.
  apply always_bind; [apply _ | apply always_lift, _ |].
  intros [c|]; [by intros s | apply always_ret, _].
Qed.

Lemma print_loop_same_cout (fuel : nat) : always same_cout (print_loop fuel).
Proof.
  induction fuel as [|fuel IH]; intros s.
  - destruct s as [offs [|front q] co st cr]; reflexivity.
  - destruct s as [offs [|front q] co st cr]; [reflexivity|].
    cbn [print_loop nodes_to_be_printed].
    match goal with |- same_cout ?s0 (bind ?m ?k ?s0).1 =>
      apply (always_bind same_cout m k) end; [by intros s|]. intros _.
    destruct front as [|n].
    + apply always_bind; [apply _ | by intros s |]. intros _.
      apply always_bind; [apply _ | by intros s |]. intros _.
      apply always_bind; [apply _ | apply always_gets, _ |].
      intros [|[|m] q']; [apply IH | apply always_ret, _ | apply IH].
    + apply always_bind; [apply _ | apply print_node_same_cout |]. intros _.
      apply always_bind; [apply _ | apply push_children_same_cout |]. intros _. apply IH.
Qed.

Lemma pass2_same_cout (t : Node) : always same_cout (pass2 t).
Proof.
  unfold pass2.
  apply always_bind; [apply _ | by intros s |]. intros _.
  apply always_bind; [apply _ | by intros s |]. intros _.
  apply always_bind; [apply _ | by intros s |]. intros _.
  apply always_bind; [apply _ | by intros s |]. intros _.
  apply always_bind; [apply _ | apply print_loop_same_cout |]. intros _. by intros s.
Qed.

(** Rendering a tree with consistent references from its root writes
    nothing to [std::cout], however the run ends. *)
Lemma getStringAll_quiet (t : Node) :
  linked t -> (forall n, n ∈ nodes t -> arrays_ok n) ->
  cout_r (getStringAll t t).1 = [].
Proof.
  intros Hl Harr. destruct (pass1_done t Hl Harr) as [s1 Hp1].
  pose proof (pass1_quiet t Hl Harr s1 Hp1) as Hq1.
  unfold getStringAll, render. unfold bind at 1. unfold bind at 1.
  fold initial. rewrite Hp1.
  pose proof (pass2_same_cout t s1) as Hq2. unfold same_cout in Hq2.
  destruct (pass2 t s1) as [s2 [[]|f]]; cbn [fst] in *; [|congruence].
  unfold bind, gets, ret. cbn [fst]. congruence.
Qed.

(** X8.  Rendering a tree from its root never prints "logic error" when the
    addresses of the nodes are distinct, the root has no parent and every
    child records its owner: pass 1 reaches a node only after its parent, so
    every propagation finds the entries it looks for, and nothing at all is
    written to [std::cout], whether the rendering returns its text or ends at
    the assertion. *)
Theorem rendering_is_quiet (t : Node) :
  linked t -> (forall n, n ∈ nodes t -> arrays_ok n) ->
  cout_r (getStringAll t t).1 = [].
Proof. apply getStringAll_quiet. Qed.

Lemma linked_t10 : linked t10.
Proof.
  split; [|split].
  - apply (bool_decide_unpack (NoDup (this_ <$> nodes t10))). vm_compute. exact I.
  - reflexivity.
  - intros n c Hn Hc. vm_compute in Hn.
    repeat (apply elem_of_cons in Hn as [->|Hn]); [| | |inversion Hn]; vm_compute in Hc;
      repeat (apply elem_of_cons in Hc as [Hc|Hc]; [by inversion Hc|]); inversion Hc.
Defined.

Lemma rendering_is_quiet_witness : cout_r (getStringAll t10 t10).1 = [].
Proof. apply (rendering_is_quiet t10 linked_t10 arrays_ok_t10). Defined.

(** ** The printing operations *)

(** X9.  [TwoFourTree::print] writes to [std::cout] the text that
    [TwoFourTree::getString] returns, and nothing else, for a tree with
    consistent references; when the rendering ends at the assertion, nothing
    is written.  Unlike [getString], which returns the empty text for a tree
    without root, [print] dereferences the null [root_]. *)
Theorem print_writes_getString (cout : list string) :
  (forall t, linked t -> (forall n, n ∈ nodes t -> arrays_ok n) ->
     tree_print (Some t) cout
     = match tree_getString (Some t) with
       | Done text => (cout ++ [text], Done tt)
       | Fault f => (cout, Fault f)
       end)
  /\ tree_getString None = Done ""
  /\ tree_print None cout = (cout, Fault NullDeref).
Proof.
  split; [|by split]. intros t Hl Harr.
  pose proof (getStringAll_quiet t Hl Harr) as Hq.
  unfold tree_print, printAll, tree_getString.
  destruct (getStringAll t t) as [s [text|f]]; cbn [fst snd] in *; rewrite Hq;
    cbn [app]; by rewrite ?app_nil_r.
Qed.

Lemma print_writes_getString_witness :
  tree_print (Some t10) []
  = match tree_getString (Some t10) with
    | Done text => ([] ++ [text], Done tt)
    | Fault f => ([], Fault f)
    end.
Proof. apply (proj1 (print_writes_getString []) t10 linked_t10 arrays_ok_t10). Defined.

Lemma nodes_at_depth (t n : Node) : n ∈ nodes t -> exists d, at_depth t n d.
Proof.
  assert (forall m, (exists d, at_depth t m d) ->
                    forall n, n ∈ nodes m -> exists d, at_depth t n d) as H.
  { clear n. intros m. induction m as [a pa nk ks cs IH] using Node_ind.
    intros [d Hd] n Hn. cbn [nodes children_] in Hn.
    apply elem_of_cons in Hn as [->|Hn]; [by exists d|].
    apply list_elem_of_In, in_concat in Hn as (l & Hl & Hn).
    apply in_map_iff in Hl as ([c|] & <- & Hc); [|inversion Hn].
    apply list_elem_of_In in Hc. rewrite Forall_forall in IH.
    apply (IH (Some c) Hc); [|by apply list_elem_of_In].
    exists (S d). by apply (at_child t (mkNode a pa nk ks cs) c d). }
  apply H. exists 0%nat. constructor.
Qed.

Lemma climb_root (t n : Node) (d : nat) :
  linked t -> at_depth t n d -> forall fuel, (d <= fuel)%nat -> climb t fuel n = Done t.
Proof.
  intros Hl. induction 1 as [|n c d Hn IH Hc]; intros fuel Hfuel.
  - destruct Hl as (_ & Hp & _). destruct fuel; cbn [climb]; by rewrite Hp.
  - destruct fuel as [|fuel]; [lia|].
    pose proof (at_depth_nodes t n d Hn) as Hnt.
    pose proof Hl as (_ & _ & Hpar).
    cbn [climb]. rewrite (Hpar n c Hnt Hc), (deref_node t Hl n Hnt). cbn [obind].
    apply IH. lia.
Qed.

(** X10.  [Node::tryPrintAllFromParent] does nothing when the verbosity is
    below 1.  Otherwise, called on any node of a tree with consistent
    references, it climbs to the root of the tree and prints the whole tree:
    it writes what [printAll] writes when called on the root. *)
Theorem tryPrintAllFromParent_prints_tree (t n : Node) (verbosity : Z) (cout : list string) :
  linked t -> n ∈ nodes t ->
  tryPrintAllFromParent t n verbosity cout
  = if verbosity <? 1 then (cout, Done tt) else printAll t t cout.
Proof.
  intros Hl Hn. unfold tryPrintAllFromParent. destruct (verbosity <? 1); [reflexivity|].
  destruct (nodes_at_depth t n Hn) as [d Hd].
  unfold bind, lift. rewrite (climb_root t n d Hl Hd); [reflexivity|].
  pose proof (at_depth_size t n d Hd). unfold size in *.
  rewrite (nodes_kids n) in H. cbn [length] in H. lia.
Qed.

Lemma tryPrintAllFromParent_prints_tree_witness :
  tryPrintAllFromParent t10 (leaf 102 (Some 100) [12]) 1 []
  = printAll t10 t10 [].
Proof.
  apply (tryPrintAllFromParent_prints_tree t10 (leaf 102 (Some 100) [12]) 1 [] linked_t10).
  vm_compute. do 2 apply list_elem_of_further. apply list_elem_of_here.
Defined.

(** ** The layout engine: the geometry that pass 1 computes *)

(** The room that a leaf takes on its line: its label and one space. *)
Definition width (n : Node) : Z := strlen (label_spec n) + 1.

(** Where a row of nodes places its leaves when the row starts at offset
    [c]: one leaf after the other; the internal nodes of the row take no
    room. *)
Fixpoint leaf_spans (c : Z) (row : list Node) : list (Node * location) :=
  match row with
  | [] => []
  | n :: row' =>
      if isLeaf n then (n, mkLoc c (to_int (c + width n))) :: leaf_spans (to_int (c + width n)) row'
      else leaf_spans c row'
  end.

(** The offset after the row. *)
Fixpoint cursor (c : Z) (row : list Node) : Z :=
  match row with
  | [] => c
  | n :: row' => cursor (if isLeaf n then to_int (c + width n) else c) row'
  end.

Lemma to_int_congr (a b k : Z) : a = b + k * 2 ^ 32 -> to_int a = to_int b.
Proof.
  intros ->. unfold to_int. f_equal.
  replace (b + k * 2 ^ 32 + 2 ^ 31) with (b + 2 ^ 31 + k * 2 ^ 32) by lia.
  apply Z_mod_plus_full.
Qed.

Lemma to_int_size_t (z : Z) : to_int (to_size_t z) = to_int z.
Proof.
  apply (to_int_congr _ _ (- (z / 2 ^ 64) * 2 ^ 32)). unfold to_size_t.
  rewrite (Z.mod_eq z (2 ^ 64)) by lia.
  change (2 ^ 64) with (2 ^ 32 * 2 ^ 32). lia.
Qed.

Lemma advance_offset (c len : Z) :
  to_int (to_size_t (to_size_t c + len + 1)) = to_int (c + (len + 1)).
Proof.
  rewrite to_int_size_t.
  apply (to_int_congr _ _ (- (c / 2 ^ 64) * 2 ^ 32)). unfold to_size_t.
  rewrite (Z.mod_eq c (2 ^ 64)) by lia.
  change (2 ^ 64) with (2 ^ 32 * 2 ^ 32). lia.
Qed.

Lemma leaf_spans_app (c : Z) (r1 r2 : list Node) :
  leaf_spans c (r1 ++ r2) = leaf_spans c r1 ++ leaf_spans (cursor c r1) r2.
Proof.
  revert c. induction r1 as [|n r1 IH]; intros c; [reflexivity|].
  cbn [app leaf_spans cursor]. destruct (isLeaf n); cbn [app]; by rewrite IH.
Qed.

Lemma cursor_app (c : Z) (r1 r2 : list Node) :
  cursor c (r1 ++ r2) = cursor (cursor c r1) r2.
Proof.
  revert c. induction r1 as [|n r1 IH]; intros c; [reflexivity|].
  cbn [app cursor]. by rewrite IH.
Qed.

(** *** What the two propagations leave alone *)

(** Both propagations change the offset map only by overwriting an entry
    that exists, and print; a relation that such steps keep is kept by the
    whole propagation. *)
Section Propagation.
Context (R : rstate -> rstate -> Prop) `{!PreOrder R}.
Variable heap : Node.
Hypothesis R_print : forall m, always R (print_cout m).

Lemma SetBeginLocation_always :
  (forall s a l x, offsets s !! a = Some l ->
     R s (mkR (<[a := mkLoc x (end_ l)]> (offsets s)) (nodes_to_be_printed s)
              (current_offset s) (ss s) (cout_r s))) ->
  forall fuel node x, always R (SetBeginLocation heap fuel node x).
Proof.
  intros Hstep fuel. induction fuel as [|fuel IH]; intros node x; [apply always_lift, _|].
  intros s. cbn [SetBeginLocation]. unfold bind at 1, gets.
  destruct (offsets s !! this_ node) as [l|] eqn:E; [|apply R_print].
  unfold bind at 1, set_offsets at 1, modify at 1.
  pose proof (Hstep s (this_ node) l x E) as H1.
  destruct (parent_ node) as [pa|]; [|exact H1].
  unfold bind at 1, lift at 1. destruct (getMyChildIdx heap node) as [i|f]; [|exact H1].
  destruct (i =? 0); [|exact H1].
  unfold bind at 1, lift at 1. destruct (deref heap pa) as [p|f]; [|exact H1].
  etransitivity; [exact H1 | apply IH].
Qed.

Lemma SetEndLocation_always :
  (forall s a l x, offsets s !! a = Some l ->
     R s (mkR (<[a := mkLoc (begin_ l) x]> (offsets s)) (nodes_to_be_printed s)
              (current_offset s) (ss s) (cout_r s))) ->
  forall fuel node x, always R (SetEndLocation heap fuel node x).
Proof.
  intros Hstep fuel. induction fuel as [|fuel IH]; intros node x; [apply always_lift, _|].
  intros s. cbn [SetEndLocation]. unfold bind at 1, gets.
  destruct (offsets s !! this_ node) as [l|] eqn:E; [|apply R_print].
  unfold bind at 1, set_offsets at 1, modify at 1.
  pose proof (Hstep s (this_ node) l x E) as H1.
  destruct (parent_ node) as [pa|]; [|exact H1].
  unfold bind at 1, lift at 1. destruct (getMyChildIdx heap node) as [i|f]; [|exact H1].
  unfold bind at 1, lift at 1. destruct (deref heap pa) as [p|f]; [|exact H1].
  destruct (i =? num_keys_ p); [|exact H1].
  unfold bind at 1, lift at 1. destruct (getString node) as [me|f]; [|exact H1].
  etransitivity; [exact H1 | apply IH].
Qed.

End Propagation.

(** The propagations create no entry, and they keep the running offset. *)
Definition same_dom (s s' : rstate) : Prop :=
  current_offset s' = current_offset s
  /\ forall a, is_Some (offsets s' !! a) <-> is_Some (offsets s !! a).

#[local] Instance same_dom_preorder : PreOrder same_dom.
Proof.
  split.
  - intros s. by split.
  - intros s1 s2 s3 [Hc1 Hd1] [Hc2 Hd2]. split; [congruence|].
    intros a. by rewrite Hd2, Hd1.
Qed.

Lemma same_dom_overwrite (s : rstate) (a : addr) (l v : location) :
  offsets s !! a = Some l ->
  same_dom s (mkR (<[a := v]> (offsets s)) (nodes_to_be_printed s) (current_offset s)
                  (ss s) (cout_r s)).
Proof.
  intros E. split; [reflexivity|]. intros b. cbn [offsets].
  destruct (decide (a = b)) as [<-|Hne];
    [rewrite lookup_insert_eq, E | rewrite lookup_insert_ne by done]; done.
Qed.

Lemma SetBeginLocation_dom (heap : Node) (fuel : nat) (node : Node) (x : Z) :
  always same_dom (SetBeginLocation heap fuel node x).
Proof.
  apply SetBeginLocation_always; [apply _ | by intros m s |].
  intros s a l y E. by apply (same_dom_overwrite s a l).
Qed.

Lemma SetEndLocation_dom (heap : Node) (fuel : nat) (node : Node) (x : Z) :
  always same_dom (SetEndLocation heap fuel node x).
Proof.
  apply SetEndLocation_always; [apply _ | by intros m s |].
  intros s a l y E. by apply (same_dom_overwrite s a l).
Qed.

(** [SetBeginLocation] keeps every end-offset, [SetEndLocation] every
    begin-offset. *)
Definition same_ends (s s' : rstate) : Prop :=
  forall a, end_ <$> offsets s' !! a = end_ <$> offsets s !! a.
Definition same_begins (s s' : rstate) : Prop :=
  forall a, begin_ <$> offsets s' !! a = begin_ <$> offsets s !! a.

#[local] Instance same_ends_preorder : PreOrder same_ends.
Proof.
  split; [by intros s a|]. intros s1 s2 s3 H1 H2 a. by rewrite H2, H1.
Qed.

#[local] Instance same_begins_preorder : PreOrder same_begins.
Proof.
  split; [by intros s a|]. intros s1 s2 s3 H1 H2 a. by rewrite H2, H1.
Qed.

Lemma SetBeginLocation_ends (heap : Node) (fuel : nat) (node : Node) (x : Z) :
  always same_ends (SetBeginLocation heap fuel node x).
Proof.
  apply SetBeginLocation_always; [apply _ | by intros m s a |].
  intros s a l y E b. cbn [offsets].
  destruct (decide (a = b)) as [<-|Hne];
    [rewrite lookup_insert_eq, E | rewrite lookup_insert_ne by done]; done.
Qed.

Lemma SetEndLocation_begins (heap : Node) (fuel : nat) (node : Node) (x : Z) :
  always same_begins (SetEndLocation heap fuel node x).
Proof.
  apply SetEndLocation_always; [apply _ | by intros m s a |].
  intros s a l y E b. cbn [offsets].
  destruct (decide (a = b)) as [<-|Hne];
    [rewrite lookup_insert_eq, E | rewrite lookup_insert_ne by done]; done.
Qed.

(** *** Chains of children *)

(** [n] is reached from [m] by going down through the children that [slot]
    selects. *)
Inductive via (slot : Node -> option Node) : Node -> Node -> Prop :=
| via_here (n : Node) : via slot n n
| via_below (m c n : Node) : slot m = Some c -> via slot c n -> via slot m n.

(** Through first children, and through the children in slot [num_keys_]. *)
Definition first_slot (m : Node) : option Node := child m 0.
Definition last_slot (m : Node) : option Node := child m (num_keys_ m).
Definition first_desc : Node -> Node -> Prop := via first_slot.
Definition last_desc : Node -> Node -> Prop := via last_slot.

Lemma child_elem (m c : Node) (i : Z) : child m i = Some c -> Some c ∈ children_ m.
Proof.
  unfold child. destruct (children_ m !! Z.to_nat i) as [o|] eqn:E; [|discriminate].
  cbn. intros ->. by apply list_elem_of_lookup_2 in E.
Qed.

Section Via.
Variable slot : Node -> option Node.
Hypothesis slot_child : forall m c, slot m = Some c -> Some c ∈ children_ m.

Lemma via_nodes (m n : Node) : via slot m n -> n ∈ nodes m.
Proof.
  induction 1 as [n|m c n Hc _ IH]; [apply nodes_head|].
  by apply (nodes_child m c (slot_child m c Hc)).
Qed.

Lemma via_snoc (m p c : Node) : via slot m p -> slot p = Some c -> via slot m c.
Proof.
  induction 1 as [n|m c' n Hc' _ IH]; intros Hc.
  - apply (via_below slot n c c Hc). constructor.
  - apply (via_below slot m c' c Hc'). by apply IH.
Qed.

Lemma via_last (m n : Node) :
  via slot m n -> m = n \/ exists q, via slot m q /\ slot q = Some n.
Proof.
  induction 1 as [n|m c n Hc _ [->|(q & Hq & Hn)]]; [by left| |].
  - right. exists m. split; [constructor | exact Hc].
  - right. exists q. split; [by apply (via_below slot m c q) | exact Hn].
Qed.

Lemma via_leaf (m n : Node) : isLeaf m = true -> via slot m n -> n = m.
Proof.
  intros Hleaf. destruct 1 as [n|m c n Hc _]; [reflexivity|].
  destruct (isLeaf_no_child m c Hleaf (slot_child m c Hc)).
Qed.

End Via.

Lemma nodes_size (m n : Node) : n ∈ nodes m -> (size n <= size m)%nat.
Proof.
  intros Hn. destruct (nodes_at_depth m n Hn) as [d Hd].
  pose proof (at_depth_size m n d Hd). lia.
Qed.

Lemma NoDup_concat_elem {A} (ls : list (list A)) (l : list A) :
  NoDup (concat ls) -> l ∈ ls -> NoDup l.
Proof.
  induction ls as [|l' ls IH]; intros Hnd Hl; [inversion Hl|].
  cbn [concat] in Hnd. apply NoDup_app in Hnd as (H1 & _ & H2).
  apply elem_of_cons in Hl as [->|Hl]; [exact H1 | by apply IH].
Qed.

Lemma NoDup_all_nodes (l : list Node) : NoDup (all_nodes l) -> NoDup l.
Proof.
  induction l as [|n l IH]; intros Hnd; [constructor|].
  rewrite all_nodes_cons in Hnd. apply NoDup_cons in Hnd as [Hn Hnd].
  apply NoDup_app in Hnd as (_ & _ & Hl). apply NoDup_cons. split; [|by apply IH].
  intros Hin. apply Hn, elem_of_app. right.
  unfold all_nodes. apply list_elem_of_In, in_concat. exists (nodes n). split.
  - apply in_map_iff. exists n. split; [reflexivity | by apply list_elem_of_In].
  - apply list_elem_of_In, nodes_head.
Qed.

Lemma omap_slots_NoDup {A} (l : list (option A)) (i j : nat) (x : A) :
  NoDup (omap id l) -> l !! i = Some (Some x) -> l !! j = Some (Some x) -> i = j.
Proof.
  revert i j. induction l as [|o l IH]; intros i j Hnd Hi Hj; [discriminate|].
  assert (forall k, l !! k = Some (Some x) -> x ∈ omap id l) as Hin.
  { intros k Hk. apply list_elem_of_omap. exists (Some x).
    split; [by apply list_elem_of_lookup_2 in Hk | reflexivity]. }
  destruct i as [|i], j as [|j]; cbn in Hi, Hj.
  - reflexivity.
  - injection Hi as ->. cbn in Hnd. apply NoDup_cons in Hnd as [Hx _].
    destruct (Hx (Hin j Hj)).
  - injection Hj as ->. cbn in Hnd. apply NoDup_cons in Hnd as [Hx _].
    destruct (Hx (Hin i Hi)).
  - f_equal. apply IH; [|done|done].
    destruct o; cbn in Hnd; [by apply NoDup_cons in Hnd as [_ Hnd]|exact Hnd].
Qed.

(** *** Facts about a tree with consistent references *)

Section Tree.
Variable t : Node.
Hypothesis t_linked : linked t.

Lemma address_inj (n m : Node) : n ∈ nodes t -> m ∈ nodes t -> this_ n = this_ m -> n = m.
Proof.
  intros Hn Hm E. destruct t_linked as (Hnd & _ & _).
  pose proof (find_address (nodes t) n Hnd Hn) as H1.
  pose proof (find_address (nodes t) m Hnd Hm) as H2.
  rewrite E in H1. congruence.
Qed.

Lemma child_in_tree (p c : Node) : p ∈ nodes t -> Some c ∈ children_ p -> c ∈ nodes t.
Proof.
  intros Hp Hc. apply (nodes_trans t p c Hp). apply (nodes_child p c Hc), nodes_head.
Qed.

Lemma parent_unique (p q c : Node) :
  p ∈ nodes t -> q ∈ nodes t -> Some c ∈ children_ p -> Some c ∈ children_ q -> p = q.
Proof.
  intros Hp Hq Hcp Hcq. destruct t_linked as (_ & _ & Hpar).
  apply (address_inj p q Hp Hq).
  pose proof (Hpar p c Hp Hcp). pose proof (Hpar q c Hq Hcq). congruence.
Qed.

Lemma owner_not_leaf (lf p c : Node) : isLeaf lf = true -> Some c ∈ children_ p -> lf <> p.
Proof. intros Hleaf Hc ->. by apply (isLeaf_no_child p c). Qed.

Lemma subtree_NoDup (p : Node) : p ∈ nodes t -> NoDup (nodes p).
Proof.
  intros Hp. destruct (nodes_at_depth t p Hp) as [d Hd]. clear Hp.
  induction Hd as [|n c d _ IH Hc].
  - destruct t_linked as (Hnd & _ & _). by apply NoDup_fmap_1 in Hnd.
  - rewrite nodes_kids in IH. apply NoDup_cons in IH as [_ IH].
    apply (NoDup_concat_elem (nodes <$> kids n)); [exact IH|].
    apply list_elem_of_fmap_2, list_elem_of_omap. by exists (Some c).
Qed.

Lemma slot_unique (p c : Node) (i j : Z) :
  p ∈ nodes t -> 0 <= i -> 0 <= j -> child p i = Some c -> child p j = Some c -> i = j.
Proof.
  intros Hp Hi Hj Hci Hcj.
  pose proof (subtree_NoDup p Hp) as Hnd. rewrite nodes_kids in Hnd.
  apply NoDup_cons in Hnd as [_ Hnd]. apply NoDup_all_nodes in Hnd.
  unfold child in Hci, Hcj.
  destruct (children_ p !! Z.to_nat i) as [oi|] eqn:Ei; [|discriminate].
  destruct (children_ p !! Z.to_nat j) as [oj|] eqn:Ej; [|discriminate].
  cbn in Hci, Hcj. subst oi oj.
  pose proof (omap_slots_NoDup (children_ p) _ _ c Hnd Ei Ej). lia.
Qed.

(** [getMyChildIdx] finds the slot of a child. *)
Lemma myidx_slot (p c : Node) (i : Z) :
  p ∈ nodes t -> Some c ∈ children_ p ->
  getMyChildIdx t c = Done i <-> 0 <= i /\ child p i = Some c.
Proof.
  intros Hp Hc. pose proof t_linked as (_ & _ & Hpar).
  unfold getMyChildIdx. rewrite (Hpar p c Hp Hc), (deref_node t t_linked p Hp). cbn [obind].
  assert (forall o, o ∈ children_ p ->
                    Is_true (bool_decide (this_ <$> o = Some (this_ c))) -> o = Some c) as HP.
  { intros o Ho HPo. apply bool_decide_unpack in HPo. revert HPo.
    destruct o as [c'|]; [|discriminate].
    cbn. intros [= E]. f_equal.
    apply (address_inj c' c); [by apply (child_in_tree p) | by apply (child_in_tree p) | exact E]. }
  match goal with |- context [list_find ?Q (children_ p)] =>
    destruct (list_find Q (children_ p)) as [[k o]|] eqn:Efind end.
  - apply list_find_Some in Efind as (Hk & HPo & Hmin).
    apply HP in HPo; [|by apply list_elem_of_lookup_2 in Hk]. subst o. split.
    + intros [= <-]. split; [lia|]. unfold child. by rewrite Nat2Z.id, Hk.
    + intros [Hi Hci]. f_equal.
      apply (slot_unique p c); [done | lia | done | | done].
      unfold child. by rewrite Nat2Z.id, Hk.
  - apply list_find_None in Efind. split; [discriminate|]. intros [_ Hci].
    apply child_elem in Hci. rewrite Forall_forall in Efind.
    specialize (Efind _ Hci). exfalso. apply Efind. by apply bool_decide_pack.
Qed.

End Tree.

Lemma via_cycle (slot : Node -> option Node) (p c : Node) :
  (forall m c', slot m = Some c' -> Some c' ∈ children_ m) ->
  Some c ∈ children_ p -> ~ via slot c p.
Proof.
  intros Hslot Hc Hv. apply (via_nodes slot Hslot) in Hv.
  pose proof (nodes_size c p Hv). pose proof (size_child p c Hc). lia.
Qed.

Lemma via_leaf_unique (slot : Node -> option Node) (m a b : Node) :
  (forall m c', slot m = Some c' -> Some c' ∈ children_ m) ->
  via slot m a -> via slot m b -> isLeaf a = true -> isLeaf b = true -> a = b.
Proof.
  intros Hslot Ha. revert b. induction Ha as [a|m c a Hc _ IH]; intros b Hb Hla Hlb.
  - symmetry. by apply (via_leaf slot Hslot a b).
  - destruct Hb as [b|m c' b Hc' Hb].
    + destruct (isLeaf_no_child b c Hlb (Hslot b c Hc)).
    + apply IH; [|done|done]. congruence.
Qed.

Definition set_begin (x : Z) (l : location) : location := mkLoc x (end_ l).
Definition set_end (x : Z) (l : location) : location := mkLoc (begin_ l) x.

(** The end-offset that a last child hands to its parent: its own, less
    the blanks that will trail its label. *)
Definition end_adjust (c : Node) (l : location) : Z :=
  to_int (to_size_t (to_size_t (end_ l)
                     - to_size_t (to_size_t (Z.quot (end_ l - begin_ l) 2) - width c / 2))).

Section Effects.
Variable t : Node.
Hypothesis t_linked : linked t.
Hypothesis t_arrays : forall n, n ∈ nodes t -> arrays_ok n.

Lemma first_slot_child (m c : Node) : first_slot m = Some c -> Some c ∈ children_ m.
Proof. apply child_elem. Qed.

Lemma last_slot_child (m c : Node) : last_slot m = Some c -> Some c ∈ children_ m.
Proof. apply child_elem. Qed.

Section Slot.
Variable slot : Node -> option Node.
Hypothesis slot_child : forall m c, slot m = Some c -> Some c ∈ children_ m.

Lemma via_in_tree (m n : Node) : m ∈ nodes t -> via slot m n -> n ∈ nodes t.
Proof. intros Hm Hv. apply (nodes_trans t m n Hm). by apply (via_nodes slot). Qed.

Lemma via_root (m : Node) : m ∈ nodes t -> via slot m t -> m = t.
Proof.
  intros Hm Hv. destruct (via_last slot m t Hv) as [->|(q & Hq & Ht)]; [reflexivity|].
  destruct t_linked as (_ & Hroot & Hpar).
  pose proof (Hpar q t (via_in_tree m q Hm Hq) (slot_child q t Ht)). congruence.
Qed.

Lemma via_parent (m p c : Node) :
  m ∈ nodes t -> p ∈ nodes t -> Some c ∈ children_ p ->
  via slot m c -> m = c \/ (via slot m p /\ slot p = Some c).
Proof.
  intros Hm Hp Hc Hv. destruct (via_last slot m c Hv) as [->|(q & Hq & Hqc)]; [by left|].
  right.
  assert (q = p) as ->; [|by split].
  apply (parent_unique t t_linked q p c); [by apply (via_in_tree m) | done | by apply slot_child | done].
Qed.

Lemma covered_via (offs : gmap addr location) (m n : Node) :
  covered t offs n -> m ∈ nodes t -> via slot m n -> is_Some (offs !! this_ m).
Proof.
  induction 1 as [Ht|p c Hp IH Hc Hcc]; intros Hm Hv.
  - by rewrite (via_root m Hm Hv).
  - destruct (via_parent m p c Hm (covered_nodes t offs p Hp) Hc Hv) as [->|[Hvp _]];
      [exact Hcc | by apply IH].
Qed.

End Slot.

Lemma covered_parent (offs : gmap addr location) (p c : Node) :
  p ∈ nodes t -> Some c ∈ children_ p -> covered t offs c -> covered t offs p.
Proof.
  intros Hp Hc Hcov. destruct Hcov as [_|q c Hq Hqc _].
  - destruct t_linked as (_ & Hroot & Hpar). pose proof (Hpar p t Hp Hc). congruence.
  - by rewrite (parent_unique t t_linked p q c Hp (covered_nodes t offs q Hq) Hc Hqc).
Qed.

Lemma differ_by_entry (offs : gmap addr location) (n m : Node) (l : location) :
  offs !! this_ n = None -> offs !! this_ m = Some l -> this_ n <> this_ m.
Proof. intros Hn Hm E. rewrite E in Hn. congruence. Qed.

Lemma SetBeginLocation_effect (offs0 : gmap addr location) (n : Node) :
  covered t offs0 n ->
  forall fuel x s s',
    (forall a, is_Some (offs0 !! a) -> is_Some (offsets s !! a)) ->
    SetBeginLocation t fuel n x s = (s', Done tt) ->
    forall m, m ∈ nodes t ->
      (first_desc m n -> offsets s' !! this_ m = set_begin x <$> offsets s !! this_ m)
      /\ (~ first_desc m n -> offsets s' !! this_ m = offsets s !! this_ m).
Proof.
  induction 1 as [Ht|p c Hp IH Hc Hcc]; intros fuel x s s' Hsub Hrun m Hm.
  - destruct fuel as [|fuel]; [discriminate|].
    cbn [SetBeginLocation] in Hrun. unfold bind, gets in Hrun.
    destruct (Hsub _ Ht) as [l El]. rewrite El in Hrun.
    pose proof t_linked as (_ & Hroot & _). rewrite Hroot in Hrun.
    unfold set_offsets, modify, ret in Hrun. injection Hrun as <-. cbn [offsets]. split.
    + intros Hv. apply (via_root first_slot first_slot_child m Hm) in Hv. subst m.
      by rewrite lookup_insert_eq, El.
    + intros Hnv. rewrite lookup_insert_ne; [done|]. intros E. apply Hnv.
      rewrite (address_inj t t_linked m t Hm (nodes_head t)) by done. constructor.
  - destruct fuel as [|fuel]; [discriminate|].
    pose proof (covered_nodes t offs0 p Hp) as Hpt.
    pose proof (child_in_tree t p c Hpt Hc) as Hct.
    cbn [SetBeginLocation] in Hrun. unfold bind at 1, gets in Hrun.
    destruct (Hsub _ Hcc) as [l El]. rewrite El in Hrun.
    unfold bind at 1, set_offsets, modify in Hrun.
    pose proof t_linked as (_ & _ & Hpar). rewrite (Hpar p c Hpt Hc) in Hrun.
    apply bind_inv in Hrun as (i & s1 & Hi & Hrun).
    unfold lift in Hi. injection Hi as <- Hi.
    apply (myidx_slot t t_linked p c i Hpt Hc) in Hi as [Hi0 Hslot].
    assert (forall m', m' ∈ nodes t -> m' <> c ->
              <[this_ c := mkLoc x (end_ l)]> (offsets s) !! this_ m' = offsets s !! this_ m')
      as Hother.
    { intros m' Hm' Hne. rewrite lookup_insert_ne; [done|]. intros E. apply Hne.
      symmetry. by apply (address_inj t t_linked c m'). }
    destruct (Z.eqb_spec i 0) as [->|Hi].
    + apply bind_inv in Hrun as (p' & s2 & Hd & Hrun).
      unfold lift in Hd. rewrite (deref_node t t_linked p Hpt) in Hd. injection Hd as <- <-.
      assert (forall v a, is_Some (offs0 !! a) -> is_Some (<[this_ c := v]> (offsets s) !! a))
        as Hsub1.
      { intros v a Ha.
        destruct (decide (this_ c = a)) as [<-|Hne];
          [rewrite lookup_insert_eq | rewrite lookup_insert_ne by done]; auto. }
      pose proof (fun H => IH _ _ _ _ H Hrun m Hm) as IH'.
      destruct (IH' (Hsub1 _)) as [Hset Hsame].
      cbn [offsets] in Hset, Hsame. split.
      * intros Hv.
        destruct (via_parent first_slot first_slot_child m p c Hm Hpt Hc Hv) as [->|[Hvp _]].
        -- rewrite Hsame by (by apply (via_cycle first_slot p c first_slot_child)).
           by rewrite lookup_insert_eq, El.
        -- rewrite (Hset Hvp). rewrite Hother; [done | done |].
           intros ->. by apply (via_cycle first_slot p c first_slot_child Hc).
      * intros Hnv.
        assert (m <> c) as Hne by (intros ->; apply Hnv; constructor).
        rewrite Hsame; [by apply Hother|].
        intros Hvp. apply Hnv. by apply (via_snoc first_slot m p c).
    + unfold ret in Hrun. injection Hrun as <-. cbn [offsets]. split.
      * intros Hv.
        destruct (via_parent first_slot first_slot_child m p c Hm Hpt Hc Hv) as [->|[_ Hs]].
        -- by rewrite lookup_insert_eq, El.
        -- destruct Hi. by apply (slot_unique t t_linked p c i 0 Hpt).
      * intros Hnv. apply Hother; [done|]. intros ->. apply Hnv. constructor.
Qed.

Lemma SetEndLocation_effect (offs0 : gmap addr location) (n : Node) :
  covered t offs0 n ->
  forall fuel x s s',
    (forall a, is_Some (offs0 !! a) -> is_Some (offsets s !! a)) ->
    SetEndLocation t fuel n x s = (s', Done tt) ->
    offsets s' !! this_ n = set_end x <$> offsets s !! this_ n
    /\ forall m, m ∈ nodes t -> ~ last_desc m n ->
         offsets s' !! this_ m = offsets s !! this_ m.
Proof.
  induction 1 as [Ht|p c Hp IH Hc Hcc]; intros fuel x s s' Hsub Hrun.
  - destruct fuel as [|fuel]; [discriminate|].
    cbn [SetEndLocation] in Hrun. unfold bind, gets in Hrun.
    destruct (Hsub _ Ht) as [l El]. rewrite El in Hrun.
    pose proof t_linked as (_ & Hroot & _). rewrite Hroot in Hrun.
    unfold set_offsets, modify, ret in Hrun. injection Hrun as <-. cbn [offsets]. split.
    + by rewrite lookup_insert_eq, El.
    + intros m Hm Hnv. rewrite lookup_insert_ne; [done|]. intros E. apply Hnv.
      rewrite (address_inj t t_linked m t Hm (nodes_head t)) by done. constructor.
  - destruct fuel as [|fuel]; [discriminate|].
    pose proof (covered_nodes t offs0 p Hp) as Hpt.
    pose proof (child_in_tree t p c Hpt Hc) as Hct.
    cbn [SetEndLocation] in Hrun. unfold bind at 1, gets in Hrun.
    destruct (Hsub _ Hcc) as [l El]. rewrite El in Hrun.
    unfold bind at 1, set_offsets, modify in Hrun.
    pose proof t_linked as (_ & _ & Hpar). rewrite (Hpar p c Hpt Hc) in Hrun.
    apply bind_inv in Hrun as (i & s1 & Hi & Hrun).
    unfold lift in Hi. injection Hi as <- Hi.
    apply (myidx_slot t t_linked p c i Hpt Hc) in Hi as [Hi0 Hslot].
    apply bind_inv in Hrun as (p' & s2 & Hd & Hrun).
    unfold lift in Hd. rewrite (deref_node t t_linked p Hpt) in Hd. injection Hd as <- <-.
    assert (forall m', m' ∈ nodes t -> m' <> c ->
              <[this_ c := mkLoc (begin_ l) x]> (offsets s) !! this_ m' = offsets s !! this_ m')
      as Hother.
    { intros m' Hm' Hne. rewrite lookup_insert_ne; [done|]. intros E. apply Hne.
      symmetry. by apply (address_inj t t_linked c m'). }
    destruct (Z.eqb_spec i (num_keys_ p)) as [->|Hi].
    + apply bind_inv in Hrun as (me & s3 & Hme & Hrun).
      unfold lift in Hme. injection Hme as <- Hme.
      assert (forall v a, is_Some (offs0 !! a) -> is_Some (<[this_ c := v]> (offsets s) !! a))
        as Hsub1.
      { intros v a Ha.
        destruct (decide (this_ c = a)) as [<-|Hne];
          [rewrite lookup_insert_eq | rewrite lookup_insert_ne by done]; auto. }
      pose proof (fun H => IH _ _ _ _ H Hrun) as IH'.
      destruct (IH' (Hsub1 _)) as [_ Hsame].
      cbn [offsets] in Hsame. split.
      * rewrite (Hsame c Hct) by (by apply (via_cycle last_slot p c last_slot_child)).
        by rewrite lookup_insert_eq, El.
      * intros m Hm Hnv.
        assert (m <> c) as Hne by (intros ->; apply Hnv; constructor).
        rewrite (Hsame m Hm); [by apply Hother|].
        intros Hvp. apply Hnv. by apply (via_snoc last_slot m p c).
    + unfold ret in Hrun. injection Hrun as <-. cbn [offsets]. split.
      * by rewrite lookup_insert_eq, El.
      * intros m Hm Hnv. apply Hother; [done|]. intros ->. apply Hnv. constructor.
Qed.

(** What a last child hands to its parent. *)
Lemma SetEndLocation_parent (offs0 : gmap addr location) (p c : Node) (l : location) :
  covered t offs0 c -> p ∈ nodes t -> last_slot p = Some c ->
  forall fuel x s s',
    (forall a, is_Some (offs0 !! a) -> is_Some (offsets s !! a)) ->
    offsets s !! this_ c = Some l ->
    SetEndLocation t fuel c x s = (s', Done tt) ->
    offsets s' !! this_ p = set_end (end_adjust c (mkLoc (begin_ l) x)) <$> offsets s !! this_ p.
Proof.
  intros Hcov Hpt Hlast fuel x s s' Hsub El Hrun.
  pose proof (last_slot_child p c Hlast) as Hc.
  pose proof (child_in_tree t p c Hpt Hc) as Hct.
  pose proof (covered_parent offs0 p c Hpt Hc Hcov) as Hcovp.
  destruct fuel as [|fuel]; [discriminate|].
  cbn [SetEndLocation] in Hrun. unfold bind at 1, gets in Hrun. rewrite El in Hrun.
  unfold bind at 1, set_offsets, modify in Hrun.
  pose proof t_linked as (_ & _ & Hpar). rewrite (Hpar p c Hpt Hc) in Hrun.
  apply bind_inv in Hrun as (i & s1 & Hi & Hrun).
  unfold lift in Hi. injection Hi as <- Hi.
  apply (myidx_slot t t_linked p c i Hpt Hc) in Hi as [Hi0 Hslot].
  assert (i = num_keys_ p) as ->.
  { apply (slot_unique t t_linked p c); [done | done | | done | done].
    by destruct (t_arrays p Hpt) as [[? _] _]. }
  apply bind_inv in Hrun as (p' & s2 & Hd & Hrun).
  unfold lift in Hd. rewrite (deref_node t t_linked p Hpt) in Hd. injection Hd as <- <-.
  rewrite Z.eqb_refl in Hrun.
  apply bind_inv in Hrun as (me & s3 & Hme & Hrun).
  unfold lift in Hme. rewrite (getString_label c (proj1 (t_arrays c Hct))) in Hme.
  injection Hme as <- <-.
  assert (forall v a, is_Some (offs0 !! a) -> is_Some (<[this_ c := v]> (offsets s) !! a))
    as Hsub1.
  { intros v a Ha.
    destruct (decide (this_ c = a)) as [<-|Hne];
      [rewrite lookup_insert_eq | rewrite lookup_insert_ne by done]; auto. }
  pose proof (fun H => SetEndLocation_effect offs0 p Hcovp _ _ _ _ H Hrun) as IH'.
  destruct (IH' (Hsub1 _)) as [Hown _].
  cbn [offsets] in Hown. rewrite Hown. rewrite lookup_insert_ne; [reflexivity|].
  intros E. apply (address_inj t t_linked c p Hct Hpt) in E. subst c.
  pose proof (size_child p p Hc). lia.
Qed.

End Effects.

(** *** What pass 1 does at a node *)

Section Measure.
Variable t : Node.
Hypothesis t_linked : linked t.
Hypothesis t_arrays : forall n, n ∈ nodes t -> arrays_ok n.

Lemma measure_node_internal (n : Node) (s s1 : rstate) :
  isLeaf n = false -> offsets s !! this_ n = None ->
  measure_node t n s = (s1, Done tt) ->
  offsets s1 = <[this_ n := mkLoc 0 0]> (offsets s) /\ current_offset s1 = current_offset s.
Proof.
  intros Hleaf Hnone. unfold measure_node, set_offsets, modify, emplace.
  rewrite Hleaf, Hnone. by intros [= <-].
Qed.

Lemma other_entry (n m : Node) (offs : gmap addr location) (v : location) :
  n ∈ nodes t -> m ∈ nodes t -> m <> n -> <[this_ n := v]> offs !! this_ m = offs !! this_ m.
Proof.
  intros Hn Hm Hne. rewrite lookup_insert_ne; [done|]. intros E. apply Hne.
  symmetry. by apply (address_inj t t_linked n m).
Qed.

(** At a leaf that has no entry yet: the leaf gets the span that starts at
    the running offset; the begin-offset reaches the nodes above it through
    first children, the end-offset the nodes above it through last children,
    and its parent, when the leaf is its last child, gets the end-offset less
    the trailing blanks. *)
Lemma measure_node_leaf (n : Node) (s s1 : rstate) :
  isLeaf n = true -> n ∈ nodes t -> offsets s !! this_ n = None ->
  pending t (offsets s) n ->
  measure_node t n s = (s1, Done tt) ->
  let c := current_offset s in
  let e := to_int (c + width n) in
  current_offset s1 = e
  /\ offsets s1 !! this_ n = Some (mkLoc c e)
  /\ (forall m, m ∈ nodes t -> first_desc m n -> begin_ <$> offsets s1 !! this_ m = Some c)
  /\ (forall m, m ∈ nodes t -> m <> n -> ~ first_desc m n ->
        begin_ <$> offsets s1 !! this_ m = begin_ <$> offsets s !! this_ m)
  /\ (forall m, m ∈ nodes t -> m <> n -> ~ last_desc m n ->
        end_ <$> offsets s1 !! this_ m = end_ <$> offsets s !! this_ m)
  /\ (forall m, m ∈ nodes t -> m <> n -> ~ first_desc m n -> ~ last_desc m n ->
        offsets s1 !! this_ m = offsets s !! this_ m)
  /\ (forall p, p ∈ nodes t -> last_slot p = Some n ->
        end_ <$> offsets s1 !! this_ p = Some (end_adjust n (mkLoc c e))).
Proof.
  intros Hleaf Hnt Hnone Hpend Hrun c e. revert Hrun. unfold measure_node. rewrite Hleaf.
  intros H.
  apply bind_inv in H as (start & s' & [= <- <-] & H).
  apply bind_inv in H as (me & s' & Hme & H).
  unfold lift in Hme. rewrite (getString_label n (proj1 (t_arrays n Hnt))) in Hme.
  injection Hme as <- <-.
  apply bind_inv in H as ([] & s' & [= <-] & H).
  apply bind_inv in H as (current & s' & [= <- <-] & H).
  apply bind_inv in H as ([] & sa & [= <-] & H).
  apply bind_inv in H as ([] & sb & Hb & He).
  cbn [offsets nodes_to_be_printed current_offset ss cout_r] in Hb.
  unfold emplace in Hb. rewrite Hnone in Hb.
  fold c in Hb, He. rewrite (advance_offset c (strlen (label_spec n))) in Hb, He.
  fold (width n) in Hb, He. fold e in Hb, He.
  set (sa := mkR (<[this_ n := mkLoc c e]> (offsets s)) (nodes_to_be_printed s) e (ss s)
                 (cout_r s)) in Hb.
  assert (covered t (offsets sa) n) as Hcov.
  { apply pending_covered; [|cbn; by rewrite lookup_insert_eq].
    apply (pending_mono t (offsets s)); [|exact Hpend].
    intros a Ha. cbn.
    destruct (decide (this_ n = a)) as [<-|Hne];
      [rewrite lookup_insert_eq | rewrite lookup_insert_ne by done]; auto. }
  pose proof (SetBeginLocation_effect t t_linked (offsets sa) n Hcov _ _ _ _ (fun a Ha => Ha) Hb)
    as Hbegin.
  pose proof (SetBeginLocation_dom t (size t) n c sa) as [Hcb Hdb].
  pose proof (SetBeginLocation_ends t (size t) n c sa) as Heb.
  rewrite Hb in Hcb, Hdb, Heb. cbn [fst] in Hcb, Hdb, Heb.
  assert (forall a, is_Some (offsets sa !! a) -> is_Some (offsets sb !! a)) as Hsub
    by (intros a; apply Hdb).
  pose proof (SetEndLocation_effect t t_linked (offsets sa) n Hcov _ _ _ _ Hsub He)
    as [Hown Hframe].
  pose proof (SetEndLocation_dom t (size t) n e sb) as [Hce Hde].
  pose proof (SetEndLocation_begins t (size t) n e sb) as Hbe.
  rewrite He in Hce, Hde, Hbe. cbn [fst] in Hce, Hde, Hbe.
  assert (offsets sb !! this_ n = Some (mkLoc c e)) as Hnb.
  { destruct (Hbegin n Hnt) as [Hset _]. rewrite Hset by constructor.
    cbn. by rewrite lookup_insert_eq. }
  split; [by rewrite Hce, Hcb|].
  split; [by rewrite Hown, Hnb|].
  split; [|split; [|split; [|split]]].
  - intros m Hm Hv. rewrite Hbe. destruct (Hbegin m Hm) as [Hset _]. rewrite (Hset Hv).
    destruct (covered_via t t_linked first_slot (first_slot_child) (offsets sa) m n Hcov Hm Hv)
      as [l ->].
    reflexivity.
  - intros m Hm Hne Hnv. rewrite Hbe. destruct (Hbegin m Hm) as [_ Hsame].
    rewrite (Hsame Hnv). cbn. by rewrite (other_entry n m).
  - intros m Hm Hne Hnv. rewrite (Hframe m Hm Hnv), Heb. cbn. by rewrite (other_entry n m).
  - intros m Hm Hne Hnf Hnl. rewrite (Hframe m Hm Hnl).
    destruct (Hbegin m Hm) as [_ Hsame]. rewrite (Hsame Hnf). cbn. by rewrite (other_entry n m).
  - intros p Hp Hlast.
    pose proof (SetEndLocation_parent t t_linked t_arrays (offsets sa) p n (mkLoc c e)
                  Hcov Hp Hlast _ _ _ _ Hsub Hnb He) as Hpar.
    rewrite Hpar.
    pose proof (covered_parent t t_linked (offsets sa) p n Hp (last_slot_child p n Hlast) Hcov)
      as Hcovp.
    assert (is_Some (offsets sa !! this_ p)) as Hsome.
    { destruct Hcovp; done. }
    apply Hsub in Hsome as [lp ->]. reflexivity.
Qed.

Lemma measure_node_dom (n : Node) (s s1 : rstate) :
  measure_node t n s = (s1, Done tt) ->
  forall a, a <> this_ n -> is_Some (offsets s1 !! a) <-> is_Some (offsets s !! a).
Proof.
  assert (forall (s : rstate) v a, a <> this_ n ->
            is_Some (emplace (this_ n) v (offsets s) !! a) <-> is_Some (offsets s !! a)) as Hemp.
  { intros s0 v a Ha. unfold emplace. destruct (offsets s0 !! this_ n); [done|].
    by rewrite lookup_insert_ne. }
  unfold measure_node. destruct (isLeaf n).
  - intros H a Ha.
    apply bind_inv in H as (start & s' & [= <- <-] & H).
    apply bind_inv in H as (me & s' & Hme & H).
    unfold lift in Hme. injection Hme as <- Hme.
    apply bind_inv in H as ([] & s' & [= <-] & H).
    apply bind_inv in H as (current & s' & [= <- <-] & H).
    apply bind_inv in H as ([] & sa & [= <-] & H).
    apply bind_inv in H as ([] & sb & Hb & He).
    match type of Hb with SetBeginLocation _ _ _ ?x ?s0 = _ =>
      pose proof (SetBeginLocation_dom t (size t) n x s0) as [_ Hdb] end.
    match type of He with SetEndLocation _ _ _ ?x _ = _ =>
      pose proof (SetEndLocation_dom t (size t) n x sb) as [_ Hde] end.
    rewrite Hb in Hdb. rewrite He in Hde. cbn [fst offsets] in Hdb, Hde.
    rewrite Hde, Hdb. by apply (Hemp s).
  - intros [= <-] a Ha. by apply (Hemp s).
Qed.

Lemma elem_of_all_nodes (l : list Node) (m : Node) :
  m ∈ all_nodes l <-> exists r, r ∈ l /\ m ∈ nodes r.
Proof.
  unfold all_nodes. rewrite list_elem_of_In, in_concat. split.
  - intros (x & Hx & Hm). apply in_map_iff in Hx as (r & <- & Hr).
    exists r. by rewrite !list_elem_of_In.
  - intros (r & Hr & Hm). exists (nodes r). rewrite in_map_iff, <- list_elem_of_In.
    split; [exists r; by rewrite <- list_elem_of_In | done].
Qed.

(** *** An invariant of pass 1

    A property of the row being measured, the row found so far, the offset
    map and the running offset, kept by the measuring of a node and by the
    start of a new row, holds when pass 1 is over. *)
Section Rule.
Variable J : list Node -> list Node -> gmap addr location -> Z -> Prop.
Hypothesis J_node : forall n cur next s s1,
  J (n :: cur) next (offsets s) (current_offset s) ->
  n ∈ nodes t -> offsets s !! this_ n = None -> pending t (offsets s) n ->
  measure_node t n s = (s1, Done tt) ->
  J cur (next ++ kids n) (offsets s1) (current_offset s1).
Hypothesis J_level : forall n next offs c, J [] (n :: next) offs c -> J (n :: next) [] offs 0.

Lemma measure_loop_rule (fuel : nat) :
  forall cur next s s',
    nodes_to_be_printed s = queue_of cur next ->
    (forall n, n ∈ cur ++ next -> pending t (offsets s) n) ->
    NoDup (this_ <$> all_nodes (cur ++ next)) ->
    (forall m, m ∈ all_nodes (cur ++ next) -> offsets s !! this_ m = None) ->
    J cur next (offsets s) (current_offset s) ->
    measure_loop t fuel s = (s', Done tt) ->
    exists c, J [] [] (offsets s') c.
Proof.
  induction fuel as [|fuel IH]; intros cur next s s' Hq Hpend Hnd Hnone HJ Hrun.
  { destruct s as [offs q co st cr]. cbn [nodes_to_be_printed] in Hq. subst q.
    destruct cur; discriminate Hrun. }
  destruct s as [offs q co st cr].
  cbn [nodes_to_be_printed offsets current_offset] in *. subst q.
  destruct cur as [|n cur].
  - cbn [measure_loop queue_of fmap list_fmap app nodes_to_be_printed] in Hrun.
    unfold bind, set_queue, set_current_offset, modify, gets in Hrun.
    cbn [nodes_to_be_printed offsets current_offset ss cout_r] in Hrun.
    destruct next as [|n next]; [injection Hrun as <-; by exists co|].
    cbn [fmap list_fmap app] in Hrun.
    apply (IH (n :: next) []) in Hrun; [exact Hrun | reflexivity | | | |];
      cbn [offsets current_offset]; rewrite ?app_nil_r; try done.
    by apply (J_level n next offs co).
  - cbn [measure_loop queue_of fmap list_fmap app nodes_to_be_printed] in Hrun.
    apply bind_inv in Hrun as ([] & s0 & [= <-] & Hrun).
    apply bind_inv in Hrun as ([] & s1 & Hnode & Hrun).
    apply bind_inv in Hrun as ([] & s2 & Hpush & Hrun).
    pose proof (Hpend n ltac:(by left)) as Hn.
    pose proof (pending_nodes t offs n Hn) as Hnt.
    pose proof (Hnone n ltac:(cbn [app]; rewrite all_nodes_cons; by left)) as Hfresh.
    destruct (measure_node_covers t n _ s1 Hnode) as [[Hq1 Hdom] _].
    pose proof (measure_node_dom n _ s1 Hnode) as Hdom'.
    match type of Hnode with measure_node _ _ ?s0 = _ =>
      pose proof (J_node n cur next s0 s1 HJ Hnt Hfresh Hn Hnode) as HJ1 end.
    apply (measure_node_quiet t t_linked) in Hnode as [_ Hcov]; [|exact Hn].
    cbn [nodes_to_be_printed offsets cout_r current_offset] in *.
    rewrite (push_children_run n s1 (proj2 (t_arrays n Hnt))) in Hpush.
    injection Hpush as <-.
    cbn [app] in Hnd, Hnone. rewrite all_nodes_cons, fmap_cons in Hnd.
    apply NoDup_cons in Hnd as [Hhead Hnd].
    assert (all_nodes (cur ++ next ++ kids n) ≡ₚ all_nodes (kids n) ++ all_nodes (cur ++ next))
      as Hperm.
    { rewrite !all_nodes_app. rewrite (Permutation_app_comm (all_nodes next)).
      rewrite app_assoc. rewrite (Permutation_app_comm (all_nodes cur)).
      by rewrite <- app_assoc. }
    apply (IH cur (next ++ kids n)) in Hrun;
      cbn [nodes_to_be_printed offsets cout_r current_offset] in *.
    + exact Hrun.
    + rewrite Hq1. unfold queue_of. rewrite fmap_app, <- app_assoc. reflexivity.
    + intros m Hm. rewrite app_assoc in Hm. apply elem_of_app in Hm as [Hm|Hm].
      * apply (pending_mono t offs); [exact Hdom|]. apply Hpend. by right.
      * right. exists n. split; [exact Hcov|].
        unfold kids in Hm. apply list_elem_of_omap in Hm as (o & Ho & Hid).
        cbn in Hid. by subst o.
    + by rewrite Hperm.
    + intros m Hm. rewrite Hperm in Hm.
      assert (this_ m <> this_ n) as Hne.
      { intros E. apply Hhead. rewrite <- E. by apply list_elem_of_fmap_2. }
      specialize (Hnone m ltac:(rewrite all_nodes_cons; by right)).
      destruct (offsets s1 !! this_ m) eqn:E1; [|reflexivity].
      assert (is_Some (offs !! this_ m)) as [l' Hl] by (apply Hdom'; [done | by rewrite E1]).
      congruence.
    + exact HJ1.
Qed.

Lemma pass1_rule (s1 : rstate) :
  J [t] [] ∅ 0 ->
  pass1 t t initial = (s1, Done tt) ->
  exists c, J [] [] (offsets s1) c.
Proof.
  intros HJ. unfold pass1. intros H.
  apply bind_inv in H as ([] & s & [= <-] & H).
  apply bind_inv in H as ([] & s' & [= <-] & H).
  apply (measure_loop_rule _ [t] []) in H; [exact H | reflexivity | | | | exact HJ].
  - intros n Hn. apply list_elem_of_singleton in Hn as ->. by left.
  - cbn [app]. unfold all_nodes. cbn. rewrite app_nil_r. by destruct t_linked.
  - intros m _. apply lookup_empty.
Qed.

End Rule.

End Measure.

(** *** The rows of a tree *)

Lemma next_level_app (l1 l2 : list Node) :
  next_level (l1 ++ l2) = next_level l1 ++ next_level l2.
Proof. unfold next_level. by rewrite fmap_app, concat_app. Qed.

Lemma level_S (d : nat) (t : Node) : level (S d) t = next_level (level d t).
Proof.
  revert t. induction d as [|d IH]; intros t.
  - cbn [level]. unfold next_level. cbn. rewrite app_nil_r.
    induction (kids t) as [|k ks IHk]; [reflexivity|]. cbn. by rewrite IHk.
  - change (level (S (S d)) t) with (concat (level (S d) <$> kids t)).
    change (level (S d) t) with (concat (level d <$> kids t)).
    induction (kids t) as [|k ks IHk]; [reflexivity|].
    cbn [fmap list_fmap concat]. by rewrite next_level_app, IH, IHk.
Qed.

Lemma level_nodes (d : nat) (t m : Node) : m ∈ level d t -> m ∈ nodes t.
Proof.
  revert m. induction d as [|d IH]; intros m Hm.
  - apply list_elem_of_singleton in Hm as ->. apply nodes_head.
  - rewrite level_S in Hm. unfold next_level in Hm.
    apply list_elem_of_In, in_concat in Hm as (l & Hl & Hm).
    apply in_map_iff in Hl as (p & <- & Hp).
    apply list_elem_of_In in Hp, Hm. apply IH in Hp.
    apply (nodes_trans t p m Hp).
    unfold kids in Hm. apply list_elem_of_omap in Hm as (o & Ho & Hid).
    cbn in Hid. subst o. apply (nodes_child p m Ho), nodes_head.
Qed.

Lemma level_empty (d d' : nat) (t : Node) : level d t = [] -> (d <= d')%nat -> level d' t = [].
Proof.
  intros He Hle. induction Hle as [|d' _ IH]; [exact He|]. by rewrite level_S, IH.
Qed.

Lemma leaf_spans_elem (c : Z) (row : list Node) (lf : Node) (l : location) :
  (lf, l) ∈ leaf_spans c row -> lf ∈ row /\ isLeaf lf = true.
Proof.
  revert c. induction row as [|n row IH]; intros c H; [inversion H|].
  cbn [leaf_spans] in H. destruct (isLeaf n) eqn:Hleaf.
  - apply elem_of_cons in H as [[= -> ->]|H]; [split; [by left | done]|].
    apply IH in H as [H1 H2]. split; [by right | done].
  - apply IH in H as [H1 H2]. split; [by right | done].
Qed.

(** *** Where the leaves are placed *)

Section Leaves.
Variable t : Node.
Hypothesis t_linked : linked t.
Hypothesis t_arrays : forall n, n ∈ nodes t -> arrays_ok n.

(** The entry of a leaf that has one is not touched when another node is
    measured. *)
Lemma measure_node_keeps_leaf (n lf : Node) (l : location) (s s1 : rstate) :
  n ∈ nodes t -> offsets s !! this_ n = None -> pending t (offsets s) n ->
  measure_node t n s = (s1, Done tt) ->
  lf ∈ nodes t -> isLeaf lf = true ->
  offsets s !! this_ lf = Some l -> offsets s1 !! this_ lf = Some l.
Proof.
  intros Hnt Hfresh Hpend Hrun Hlf Hleaf El.
  assert (lf <> n) as Hne by (intros ->; congruence).
  destruct (isLeaf n) eqn:Hn.
  - destruct (measure_node_leaf t t_linked t_arrays n s s1 Hn Hnt Hfresh Hpend Hrun)
      as (_ & _ & _ & _ & _ & Hframe & _).
    rewrite (Hframe lf Hlf Hne); [exact El | |]; intros Hv.
    + apply (via_leaf first_slot first_slot_child lf n Hleaf) in Hv. by subst.
    + apply (via_leaf last_slot last_slot_child lf n Hleaf) in Hv. by subst.
  - destruct (measure_node_internal t n s s1 Hn Hfresh Hrun) as [-> _].
    by rewrite (other_entry t t_linked n lf).
Qed.

Definition J_leaf (cur next : list Node) (offs : gmap addr location) (c : Z) : Prop :=
  exists d done,
    level d t = done ++ cur /\ next = next_level done /\ c = cursor 0 done
    /\ (forall lf l, (lf, l) ∈ leaf_spans 0 done -> offs !! this_ lf = Some l)
    /\ (forall d' lf l, (d' < d)%nat -> (lf, l) ∈ leaf_spans 0 (level d' t) ->
          offs !! this_ lf = Some l).

Lemma J_leaf_node (n : Node) (cur next : list Node) (s s1 : rstate) :
  J_leaf (n :: cur) next (offsets s) (current_offset s) ->
  n ∈ nodes t -> offsets s !! this_ n = None -> pending t (offsets s) n ->
  measure_node t n s = (s1, Done tt) ->
  J_leaf cur (next ++ kids n) (offsets s1) (current_offset s1).
Proof.
  intros (d & done & Hrow & Hnext & Hc & Hdone & Hold) Hnt Hfresh Hpend Hrun.
  assert (forall lf l, lf ∈ nodes t -> isLeaf lf = true ->
            offsets s !! this_ lf = Some l -> offsets s1 !! this_ lf = Some l) as Hkeep.
  { intros lf l. by apply (measure_node_keeps_leaf n lf l s s1). }
  exists d, (done ++ [n]). split; [by rewrite <- app_assoc|].
  split; [rewrite next_level_app, Hnext; unfold next_level; cbn; by rewrite app_nil_r|].
  rewrite cursor_app, leaf_spans_app, <- Hc. cbn [cursor leaf_spans].
  assert (forall lf l, (lf, l) ∈ leaf_spans 0 done -> lf ∈ nodes t /\ isLeaf lf = true) as Hin.
  { intros lf l H. apply leaf_spans_elem in H as [H1 H2]. split; [|exact H2].
    apply (level_nodes d). rewrite Hrow. apply elem_of_app. by left. }
  destruct (isLeaf n) eqn:Hn.
  - destruct (measure_node_leaf t t_linked t_arrays n s s1 Hn Hnt Hfresh Hpend Hrun)
      as (Hco & Hown & _).
    split; [exact Hco|]. split.
    + intros lf l H. apply elem_of_app in H as [H|H].
      * destruct (Hin lf l H). by apply Hkeep, Hdone.
      * apply list_elem_of_singleton in H as [= -> ->]. exact Hown.
    + intros d' lf l Hd' H. apply Hkeep; [| |by apply (Hold d')].
      * apply leaf_spans_elem in H as [H _]. by apply (level_nodes d').
      * by apply leaf_spans_elem in H as [_ H].
  - destruct (measure_node_internal t n s s1 Hn Hfresh Hrun) as [_ Hco].
    split; [exact Hco|]. split.
    + intros lf l H. rewrite app_nil_r in H. destruct (Hin lf l H). by apply Hkeep, Hdone.
    + intros d' lf l Hd' H. apply Hkeep; [| |by apply (Hold d')].
      * apply leaf_spans_elem in H as [H _]. by apply (level_nodes d').
      * by apply leaf_spans_elem in H as [_ H].
Qed.

Lemma J_leaf_level (n : Node) (next : list Node) (offs : gmap addr location) (c : Z) :
  J_leaf [] (n :: next) offs c -> J_leaf (n :: next) [] offs 0.
Proof.
  intros (d & done & Hrow & Hnext & Hc & Hdone & Hold).
  rewrite app_nil_r in Hrow. subst done.
  exists (S d), []. split; [by rewrite level_S, <- Hnext|].
  split; [reflexivity|]. split; [reflexivity|]. split; [intros lf l H; inversion H|].
  intros d' lf l Hd' H.
  destruct (decide (d' = d)) as [->|Hne]; [by apply Hdone | apply (Hold d'); [lia | done]].
Qed.

Lemma pass1_leaves (s1 : rstate) :
  pass1 t t initial = (s1, Done tt) ->
  forall d lf l, (lf, l) ∈ leaf_spans 0 (level d t) -> offsets s1 !! this_ lf = Some l.
Proof.
  intros Hp1.
  destruct (pass1_rule t t_linked t_arrays J_leaf J_leaf_node J_leaf_level s1) as [c HJ];
    [|exact Hp1|].
  { exists 0%nat, []. split; [reflexivity|]. split; [reflexivity|]. split; [reflexivity|].
    split; [intros lf l H; inversion H | intros d' lf l Hd'; lia]. }
  destruct HJ as (d & done & Hrow & Hnext & _ & Hdone & Hold).
  rewrite app_nil_r in Hrow. subst done.
  intros d' lf l H.
  destruct (decide (d' < d)%nat) as [Hlt|Hge]; [by apply (Hold d')|].
  destruct (decide (d' = d)) as [->|Hne]; [by apply Hdone|].
  rewrite (level_empty (S d) d' t) in H; [inversion H | by rewrite level_S, <- Hnext | lia].
Qed.

End Leaves.

(** X11.  On a tree with consistent references pass 1 ends normally, and it
    lays out the leaves of each level from left to right, starting at offset
    0: the span of a leaf begins where the leaf before it on the same level
    ends and is as wide as its label and one space (modulo 2^32, the offset
    being an [int]).  The internal nodes of the level take no room of their
    own. *)
Theorem pass1_leaf_layout (t : Node) :
  linked t -> (forall n, n ∈ nodes t -> arrays_ok n) ->
  exists s1,
    pass1 t t initial = (s1, Done tt)
    /\ forall d lf l, (lf, l) ∈ leaf_spans 0 (level d t) -> offsets s1 !! this_ lf = Some l.
Proof.
  intros Hl Harr. destruct (pass1_done t Hl Harr) as [s1 Hp1].
  exists s1. split; [exact Hp1 | by apply pass1_leaves].
Qed.

Lemma pass1_leaf_layout_witness :
  exists s1,
    pass1 t10 t10 initial = (s1, Done tt)
    /\ forall d lf l, (lf, l) ∈ leaf_spans 0 (level d t10) -> offsets s1 !! this_ lf = Some l.
Proof. apply (pass1_leaf_layout t10 linked_t10 arrays_ok_t10). Defined.

(** *** The spans of the internal nodes *)

Section Spans.
Variable t : Node.
Hypothesis t_linked : linked t.
Hypothesis t_arrays : forall n, n ∈ nodes t -> arrays_ok n.

(** The begin-offset of a node is that of the leaf that ends the chain of
    first children below it, as soon as that leaf has an entry; until then,
    and for good when the chain ends at an empty first slot, it is 0. *)
Definition J_begin (offs : gmap addr location) : Prop :=
  (forall m lf l, m ∈ nodes t -> lf ∈ nodes t -> isLeaf lf = true -> first_desc m lf ->
     offs !! this_ lf = Some l -> begin_ <$> offs !! this_ m = Some (begin_ l))
  /\ (forall m lm, m ∈ nodes t -> isLeaf m = false -> offs !! this_ m = Some lm ->
        (forall lf, lf ∈ nodes t -> isLeaf lf = true -> first_desc m lf ->
           offs !! this_ lf = None) ->
        begin_ lm = 0).

(** The end-offset of the parent of a leaf in its last slot is what the leaf
    hands up. *)
Definition J_end (offs : gmap addr location) : Prop :=
  forall p lf l, p ∈ nodes t -> lf ∈ nodes t -> isLeaf lf = true -> last_slot p = Some lf ->
    offs !! this_ lf = Some l -> end_ <$> offs !! this_ p = Some (end_adjust lf l).

Lemma same_address (n m : Node) :
  n ∈ nodes t -> m ∈ nodes t -> {n = m} + {n <> m}.
Proof.
  intros Hn Hm. destruct (decide (this_ n = this_ m)) as [E|Hne].
  - left. by apply (address_inj t t_linked).
  - right. by intros ->.
Qed.

Lemma J_begin_node (n : Node) (cur next : list Node) (s s1 : rstate) :
  J_begin (offsets s) ->
  n ∈ nodes t -> offsets s !! this_ n = None -> pending t (offsets s) n ->
  measure_node t n s = (s1, Done tt) ->
  J_begin (offsets s1).
Proof.
  intros [Hset Hzero] Hnt Hfresh Hpend Hrun.
  destruct (isLeaf n) eqn:Hn.
  - destruct (measure_node_leaf t t_linked t_arrays n s s1 Hn Hnt Hfresh Hpend Hrun)
      as (_ & Hown & Hspine & Hbegins & _ & Hframe & _).
    assert (forall lf, lf ∈ nodes t -> isLeaf lf = true -> lf <> n ->
              offsets s1 !! this_ lf = offsets s !! this_ lf) as Hleafs.
    { intros lf Hlf Hleaf Hne. apply (Hframe lf Hlf Hne); intros Hv.
      - apply (via_leaf first_slot first_slot_child lf n Hleaf) in Hv. by subst.
      - apply (via_leaf last_slot last_slot_child lf n Hleaf) in Hv. by subst. }
    split.
    + intros m lf l Hm Hlf Hleaf Hv El.
      destruct (same_address lf n Hlf Hnt) as [->|Hne].
      * rewrite Hown in El. injection El as <-. by apply Hspine.
      * rewrite (Hleafs lf Hlf Hleaf Hne) in El.
        pose proof (Hset m lf l Hm Hlf Hleaf Hv El) as Hb.
        rewrite Hbegins; [exact Hb | exact Hm | |].
        -- intros ->. by rewrite Hfresh in Hb.
        -- intros Hvn. apply Hne.
           by apply (via_leaf_unique first_slot m lf n first_slot_child).
    + intros m lm Hm Hleaf El Hnone.
      assert (m <> n) as Hne by (intros ->; congruence).
      assert (~ first_desc m n) as Hnv.
      { intros Hv. specialize (Hnone n Hnt Hn Hv). congruence. }
      pose proof (Hbegins m Hm Hne Hnv) as Hb. rewrite El in Hb. cbn in Hb.
      destruct (offsets s !! this_ m) as [lm0|] eqn:E0; [|discriminate].
      injection Hb as Hb. rewrite Hb. apply (Hzero m lm0 Hm Hleaf E0).
      intros lf Hlf Hlleaf Hv.
      assert (lf <> n) as Hlfn by (intros ->; done).
      rewrite <- (Hleafs lf Hlf Hlleaf Hlfn). by apply Hnone.
  - destruct (measure_node_internal t n s s1 Hn Hfresh Hrun) as [-> _].
    split.
    + intros m lf l Hm Hlf Hleaf Hv El.
      assert (lf <> n) as Hne by (intros ->; congruence).
      rewrite (other_entry t t_linked n lf) in El by done.
      pose proof (Hset m lf l Hm Hlf Hleaf Hv El) as Hb.
      rewrite (other_entry t t_linked n m); [exact Hb | done | done |].
      intros ->. by rewrite Hfresh in Hb.
    + intros m lm Hm Hleaf El Hnone.
      destruct (same_address m n Hm Hnt) as [->|Hne].
      * rewrite lookup_insert_eq in El. by injection El as <-.
      * rewrite (other_entry t t_linked n m) in El by done.
        apply (Hzero m lm Hm Hleaf El). intros lf Hlf Hlleaf Hv.
        assert (lf <> n) as Hlfn by (intros ->; congruence).
        rewrite <- (other_entry t t_linked n lf (offsets s) (mkLoc 0 0)) by done.
        by apply Hnone.
Qed.

Lemma J_end_node (n : Node) (cur next : list Node) (s s1 : rstate) :
  J_end (offsets s) ->
  n ∈ nodes t -> offsets s !! this_ n = None -> pending t (offsets s) n ->
  measure_node t n s = (s1, Done tt) ->
  J_end (offsets s1).
Proof.
  intros HJ Hnt Hfresh Hpend Hrun.
  destruct (isLeaf n) eqn:Hn.
  - destruct (measure_node_leaf t t_linked t_arrays n s s1 Hn Hnt Hfresh Hpend Hrun)
      as (_ & Hown & _ & _ & Hends & Hframe & Hparent).
    intros p lf l Hp Hlf Hleaf Hlast El.
    destruct (same_address lf n Hlf Hnt) as [->|Hne].
    + rewrite Hown in El. injection El as <-. by apply Hparent.
    + rewrite (Hframe lf Hlf Hne) in El.
      * pose proof (HJ p lf l Hp Hlf Hleaf Hlast El) as He.
        rewrite Hends; [exact He | exact Hp | |].
        -- intros ->. by rewrite Hfresh in He.
        -- intros Hv. destruct Hv as [p|p c n Hc Hv]; [by rewrite Hfresh in He|].
           assert (c = lf) as -> by congruence.
           apply (via_leaf last_slot last_slot_child lf n Hleaf) in Hv. by subst.
      * intros Hv. apply (via_leaf first_slot first_slot_child lf n Hleaf) in Hv. by subst.
      * intros Hv. apply (via_leaf last_slot last_slot_child lf n Hleaf) in Hv. by subst.
  - destruct (measure_node_internal t n s s1 Hn Hfresh Hrun) as [-> _].
    intros p lf l Hp Hlf Hleaf Hlast El.
    assert (lf <> n) as Hne by (intros ->; congruence).
    rewrite (other_entry t t_linked n lf) in El by done.
    pose proof (HJ p lf l Hp Hlf Hleaf Hlast El) as He.
    rewrite (other_entry t t_linked n p); [exact He | done | done |].
    intros ->. by rewrite Hfresh in He.
Qed.

Lemma pass1_begins (s1 : rstate) : pass1 t t initial = (s1, Done tt) -> J_begin (offsets s1).
Proof.
  intros Hp1.
  destruct (pass1_rule t t_linked t_arrays (fun _ _ offs _ => J_begin offs)
              (fun n cur next s s1 => J_begin_node n cur next s s1)
              (fun _ _ _ _ H => H) s1) as [c HJ]; [|exact Hp1|exact HJ].
  split.
  - intros m lf l _ _ _ _ El. by rewrite lookup_empty in El.
  - intros m lm _ _ El. by rewrite lookup_empty in El.
Qed.

Lemma pass1_ends (s1 : rstate) : pass1 t t initial = (s1, Done tt) -> J_end (offsets s1).
Proof.
  intros Hp1.
  destruct (pass1_rule t t_linked t_arrays (fun _ _ offs _ => J_end offs)
              (fun n cur next s s1 => J_end_node n cur next s s1)
              (fun _ _ _ _ H => H) s1) as [c HJ]; [|exact Hp1|exact HJ].
  intros p lf l _ _ _ _ El. by rewrite lookup_empty in El.
Qed.

End Spans.

Lemma to_int_small (z : Z) : - 2 ^ 31 <= z < 2 ^ 31 -> to_int z = z.
Proof. intros Hz. unfold to_int. rewrite Z.mod_small; lia. Qed.

(** Without wrap-around a leaf hands up its own end-offset: no blank trails
    its label but the one that belongs to its span. *)
Lemma end_adjust_leaf (lf : Node) (l : location) :
  end_ l - begin_ l = width lf -> - 2 ^ 31 <= begin_ l -> end_ l < 2 ^ 31 ->
  end_adjust lf l = end_ l.
Proof.
  intros Hw Hb He. unfold end_adjust. rewrite Hw.
  assert (0 < width lf) as Hpos by (unfold width, strlen; lia).
  rewrite Z.quot_div_nonneg by lia.
  assert (width lf < 2 ^ 32) as Hsmall by lia.
  replace (to_size_t (width lf / 2)) with (width lf / 2).
  2: { unfold to_size_t. symmetry. apply Z.mod_small.
       split; [apply Z.div_pos; lia | apply Z.div_lt_upper_bound; lia]. }
  rewrite Z.sub_diag. change (to_size_t 0) with 0. rewrite Z.sub_0_r.
  rewrite !to_int_size_t. apply to_int_small. lia.
Qed.

(** X12.  After pass 1 on a tree with consistent references, the
    begin-offset of every node is the begin-offset of the leaf that is
    reached from it through first children (slot 0) only; a node below which
    this chain ends at an empty first slot keeps the begin-offset 0. *)
Theorem pass1_begin_offsets (t : Node) (s1 : rstate) :
  linked t -> (forall n, n ∈ nodes t -> arrays_ok n) ->
  pass1 t t initial = (s1, Done tt) ->
  forall m, m ∈ nodes t ->
    exists lm, offsets s1 !! this_ m = Some lm
      /\ (forall lf, isLeaf lf = true -> first_desc m lf ->
            exists l, offsets s1 !! this_ lf = Some l /\ begin_ lm = begin_ l)
      /\ ((forall lf, isLeaf lf = true -> ~ first_desc m lf) -> begin_ lm = 0).
Proof.
  intros Hl Harr Hp1 m Hm.
  destruct (pass1_begins t Hl Harr s1 Hp1) as [Hset Hzero].
  destruct (pass1_covers t t s1 Harr Hp1 m Hm) as [lm Elm].
  exists lm. split; [exact Elm|]. split.
  - intros lf Hleaf Hv.
    pose proof (via_in_tree t first_slot first_slot_child m lf Hm Hv) as Hlf.
    destruct (pass1_covers t t s1 Harr Hp1 lf Hlf) as [l El].
    exists l. split; [exact El|].
    pose proof (Hset m lf l Hm Hlf Hleaf Hv El) as Hb. rewrite Elm in Hb. by injection Hb.
  - intros Hnone. destruct (isLeaf m) eqn:Hleaf; [destruct (Hnone m Hleaf); constructor|].
    apply (Hzero m lm Hm Hleaf Elm). intros lf _ Hlleaf Hv. by destruct (Hnone lf Hlleaf).
Qed.

Lemma pass1_begin_offsets_witness :
  exists lm, offsets (pass1 t10 t10 initial).1 !! this_ t10 = Some lm
    /\ (forall lf, isLeaf lf = true -> first_desc t10 lf ->
          exists l, offsets (pass1 t10 t10 initial).1 !! this_ lf = Some l
                    /\ begin_ lm = begin_ l)
    /\ ((forall lf, isLeaf lf = true -> ~ first_desc t10 lf) -> begin_ lm = 0).
Proof.
  apply (pass1_begin_offsets t10 (pass1 t10 t10 initial).1 linked_t10 arrays_ok_t10
           ltac:(vm_compute; reflexivity) t10).
  vm_compute. apply list_elem_of_here.
Defined.

(** X13.  After pass 1 on a tree with consistent references, a node whose
    last child (the child in slot [num_keys_]) is a leaf ends where that
    leaf hands its end-offset up; as long as the offsets do not wrap, that is
    the end-offset of the leaf itself: the node ends where its last child
    ends. *)
Theorem pass1_end_offsets (t : Node) (s1 : rstate) :
  linked t -> (forall n, n ∈ nodes t -> arrays_ok n) ->
  pass1 t t initial = (s1, Done tt) ->
  forall p lf, p ∈ nodes t -> last_slot p = Some lf -> isLeaf lf = true ->
    exists lp l, offsets s1 !! this_ p = Some lp /\ offsets s1 !! this_ lf = Some l
      /\ end_ lp = end_adjust lf l
      /\ (end_ l - begin_ l = width lf -> - 2 ^ 31 <= begin_ l -> end_ l < 2 ^ 31 ->
          end_ lp = end_ l).
Proof.
  intros Hl Harr Hp1 p lf Hp Hlast Hleaf.
  pose proof (child_in_tree t p lf Hp (last_slot_child p lf Hlast)) as Hlf.
  destruct (pass1_covers t t s1 Harr Hp1 p Hp) as [lp Elp].
  destruct (pass1_covers t t s1 Harr Hp1 lf Hlf) as [l El].
  pose proof (pass1_ends t Hl Harr s1 Hp1 p lf l Hp Hlf Hleaf Hlast El) as He.
  rewrite Elp in He. injection He as He.
  exists lp, l. split; [exact Elp|]. split; [exact El|]. split; [exact He|].
  intros Hw Hb Hr. by rewrite He, end_adjust_leaf.
Qed.

Lemma pass1_end_offsets_witness :
  exists lp l,
    offsets (pass1 t10 t10 initial).1 !! this_ t10 = Some lp
    /\ offsets (pass1 t10 t10 initial).1 !! this_ (leaf 102 (Some 100) [12]) = Some l
    /\ end_ lp = end_adjust (leaf 102 (Some 100) [12]) l
    /\ (end_ l - begin_ l = width (leaf 102 (Some 100) [12]) ->
        - 2 ^ 31 <= begin_ l -> end_ l < 2 ^ 31 -> end_ lp = end_ l).
Proof.
  apply (pass1_end_offsets t10 (pass1 t10 t10 initial).1 linked_t10 arrays_ok_t10
           ltac:(vm_compute; reflexivity) t10 (leaf 102 (Some 100) [12])).
  - vm_compute. apply list_elem_of_here.
  - reflexivity.
  - reflexivity.
Defined.

(** ** The layout engine: a root over a row of leaves *)

(** The room that a row of leaves takes. *)
Definition total_width (row : list Node) : Z := foldr (fun c acc => width c + acc) 0 row.

(** The line of a row of leaves: each label and one space. *)
Definition leaf_line (row : list Node) : string :=
  foldr (fun c acc => label_spec c +:+ " " +:+ acc) "" row.

(** The line of the root, whose span is [W] wide: its label and a space
    pushed to the right by the first field, and the second field, which
    ends in the blank that it holds and is at least that blank. *)
Definition root_line (W : Z) (t : Node) : string :=
  spaces (Z.to_nat (W / 2 + width t / 2 - width t)) +:+ label_spec t +:+ " "
  +:+ spaces (Z.to_nat (W / 2 - width t / 2 - 1)) +:+ " ".

Lemma width_pos (n : Node) : 0 < width n.
Proof. unfold width, strlen. lia. Qed.

Lemma total_width_nonneg (row : list Node) : 0 <= total_width row.
Proof.
  induction row as [|c row IH]; [done|]. cbn [total_width foldr].
  fold (total_width row). pose proof (width_pos c). lia.
Qed.

(** A row of leaves, as long as the offsets do not wrap. *)
Lemma leaf_row (row : list Node) :
  forall c,
    Forall (fun n => isLeaf n = true) row -> 0 <= c -> c + total_width row < 2 ^ 31 ->
    (forall lf l, (lf, l) ∈ leaf_spans c row ->
       end_ l - begin_ l = width lf /\ c <= begin_ l /\ end_ l <= c + total_width row)
    /\ (forall cl, last row = Some cl ->
          exists l, (cl, l) ∈ leaf_spans c row /\ end_ l = c + total_width row)
    /\ (forall c0 row', row = c0 :: row' -> (c0, mkLoc c (c + width c0)) ∈ leaf_spans c row).
Proof.
  induction row as [|n row IH]; intros c Hall Hc Hfit.
  { split; [intros lf l H; inversion H|]. split; [discriminate | discriminate]. }
  apply Forall_cons in Hall as [Hn Hall].
  cbn [total_width foldr] in Hfit |- *. fold (total_width row) in Hfit |- *.
  pose proof (width_pos n). pose proof (total_width_nonneg row).
  cbn [leaf_spans]. rewrite Hn. rewrite (to_int_small (c + width n)) by lia.
  destruct (IH (c + width n) Hall ltac:(lia) ltac:(lia)) as (Hspans & Hlast & _).
  split; [|split].
  - intros lf l H1. apply elem_of_cons in H1 as [[= -> ->]|H1]; [cbn; lia|].
    destruct (Hspans lf l H1) as (? & ? & ?). lia.
  - intros cl Hcl. destruct row as [|m row].
    + injection Hcl as <-. exists (mkLoc c (c + width n)). split; [by left | cbn; lia].
    + destruct (Hlast cl Hcl) as (l & Hl & He).
      exists l. split; [by right | lia].
  - intros c0 row' [= <- <-]. by left.
Qed.

Lemma all_nodes_leaves (l : list Node) :
  Forall (fun n => isLeaf n = true) l -> all_nodes l = l.
Proof.
  induction 1 as [|n l Hn _ IH]; [reflexivity|].
  by rewrite all_nodes_cons, (isLeaf_kids n Hn), IH.
Qed.

Lemma fheight_leaves (l : list Node) :
  l <> [] -> Forall (fun n => isLeaf n = true) l -> fheight l = 1%nat.
Proof.
  intros Hne Hall. rewrite (fheight_next l Hne). f_equal.
  unfold next_level. induction Hall as [|n l Hn _ IH]; [reflexivity|].
  cbn [fmap list_fmap concat]. rewrite (isLeaf_kids n Hn). cbn [app].
  destruct l as [|m l]; [reflexivity|]. by apply IH.
Qed.

Lemma str_app (a b : list chunk) : str (a ++ b) = str a +:+ str b.
Proof.
  induction a as [|c a IH]; [reflexivity|].
  change (str ((c :: a) ++ b)) with (chunk_str c +:+ str (a ++ b)).
  change (str (c :: a)) with (chunk_str c +:+ str a).
  by rewrite IH, append_assoc.
Qed.

Lemma str_leaves (offs : gmap addr location) (row : list Node) :
  Forall (fun n => isLeaf n = true) row ->
  str (concat (node_chunks offs <$> row)) = leaf_line row.
Proof.
  induction 1 as [|n row Hn _ IH]; [reflexivity|].
  cbn [fmap list_fmap concat leaf_line foldr]. fold (leaf_line row).
  rewrite str_app, IH. unfold node_chunks. rewrite Hn.
  cbn [str fold_right chunk_str]. by rewrite append_nil_r, append_assoc.
Qed.

Lemma existsb_leaves (offs : gmap addr location) (row : list Node) :
  Forall (fun n => isLeaf n = true) row -> existsb (assertion_failsb offs) row = false.
Proof.
  induction 1 as [|n row Hn _ IH]; [reflexivity|].
  cbn [existsb]. unfold assertion_failsb at 1. by rewrite Hn, IH.
Qed.

Lemma kids_head (t c0 : Node) : first_slot t = Some c0 -> exists row, kids t = c0 :: row.
Proof.
  unfold first_slot, child, kids. cbn. destruct (children_ t) as [|[c|] cs]; try discriminate.
  cbn. intros [= ->]. by eexists.
Qed.

Lemma kids_elem (t c : Node) : c ∈ kids t <-> Some c ∈ children_ t.
Proof.
  unfold kids. rewrite list_elem_of_omap. split.
  - intros (o & Ho & Hid). cbn in Hid. by subst o.
  - intros H. by exists (Some c).
Qed.

(** X14.  A root over a row of leaves.  Let the tree have consistent
    references, a root that is not a leaf and whose children are all leaves,
    one of them in slot 0 and the last of them in slot [num_keys_], and let
    the row of leaves be [W] wide, every leaf taking its label and one space,
    with [W] below 2^31.  Then [TwoFourTree::getString] ends at the assertion
    when [W] does not exceed the width of the root (its label and one space);
    otherwise it returns three lines: the label of the root with its space,
    right-aligned in [W/2 + width/2] columns and followed by one blank
    right-aligned in [W/2 - width/2] columns, which makes
    [max (W/2 - width/2) 1] blanks after the first field (one blank also
    when the second field is 0 wide); the labels of the leaves, each
    followed by one space; and an empty line. *)
Theorem root_over_leaves_text (t c0 cl : Node) :
  linked t -> (forall n, n ∈ nodes t -> arrays_ok n) ->
  isLeaf t = false ->
  (forall c, Some c ∈ children_ t -> isLeaf c = true) ->
  first_slot t = Some c0 ->
  last_slot t = Some cl -> last (kids t) = Some cl ->
  total_width (kids t) < 2 ^ 31 ->
  let W := total_width (kids t) in
  tree_getString (Some t)
  = if W >? width t then
      Done (root_line W t +:+ nl +:+ leaf_line (kids t) +:+ nl +:+ nl)
    else Fault AssertionFailed.
Proof.
  intros Hl Harr Hroot Hkids Hfirst Hlast Hlastkid Hfit W. cbn [tree_getString].
  assert (Forall (fun n => isLeaf n = true) (kids t)) as Hleaves.
  { apply Forall_forall. intros c Hc. apply Hkids. by apply kids_elem. }
  destruct (kids_head t c0 Hfirst) as [row Hrow].
  destruct (pass1_done t Hl Harr) as [s1 Hp1].
  (* the entries of the first and of the last leaf *)
  destruct (leaf_row (kids t) 0 Hleaves ltac:(lia) ltac:(lia)) as (Hspans & Hlastspan & Hhead).
  assert (level 1 t = kids t) as Hlevel.
  { change (level 1 t) with (flevel 0 (kids t)). apply flevel_0. }
  pose proof (pass1_leaves t Hl Harr s1 Hp1 1%nat) as Hentries. rewrite Hlevel in Hentries.
  pose proof (Hentries _ _ (Hhead c0 row Hrow)) as E0.
  destruct (Hlastspan cl Hlastkid) as (ll & Hll & Hend).
  destruct (Hspans cl ll Hll) as (Hwl & Hbl & _).
  pose proof (Hentries _ _ Hll) as El.
  (* the span of the root *)
  pose proof (nodes_head t) as Ht.
  pose proof (child_in_tree t t c0 Ht (first_slot_child t c0 Hfirst)) as Hc0.
  pose proof (child_in_tree t t cl Ht (last_slot_child t cl Hlast)) as Hcl.
  destruct (pass1_begins t Hl Harr s1 Hp1) as [Hset _].
  pose proof (Hset t c0 _ Ht Hc0 (Hkids c0 (first_slot_child t c0 Hfirst))
                (via_below first_slot t c0 c0 Hfirst (via_here first_slot c0)) E0) as Hb.
  pose proof (pass1_ends t Hl Harr s1 Hp1 t cl ll Ht Hcl
                (Hkids cl (last_slot_child t cl Hlast)) Hlast El) as He.
  rewrite (end_adjust_leaf cl ll Hwl) in He by lia.
  destruct (offsets s1 !! this_ t) as [lt|] eqn:Et; [|discriminate].
  cbn in Hb, He. injection Hb as Hb. injection He as He.
  assert (given_length lt = W) as Hgiven.
  { unfold given_length, to_unsigned. rewrite Hb, He, Hend, Z.sub_0_r, Z.add_0_l.
    apply Z.mod_small. pose proof (total_width_nonneg (kids t)). unfold W. lia. }
  (* the outcome of the render pass *)
  pose proof (getStringAll_outcome t t s1 Hp1) as Hout.
  pose proof (render_outcome t t s1 Harr Hp1) as Hloop.
  rewrite nodes_kids, (all_nodes_leaves (kids t) Hleaves) in Hloop.
  cbn [existsb] in Hloop. rewrite (existsb_leaves _ _ Hleaves), orb_false_r in Hloop.
  unfold assertion_failsb in Hloop. rewrite Hroot, Et, Hgiven in Hloop.
  cbn [negb andb] in Hloop. fold (width t) in Hloop.
  destruct (print_loop (2 * size t) (render_start t s1)) as [s2 o]. cbn [snd] in Hloop.
  subst o.
  destruct (Z.gtb_spec W (width t)) as [Hgt|Hle];
    [destruct (Z.leb_spec W (width t)); [lia|] | destruct (Z.leb_spec W (width t)); [|lia]];
    [|exact Hout].
  destruct (getStringAll t t) as [s o] eqn:Hrun. cbn [snd] in Hout |- *. subst o.
  destruct (getStringAll_text t t s _ Harr Hrun) as [Htext (s1' & Hp1' & Hoffs & _)].
  rewrite Hp1 in Hp1'. injection Hp1' as <-.
  rewrite Htext, Hoffs, lines_tree, height_kids.
  rewrite (fheight_leaves (kids t) ltac:(by rewrite Hrow) Hleaves).
  cbn [seq fmap list_fmap concat]. rewrite Hlevel, app_nil_r. f_equal.
  change (level 0 t) with [t]. unfold line at 1. cbn [fmap list_fmap concat].
  rewrite app_nil_r. unfold node_chunks at 1. rewrite Hroot, Et. cbn zeta.
  rewrite Hgiven. fold (width t).
  rewrite <- !app_assoc, !str_app. unfold line. rewrite str_app, (str_leaves _ _ Hleaves).
  cbn [app str fold_right chunk_str]. rewrite !append_nil_r.
  pose proof (width_pos t).
  assert (0 <= width t / 2 <= W / 2) as Hhalf.
  { split; [apply Z.div_pos; lia | apply Z.div_le_mono; lia]. }
  assert (W < 2 ^ 31) as HW31 by exact Hfit.
  assert (2 * (W / 2) <= W) as HW by (apply Z.mul_div_le; lia).
  rewrite (to_int_small (W / 2 + width t / 2)) by lia.
  replace (to_size_t (W / 2 - width t / 2)) with (W / 2 - width t / 2)
    by (unfold to_size_t; symmetry; apply Z.mod_small; lia).
  rewrite (to_int_small (W / 2 - width t / 2)) by lia.
  rewrite strlen_app. change (strlen " ") with 1. fold (width t).
  unfold root_line. by rewrite !append_assoc.
Qed.

Lemma root_over_leaves_text_witness :
  tree_getString (Some t10)
  = if total_width (kids t10) >? width t10 then
      Done (root_line (total_width (kids t10)) t10 +:+ nl +:+ leaf_line (kids t10)
            +:+ nl +:+ nl)
    else Fault AssertionFailed.
Proof.
  apply (root_over_leaves_text t10 (leaf 101 (Some 100) [5]) (leaf 102 (Some 100) [12])
           linked_t10 arrays_ok_t10).
  - reflexivity.
  - intros c Hc. vm_compute in Hc.
    repeat (apply elem_of_cons in Hc as [Hc|Hc]; [by inversion Hc|]). inversion Hc.
  - reflexivity.
  - reflexivity.
  - reflexivity.
  - vm_compute. reflexivity.
Defined.

(** ** The layout engine: the room that a node takes in the text *)

Lemma strlen_spaces (k : nat) : strlen (spaces k) = Z.of_nat k.
Proof.
  induction k as [|k IH]; [reflexivity|].
  cbn [spaces]. rewrite strlen_app, IH. change (strlen " ") with 1. lia.
Qed.

(** [setw] pads, and never cuts. *)
Lemma strlen_field (w : Z) (s : string) :
  strlen (chunk_str (Field w s)) = Z.max w (strlen s).
Proof. cbn [chunk_str]. rewrite strlen_app, strlen_spaces. lia. Qed.

(** X15.  What a node writes in the render pass, in columns.  A leaf writes
    as many characters as its span is wide: its label and one space.  An
    internal node whose span is [W] (below 2^31) writes [W] characters when
    [W] is even, and [W] or [W - 1] characters when [W] is odd: the two field
    widths [W/2 + L/2] and [W/2 - L/2] add up to [2 * (W/2)], so the text can
    fall one column short of the span that [printed_length] records. *)
Theorem print_node_width (n : Node) (s s' : rstate) :
  label_ok n ->
  print_node n s = (s', Done tt) ->
  exists cs,
    ss s' = ss s ++ cs
    /\ (isLeaf n = true -> strlen (str cs) = width n)
    /\ (isLeaf n = false ->
        exists l, offsets s !! this_ n = Some l
          /\ (given_length l < 2 ^ 31 ->
              2 * (given_length l / 2) <= strlen (str cs) <= given_length l)).
Proof.
  intros Hl Hrun. rewrite (print_node_run n s Hl) in Hrun.
  destruct (isLeaf n) eqn:Hleaf.
  - injection Hrun as <-. eexists. split; [reflexivity|]. split; [|discriminate].
    intros _. cbn [str fold_right chunk_str].
    rewrite !strlen_app. change (strlen " ") with 1. change (strlen "") with 0.
    unfold width. lia.
  - destruct (offsets s !! this_ n) as [l|] eqn:El; [|discriminate]. cbn zeta in Hrun.
    fold (width n) in Hrun.
    destruct (Z.gtb_spec (given_length l) (width n)) as [Hgt|Hle]; [|discriminate].
    injection Hrun as <-. eexists. split; [reflexivity|]. split; [discriminate|].
    intros _. exists l. split; [reflexivity|]. intros Hfit.
    set (W := given_length l) in *. pose proof (width_pos n) as Hpos.
    assert (0 <= width n / 2 <= W / 2) as Hhalf.
    { split; [apply Z.div_pos; lia | apply Z.div_le_mono; lia]. }
    assert (2 * (W / 2) <= W) as HW by (apply Z.mul_div_le; lia).
    assert (2 * (width n / 2) <= width n) as HL by (apply Z.mul_div_le; lia).
    assert (W < 2 * (W / 2) + 2) as HW'
      by (pose proof (Z.mod_pos_bound W 2); pose proof (Z.div_mod W 2); lia).
    assert (width n < 2 * (width n / 2) + 2) as HL'
      by (pose proof (Z.mod_pos_bound (width n) 2); pose proof (Z.div_mod (width n) 2); lia).
    change (str [?a; ?b]) with (chunk_str a +:+ chunk_str b +:+ "").
    rewrite !strlen_app, !strlen_field, strlen_app.
    change (strlen " ") with 1. change (strlen "") with 0. fold (width n).
    rewrite (to_int_small (W / 2 + width n / 2)) by lia.
    replace (to_size_t (W / 2 - width n / 2)) with (W / 2 - width n / 2)
      by (unfold to_size_t; symmetry; apply Z.mod_small; lia).
    rewrite (to_int_small (W / 2 - width n / 2)) by lia.
    lia.
Qed.

Lemma print_node_width_witness :
  exists cs,
    ss (print_node t10 (pass1 t10 t10 initial).1).1 = ss (pass1 t10 t10 initial).1 ++ cs
    /\ (isLeaf t10 = true -> strlen (str cs) = width t10)
    /\ (isLeaf t10 = false ->
        exists l, offsets (pass1 t10 t10 initial).1 !! this_ t10 = Some l
          /\ (given_length l < 2 ^ 31 ->
              2 * (given_length l / 2) <= strlen (str cs) <= given_length l)).
Proof.
  apply (print_node_width t10 (pass1 t10 t10 initial).1
           (print_node t10 (pass1 t10 t10 initial).1).1).
  - vm_compute. split; discriminate.
  - vm_compute. reflexivity.
Defined.
